(** * BirdBrain: the neuro-evolution engine of Flappy-Bird-with-AI

    A shallow embedding of the engine (the classes [Neuron], [Layer],
    [Network], [Genome], [Generation], [Generations] and [BirdBrain]) and of
    the game that drives it (the classes [Bird], [Pipe] and [Game]), the
    properties of the specification that were checked against the engine,
    and further properties of both.

    Conventions of the embedding.
    - A JavaScript number is an IEEE-754 binary64 value: Rocq's primitive
      [float].  Integral options ([population], [nbChild], [historic],
      [scoreSort]) are kept as [Z], array lengths and neuron counts as [nat].
    - An array slot holds a [jsval]: a number, [undefined], [null] or a hole
      (a missing index of a sparse array, skipped by [for ... in]).
    - [Math.random] is an oracle: an infinite sequence of draws and a cursor.
    - A method that can draw random numbers, raise an exception or loop
      forever lives in the monad [M]; the [while (true)] loop of
      [generateNextGeneration] is given fuel, and running out of it is the
      outcome [Diverge].
    - Objects are never shared between two owners in this code (every copy is
      a [JSON.parse(JSON.stringify(...))] or a fresh array), so methods are
      functions from the receiver to the updated receiver. *)

From Stdlib Require Import Floats ZArith List Bool Lia Arith Sorted.
Import ListNotations.

Set Implicit Arguments.
Set Warnings "-inexact-float".

(** ** JavaScript values, arrays and numbers *)

Module JS.

Inductive jsval :=
| Num (f : float)
| Undefined
| Null
| Hole.

Inductive exn := TypeError | SyntaxError.

(** [ToNumber]: [undefined] is NaN, [null] is 0. A hole is never seen by
    [ToNumber]: reading it yields [undefined] first. *)
Definition to_number (v : jsval) : float :=
  match v with
  | Num f => f
  | Null => 0%float
  | Undefined | Hole => nan
  end.

Definition mul (a b : jsval) : float := (to_number a * to_number b)%float.

(** [a > b] and [a < b] on numbers. *)
Definition gt (a b : jsval) : bool := (to_number b <? to_number a)%float.
Definition lt (a b : jsval) : bool := (to_number a <? to_number b)%float.

(** [v || 0] for a number-like [v]: NaN, both zeros, [undefined] and [null]
    are falsy. *)
Definition or_zero (v : jsval) : jsval :=
  match v with
  | Num f => if PrimFloat.is_nan f || PrimFloat.is_zero f then Num 0 else Num f
  | Undefined | Null | Hole => Num 0
  end.

(** [a[i]] read: [undefined] out of range and at a hole. *)
Definition array_get (a : list jsval) (i : nat) : jsval :=
  match nth_error a i with
  | Some Hole | None => Undefined
  | Some v => v
  end.

(** [a[i] = v]: in range the slot is replaced; out of range the array grows,
    the skipped indices being holes. *)
Fixpoint array_set (a : list jsval) (i : nat) (v : jsval) : list jsval :=
  match a, i with
  | [], O => [v]
  | [], S i' => Hole :: array_set [] i' v
  | _ :: t, O => v :: t
  | x :: t, S i' => x :: array_set t i' v
  end.

(** What [JSON.parse(JSON.stringify(...))] makes of an array element: NaN,
    the infinities, [undefined] and holes become [null]; [-0] becomes [0];
    every other number is reproduced (shortest round-trip printing). *)
Definition json_val (v : jsval) : jsval :=
  match v with
  | Num f =>
      if PrimFloat.is_finite f
      then (if PrimFloat.is_zero f then Num 0 else Num f)
      else Null
  | Undefined | Null | Hole => Null
  end.

(** The integer [z] as a number. *)
Definition of_Z (z : Z) : float := SF2Prim (binary_normalize prec emax z 0 false).

(** The iterations of [for (let i = 0; i < Math.round(x); i++)].
    [Math.round] is the nearest integer, ties towards +infinity, that is
    [floor (x + 1/2)] computed exactly.  A bound above 2^53 (or +infinity)
    is never reached by [i++]. *)
Inductive iterations := Finite (n : nat) | Unbounded.

Definition round_half_up (s : bool) (m : positive) (e : Z) : Z :=
  let sm := if s then Z.neg m else Z.pos m in
  if (0 <=? e)%Z then (sm * 2 ^ e)%Z
  else ((2 * sm + 2 ^ (- e)) / (2 * 2 ^ (- e)))%Z.

Definition round_iterations (x : float) : iterations :=
  match Prim2SF x with
  | S754_zero _ | S754_nan => Finite 0
  | S754_infinity s => if s then Finite 0 else Unbounded
  | S754_finite s m e =>
      let z := round_half_up s m e in
      if (2 ^ 53 <? z)%Z then Unbounded else Finite (Z.to_nat z)
  end.

(** [Math.round(x)] as a number: NaN, the infinities and both zeros are
    returned as they are, a negative [x] that rounds to zero gives [-0]. *)
Definition Math_round (x : float) : float :=
  match Prim2SF x with
  | S754_finite s m e =>
      let z := round_half_up s m e in
      if (z =? 0)%Z then (if s then PrimFloat.opp 0 else 0%float) else of_Z z
  | _ => x
  end.

(** The number an array is read as when it is compared with a number:
    the array is joined into a string and the string is read back.  A
    single number reads as itself (the negative zero prints as "0"); a
    single [undefined], [null] or hole, and the empty array, give the empty
    string, which reads as 0; two elements or more give a string with a
    comma, which reads as NaN. *)
Definition array_to_number (a : list jsval) : float :=
  match a with
  | [] => 0%float
  | [Num f] => if PrimFloat.is_zero f then 0%float else f
  | [_] => 0%float
  | _ :: _ :: _ => nan
  end.

(** *** The monad of methods: random draws, exceptions, divergence *)

Record rng := { draws : nat -> float; cursor : nat }.

Inductive result (A : Type) :=
| Ok (a : A) (r : rng)
| Throw (e : exn)
| Diverge.
Arguments Throw {A} e.
Arguments Diverge {A}.

Definition M (A : Type) := rng -> result A.

Definition ret {A} (a : A) : M A := fun r => Ok a r.
Definition bind {A B} (m : M A) (k : A -> M B) : M B :=
  fun r => match m r with
           | Ok a r' => k a r'
           | Throw e => Throw e
           | Diverge => Diverge
           end.
Definition throw {A} (e : exn) : M A := fun _ => Throw e.
Definition diverge {A} : M A := fun _ => Diverge.

(** [Math.random()]: the next draw of the oracle. *)
Definition Math_random : M float :=
  fun r => Ok (draws r (cursor r)) {| draws := draws r; cursor := S (cursor r) |}.

(** A loop body run over a list of indices or elements, left to right. *)
Fixpoint foldM {A S} (body : S -> A -> M S) (l : list A) (s : S) : M S :=
  match l with
  | [] => ret s
  | x :: t => bind (body s x) (foldM body t)
  end.

(** A method without random draws either completes or raises. *)
Inductive completion (A : Type) :=
| Normal (a : A)
| Abrupt (e : exn).
Arguments Abrupt {A} e.

End JS.

Import JS.

Declare Scope js_scope.
Delimit Scope js_scope with js.
Notation "x <- m ;; k" := (bind m (fun x => k))
  (at level 61, m at next level, right associativity) : js_scope.
Open Scope js_scope.

(** ** The global [options] object *)

Record Options := {
  activation : float -> float;
  network : nat * list nat * nat;
  population : Z;
  elitism : float;
  randomBehaviour : float;
  mutationRate : float;
  mutationRange : float;
  historic : Z;
  lowHistoric : bool;
  scoreSort : Z;
  nbChild : Z
}.

(** [options.randomClamped()], as the source defines it (no caller of the
    repository overrides it). *)
Definition randomClamped : M float :=
  r <- Math_random ;; ret (r * 2 - 1)%float.

(** The defaults of the source; the logistic [activation] needs [Math.exp]
    and is left to the caller. *)
Definition default_options (logistic : float -> float) : Options :=
  {| activation := logistic;
     network := (1, [1], 1)%nat;
     population := 50;
     elitism := 0.2%float;
     randomBehaviour := 0.2%float;
     mutationRate := 0.1%float;
     mutationRange := 0.5%float;
     historic := 0;
     lowHistoric := false;
     scoreSort := (-1);
     nbChild := 1 |}.

(** ** Neuron *)

Module Neuron.

Record t := { value : jsval; weights : list jsval }.

Definition new : t := {| value := Num 0; weights := [] |}.

(** The [nb] pushes of [populate]. *)
Fixpoint random_weights (nb : nat) : M (list jsval) :=
  match nb with
  | O => ret []
  | S n =>
      w <- randomClamped ;;
      ws <- random_weights n ;;
      ret (Num w :: ws)
  end.

Definition populate (this : t) (nb : nat) : M t :=
  ws <- random_weights nb ;;
  ret {| value := value this; weights := ws |}.

End Neuron.

(** ** Layer *)

Module Layer.

Record t := { id : nat; neurons : list Neuron.t }.

Definition new (index : nat) : t := {| id := index; neurons := [] |}.

Fixpoint random_neurons (nbNeurons nbInputs : nat) : M (list Neuron.t) :=
  match nbNeurons with
  | O => ret []
  | S n =>
      x <- Neuron.populate Neuron.new nbInputs ;;
      xs <- random_neurons n nbInputs ;;
      ret (x :: xs)
  end.

Definition populate (this : t) (nbNeurons nbInputs : nat) : M t :=
  ns <- random_neurons nbNeurons nbInputs ;;
  ret {| id := id this; neurons := ns |}.

End Layer.

(** ** Network *)

Module Save.
(** The serialized network: [{neurons: [...], weights: [...]}]. *)
Record t := { neurons : list nat; weights : list jsval }.

(** [JSON.parse(JSON.stringify(save))]. *)
Definition json_copy (s : t) : t :=
  {| neurons := neurons s; weights := map json_val (weights s) |}.
End Save.

Module Network.

Record t := { layers : list Layer.t }.

Definition new : t := {| layers := [] |}.

Definition push (this : t) (l : Layer.t) : t :=
  {| layers := layers this ++ [l] |}.

(** The [for (const i in hidden)] loop: state is the network under
    construction, the running [index] and [previousNeurons]. *)
Definition hidden_step (st : t * nat * nat) (h : nat) : M (t * nat * nat) :=
  let '(this, index, previousNeurons) := st in
  layer <- Layer.populate (Layer.new index) h previousNeurons ;;
  ret (push this layer, S index, h).

Definition perceptronGeneration (this : t) (input : nat) (hidden : list nat)
    (output : nat) : M t :=
  layer <- Layer.populate (Layer.new 0) input 0 ;;
  st <- foldM hidden_step hidden (push this layer, 1%nat, input) ;;
  let '(this, index, previousNeurons) := st in
  layer <- Layer.populate (Layer.new index) output previousNeurons ;;
  ret (push this layer).

(** [for (const k in weights) dataSet.weights.push(weights[k])]: the
    elements at the indices that exist. *)
Definition present (ws : list jsval) : list jsval :=
  filter (fun v => match v with Hole => false | _ => true end) ws.

Definition getSave (this : t) : Save.t :=
  {| Save.neurons := map (fun l => length (Layer.neurons l)) (layers this);
     Save.weights :=
       flat_map (fun l => flat_map (fun n => present (Neuron.weights n))
                            (Layer.neurons l))
                (layers this) |}.

(** The two inner loops of [setSave]: every existing index [k] of every
    neuron receives [save.weights[indexWeights]], and the index moves on. *)
Fixpoint assign_weights (ws : list jsval) (flat : list jsval) (indexWeights : nat)
    : list jsval * nat :=
  match ws with
  | [] => ([], indexWeights)
  | Hole :: t =>
      let '(t', i') := assign_weights t flat indexWeights in (Hole :: t', i')
  | _ :: t =>
      let '(t', i') := assign_weights t flat (S indexWeights) in
      (array_get flat indexWeights :: t', i')
  end.

Fixpoint assign_neurons (ns : list Neuron.t) (flat : list jsval) (indexWeights : nat)
    : list Neuron.t * nat :=
  match ns with
  | [] => ([], indexWeights)
  | n :: t =>
      let '(ws, i1) := assign_weights (Neuron.weights n) flat indexWeights in
      let '(t', i2) := assign_neurons t flat i1 in
      ({| Neuron.value := Neuron.value n; Neuron.weights := ws |} :: t', i2)
  end.

(** One turn of [for (let i in save.neurons)]: the state is
    ([this.layers], [previousNeurons], [index], [indexWeights]). *)
Definition setSave_step (flat : list jsval)
    (st : list Layer.t * nat * nat * nat) (count : nat)
    : M (list Layer.t * nat * nat * nat) :=
  let '(ls, previousNeurons, index, indexWeights) := st in
  layer <- Layer.populate (Layer.new index) count previousNeurons ;;
  let '(ns, indexWeights') :=
    assign_neurons (Layer.neurons layer) flat indexWeights in
  ret (ls ++ [ {| Layer.id := Layer.id layer; Layer.neurons := ns |} ],
       count, S index, indexWeights').

Definition setSave (this : t) (save : Save.t) : M t :=
  st <- foldM (setSave_step (Save.weights save)) (Save.neurons save)
              ([], 0, 0, 0)%nat ;;
  let '(ls, _, _, _) := st in
  ret {| layers := ls |}.

(** First loop of [compute]: [neurons[i].value = inputs[i]] for every
    existing index [i] of [inputs] that is also a neuron of the input
    layer. *)
Fixpoint set_inputs (ns : list Neuron.t) (inputs : list jsval) : list Neuron.t :=
  match ns, inputs with
  | n :: ns', Hole :: inputs' => n :: set_inputs ns' inputs'
  | n :: ns', v :: inputs' =>
      {| Neuron.value := v; Neuron.weights := Neuron.weights n |}
        :: set_inputs ns' inputs'
  | _, _ => ns
  end.

(** [sum += prevLayer.neurons[k].value * weights[k]] over the neurons of the
    previous layer, from index [k]. *)
Fixpoint weighted_sum (prev : list Neuron.t) (ws : list jsval) (k : nat)
    (sum : float) : float :=
  match prev with
  | [] => sum
  | p :: prev' =>
      weighted_sum prev' ws (S k)
        (sum + JS.mul (Neuron.value p) (array_get ws k))%float
  end.

Definition fire (act : float -> float) (prev : list Neuron.t) (n : Neuron.t)
    : Neuron.t :=
  {| Neuron.value := Num (act (weighted_sum prev (Neuron.weights n) 0 0%float));
     Neuron.weights := Neuron.weights n |}.

Definition fire_layer (act : float -> float) (prev l : Layer.t) : Layer.t :=
  {| Layer.id := Layer.id l;
     Layer.neurons := map (fire act (Layer.neurons prev)) (Layer.neurons l) |}.

(** The loop [for (let i = 1; i < this.layers.length; i++)]: returns the
    updated layers from index 1 on. *)
Fixpoint propagate (act : float -> float) (prevLayer : Layer.t)
    (rest : list Layer.t) : list Layer.t :=
  match rest with
  | [] => []
  | l :: rest' =>
      let l' := fire_layer act prevLayer l in
      l' :: propagate act l' rest'
  end.

(** [compute]: the receiver after the call (neuron values are overwritten)
    and the returned array.  With no layer at all, [lastLayer] is
    [undefined] and reading [lastLayer.neurons] raises. *)
Definition compute (opts : Options) (this : t) (inputs : list jsval)
    : completion (t * list jsval) :=
  match layers this with
  | [] => Abrupt TypeError
  | l0 :: rest =>
      let l0' := {| Layer.id := Layer.id l0;
                    Layer.neurons := set_inputs (Layer.neurons l0) inputs |} in
      let ls := l0' :: propagate (activation opts) l0' rest in
      Normal ({| layers := ls |},
              map Neuron.value (Layer.neurons (last ls l0')))
  end.

End Network.

(** ** Genome *)

Module Genome.

(** [network] is [None] once [delete genome.network] has run. *)
Record t := { score : jsval; network : option Save.t }.

(** [new Genome(score, network)]; the only caller passes the object
    returned by [getSave], so [network || null] is that object. *)
Definition new (score : jsval) (network : Save.t) : t :=
  {| score := or_zero score; network := Some network |}.

End Genome.

(** ** Generation *)

Module Generation.

Record t := { genomes : list Genome.t }.

Definition new : t := {| genomes := [] |}.

(** The test that breaks the scan of [addGenome] at an existing genome. *)
Definition breaks (opts : Options) (genome existing : Genome.t) : bool :=
  if (scoreSort opts <? 0)%Z
  then JS.gt (Genome.score genome) (Genome.score existing)
  else JS.lt (Genome.score genome) (Genome.score existing).

(** The value of [i] when the [for] loop of [addGenome] stops, the loop
    having reached index [i] with [gs] still ahead. *)
Fixpoint scan (opts : Options) (genome : Genome.t) (gs : list Genome.t)
    (i : nat) : nat :=
  match gs with
  | [] => i
  | existing :: rest =>
      if breaks opts genome existing then i
      else scan opts genome rest (S i)
  end.

(** [a.splice(i, 0, x)]. *)
Definition splice_in {A} (a : list A) (i : nat) (x : A) : list A :=
  firstn i a ++ x :: skipn i a.

Definition addGenome (opts : Options) (this : t) (genome : Genome.t) : t :=
  let i := scan opts genome (genomes this) 0 in
  {| genomes := splice_in (genomes this) i genome |}.

(** The indices a [for ... in] loop visits on an array, from [i] on. *)
Fixpoint keys_from (a : list jsval) (i : nat) : list nat :=
  match a with
  | [] => []
  | Hole :: t => keys_from t (S i)
  | _ :: t => i :: keys_from t (S i)
  end.
Definition keys (a : list jsval) : list nat := keys_from a 0.

(** The object [data] of [breed], a JSON copy of [g1] whose [network]
    exists. *)
Record child := { child_score : jsval; child_network : Save.t }.

(** Crossover at index [i]: [w] is [data.network.weights]. *)
Definition crossover_step (w2 : list jsval) (w : list jsval) (i : nat)
    : M (list jsval) :=
  r <- Math_random ;;
  if (r <=? 0.5)%float then ret (array_set w i (array_get w2 i)) else ret w.

(** Mutation at index [i]. *)
Definition mutation_step (opts : Options) (w : list jsval) (i : nat)
    : M (list jsval) :=
  r <- Math_random ;;
  if (r <=? mutationRate opts)%float
  then
    r' <- Math_random ;;
    ret (array_set w i
           (Num (to_number (array_get w i)
                 + (r' * mutationRange opts * 2 - mutationRange opts))%float))
  else ret w.

(** One child of [breed].  When [g1] or [g2] has lost its [network], the
    loop headers read [.weights] of [undefined] and raise. *)
Definition breed_one (opts : Options) (g1 g2 : Genome.t) : M child :=
  match Genome.network g1, Genome.network g2 with
  | Some n1, Some n2 =>
      let data := Save.json_copy n1 in
      w <- foldM (crossover_step (Save.weights n2))
                 (keys (Save.weights n2)) (Save.weights data) ;;
      w' <- foldM (mutation_step opts) (keys w) w ;;
      ret {| child_score := json_val (Genome.score g1);
             child_network := {| Save.neurons := Save.neurons data;
                                 Save.weights := w' |} |}
  | _, _ => throw TypeError
  end.

Fixpoint breed_children (opts : Options) (g1 g2 : Genome.t) (nb : nat)
    : M (list child) :=
  match nb with
  | O => ret []
  | S nb' =>
      c <- breed_one opts g1 g2 ;;
      cs <- breed_children opts g1 g2 nb' ;;
      ret (c :: cs)
  end.

Definition breed (opts : Options) (g1 g2 : Genome.t) (nbchildren : Z)
    : M (list child) :=
  breed_children opts g1 g2 (Z.to_nat nbchildren).

(** *** generateNextGeneration *)

Definition below_population (opts : Options) (nexts : list Save.t) : bool :=
  (Z.of_nat (length nexts) <? population opts)%Z.

(** Body of the elitism loop. *)
Definition elitism_step (opts : Options) (this : t) (nexts : list Save.t)
    (i : nat) : M (list Save.t) :=
  if below_population opts nexts
  then
    match nth_error (genomes this) i with
    | None => throw TypeError
    | Some g =>
        match Genome.network g with
        | None => throw SyntaxError
        | Some s => ret (nexts ++ [Save.json_copy s])
        end
    end
  else ret nexts.

(** [for (const k in n.weights) n.weights[k] = options.randomClamped()]. *)
Fixpoint randomize (ws : list jsval) : M (list jsval) :=
  match ws with
  | [] => ret []
  | Hole :: t => t' <- randomize t ;; ret (Hole :: t')
  | _ :: t =>
      w <- randomClamped ;;
      t' <- randomize t ;;
      ret (Num w :: t')
  end.

(** Body of the random-behaviour loop. *)
Definition random_step (opts : Options) (this : t) (nexts : list Save.t)
    (i : nat) : M (list Save.t) :=
  match nth_error (genomes this) 0 with
  | None => throw TypeError
  | Some g =>
      match Genome.network g with
      | None => throw SyntaxError
      | Some s =>
          let n := Save.json_copy s in
          ws <- randomize (Save.weights n) ;;
          if below_population opts nexts
          then ret (nexts ++ [ {| Save.neurons := Save.neurons n;
                                  Save.weights := ws |} ])
          else ret nexts
      end
  end.

(** A [for] loop bounded by [Math.round(rate * options.population)].  When
    the bound cannot be reached, the turns over [spin] (all the turns that
    can still change anything or raise) are run and the loop then spins
    forever. *)
Definition rounded_loop (opts : Options) (rate : float)
    (body : list Save.t -> nat -> M (list Save.t)) (spin : nat)
    (nexts : list Save.t) : M (list Save.t) :=
  match round_iterations (rate * of_Z (population opts))%float with
  | Finite n => foldM body (seq 0 n) nexts
  | Unbounded => _ <- foldM body (seq 0 spin) nexts ;; diverge
  end.

(** The [for (const c in children)] loop, which may [return nexts]. *)
Inductive flow := Continue (nexts : list Save.t) | Return (nexts : list Save.t).

Fixpoint push_children (opts : Options) (children : list child)
    (nexts : list Save.t) : flow :=
  match children with
  | [] => Continue nexts
  | c :: rest =>
      let nexts' := nexts ++ [child_network c] in
      if (population opts <=? Z.of_nat (length nexts'))%Z
      then Return nexts'
      else push_children opts rest nexts'
  end.

(** The [for (let i = 0; i < max; i++)] loop, over the remaining indices [ixs]. *)
Fixpoint pairs (opts : Options) (this : t) (max : nat) (ixs : list nat)
    (nexts : list Save.t) : M flow :=
  match ixs with
  | [] => ret (Continue nexts)
  | i :: rest =>
      match nth_error (genomes this) i, nth_error (genomes this) max with
      | Some g1, Some g2 =>
          children <- breed opts g1 g2
                        (if (0 <? nbChild opts)%Z then nbChild opts else 1) ;;
          match push_children opts children nexts with
          | Return nexts' => ret (Return nexts')
          | Continue nexts' => pairs opts this max rest nexts'
          end
      | None, _ => throw SyntaxError
      | Some _, None => throw TypeError
      end
  end.

(** [max++; if (max >= this.genomes.length - 1) max = 0]. *)
Definition next_max (this : t) (max : nat) : nat :=
  if (Z.of_nat (length (genomes this)) - 1 <=? Z.of_nat (S max))%Z
  then O else S max.

(** The [while (true)] loop, [fuel] turns of it. *)
Fixpoint breeding (opts : Options) (this : t) (fuel : nat) (max : nat)
    (nexts : list Save.t) : M (list Save.t) :=
  match fuel with
  | O => diverge
  | S fuel' =>
      fl <- pairs opts this max (seq 0 max) nexts ;;
      match fl with
      | Return nexts' => ret nexts'
      | Continue nexts' => breeding opts this fuel' (next_max this max) nexts'
      end
  end.

Definition generateNextGeneration (opts : Options) (fuel : nat) (this : t)
    : M (list Save.t) :=
  nexts <- rounded_loop opts (elitism opts) (elitism_step opts this)
             (Z.to_nat (population opts)) [] ;;
  nexts <- rounded_loop opts (randomBehaviour opts) (random_step opts this)
             1 nexts ;;
  breeding opts this fuel 0 nexts.

End Generation.

(** ** Generations *)

Module Generations.

Record t := { generations : list Generation.t }.

Definition new : t := {| generations := [] |}.

(** The body of the loop of [firstGeneration]. *)
Definition first_step (opts : Options) (out : list Save.t) (i : nat)
    : M (list Save.t) :=
  let '(input, hidden, output) := network opts in
  nn <- Network.perceptronGeneration Network.new input hidden output ;;
  ret (out ++ [Network.getSave nn]).

Definition firstGeneration (opts : Options) (this : t)
    : M (t * list Save.t) :=
  out <- foldM (first_step opts) (seq 0 (Z.to_nat (population opts))) [] ;;
  ret ({| generations := generations this ++ [Generation.new] |}, out).

(** [nextGeneration] returns [false] ([NoGeneration]) or the array of the
    next networks. *)
Inductive next := NoGeneration | Networks (gen : list Save.t).

Definition nextGeneration (opts : Options) (fuel : nat) (this : t)
    : M (t * next) :=
  match generations this with
  | [] => ret (this, NoGeneration)
  | g :: gs =>
      gen <- Generation.generateNextGeneration opts fuel (last gs g) ;;
      ret ({| generations := generations this ++ [Generation.new] |},
           Networks gen)
  end.

(** What [addGenome] returns: [false], or the [undefined] of
    [Generation.addGenome]. *)
Inductive added := NotAdded | Added.

(** [l[l.length - 1] = x] as a new list. *)
Fixpoint set_last {A} (l : list A) (x : A) : list A :=
  match l with
  | [] => []
  | [_] => [x]
  | y :: t => y :: set_last t x
  end.

Definition addGenome (opts : Options) (this : t) (genome : Genome.t)
    : t * added :=
  match generations this with
  | [] => (this, NotAdded)
  | g :: gs =>
      ({| generations :=
            set_last (generations this)
                     (Generation.addGenome opts (last gs g) genome) |},
       Added)
  end.

End Generations.

(** ** BirdBrain *)

Module BirdBrain.

Record t := { generations : Generations.t }.

Definition new : t := {| generations := Generations.new |}.

(** The object passed to [set] (and to the constructor), as far as the
    options of the model go: a key that is absent is [None].  (Keys the
    model does not carry, [randomClamped] among them, are not
    represented.) *)
Record Overrides := {
  set_activation : option (float -> float);
  set_network : option (nat * list nat * nat);
  set_population : option Z;
  set_elitism : option float;
  set_randomBehaviour : option float;
  set_mutationRate : option float;
  set_mutationRange : option float;
  set_historic : option Z;
  set_lowHistoric : option bool;
  set_scoreSort : option Z;
  set_nbChild : option Z
}.

(** [options[i] = initOptions[i]] for a key [i] that is present. *)
Definition override {A} (current : A) (given : option A) : A :=
  match given with
  | Some v => v
  | None => current
  end.

(** [set(initOptions)]: the global [options] after the call. *)
Definition set (opts : Options) (initOptions : Overrides) : Options :=
  {| activation := override (activation opts) (set_activation initOptions);
     network := override (network opts) (set_network initOptions);
     population := override (population opts) (set_population initOptions);
     elitism := override (elitism opts) (set_elitism initOptions);
     randomBehaviour :=
       override (randomBehaviour opts) (set_randomBehaviour initOptions);
     mutationRate := override (mutationRate opts) (set_mutationRate initOptions);
     mutationRange :=
       override (mutationRange opts) (set_mutationRange initOptions);
     historic := override (historic opts) (set_historic initOptions);
     lowHistoric := override (lowHistoric opts) (set_lowHistoric initOptions);
     scoreSort := override (scoreSort opts) (set_scoreSort initOptions);
     nbChild := override (nbChild opts) (set_nbChild initOptions) |}.

(** The global object ([self] is [window] in the page that loads the
    engine): only its property [generations] is ever read. *)
Record Global := { self_generations : option Generations.t }.

(** The page defines no global property [generations]: [Brain] is declared
    with [let] and class declarations are not properties of [window]. *)
Definition window : Global := {| self_generations := None |}.

(** [for (let i in networks) { nn = new Network(); nn.setSave(networks[i]);
    nns.push(nn) }]. *)
Definition wrap_step (nns : list Network.t) (save : Save.t)
    : M (list Network.t) :=
  nn <- Network.setSave Network.new save ;;
  ret (nns ++ [nn]).

(** [delete genomes[i].network] for every genome. *)
Definition strip (g : Generation.t) : Generation.t :=
  {| Generation.genomes :=
       map (fun x => {| Genome.score := Genome.score x;
                        Genome.network := None |})
           (Generation.genomes g) |}.

Fixpoint update_nth {A} (l : list A) (i : nat) (f : A -> A) : list A :=
  match l, i with
  | [], _ => []
  | x :: t, O => f x :: t
  | x :: t, S i' => x :: update_nth t i' f
  end.

(** The [if (options.lowHistoric)] block.  It reads the length through
    [self], not [this]. *)
Definition remove_old_networks (self : Global) (opts : Options)
    (gens : list Generation.t) : completion (list Generation.t) :=
  if lowHistoric opts
  then
    if (2 <=? length gens)%nat
    then
      match self_generations self with
      | None => Abrupt TypeError
      | Some sg =>
          let idx := (Z.of_nat (length (Generations.generations sg)) - 2)%Z in
          if (idx <? 0)%Z then Abrupt TypeError
          else
            match nth_error gens (Z.to_nat idx) with
            | None => Abrupt TypeError
            | Some _ => Normal (update_nth gens (Z.to_nat idx) strip)
            end
      end
    else Normal gens
  else Normal gens.

(** The [if (options.historic !== -1)] block. *)
Definition remove_older_generations (opts : Options)
    (gens : list Generation.t) : list Generation.t :=
  if (historic opts =? -1)%Z then gens
  else
    if (historic opts + 1 <? Z.of_nat (length gens))%Z
    then skipn (Z.to_nat (Z.of_nat (length gens) - (historic opts + 1))) gens
    else gens.

(** [nextGeneration]: the engine after the call, also when it raises, and
    the outcome. *)
Definition nextGeneration (self : Global) (opts : Options) (fuel : nat)
    (this : t) (r : rng) : t * result (list Network.t) :=
  let produced :=
    match Generations.generations (generations this) with
    | [] =>
        (x <- Generations.firstGeneration opts (generations this) ;;
         ret (fst x, Generations.Networks (snd x))) r
    | _ :: _ => Generations.nextGeneration opts fuel (generations this) r
    end in
  match produced with
  | Throw e => (this, Throw e)
  | Diverge => (this, Diverge)
  | Ok (gens, networks) r1 =>
      let saves := match networks with
                   | Generations.NoGeneration => []
                   | Generations.Networks l => l
                   end in
      match foldM wrap_step saves [] r1 with
      | Throw e => ({| generations := gens |}, Throw e)
      | Diverge => ({| generations := gens |}, Diverge)
      | Ok nns r2 =>
          match remove_old_networks self opts (Generations.generations gens) with
          | Abrupt e => ({| generations := gens |}, Throw e)
          | Normal gs =>
              ({| generations :=
                    {| Generations.generations :=
                         remove_older_generations opts gs |} |},
               Ok nns r2)
          end
      end
  end.

(** [networkScore(network, score)]. *)
Definition networkScore (opts : Options) (this : t) (network : Network.t)
    (score : jsval) : t :=
  {| generations :=
       fst (Generations.addGenome opts (generations this)
              (Genome.new score (Network.getSave network))) |}.

End BirdBrain.

(** * The game

    [Game.js]: the birds, the pipes and the loop that asks the engine for a
    population, lets every network steer one bird, and reports the score of
    each bird that dies.

    Conventions.  Positions and sizes are numbers ([float]); the counters
    ([score], [interval], [alives], ...) only ever count up or down by one
    from small integers and are kept as [Z].  The global [Brain] is threaded
    through [start] and [update] beside the game.  One call of [update] is
    one tick: the model stops where the source schedules the next call
    ([setTimeout] or [setZeroTimeout]), and leaves out [display], which only
    draws. *)

Module Pipe.

Record t := {
  x : float;
  y : float;
  width : float;
  height : float;
  speed : float
}.

(** [new Pipe({x: .., y: .., height: ..})]: the defaults, then the three
    keys given. *)
Definition new (x y height : float) : t :=
  {| x := x; y := y; width := 50; height := height; speed := 3 |}.

Definition update (this : t) : t :=
  {| x := x this - speed this;
     y := y this;
     width := width this;
     height := height this;
     speed := speed this |}.

(** [isOut] returns [true] or nothing; it is only used as a condition. *)
Definition isOut (this : t) : bool := (x this + width this <? 0)%float.

End Pipe.

Module Bird.

Record t := {
  x : float;
  y : float;
  width : float;
  height : float;
  alive : bool;
  gravity : float;
  velocity : float;
  jump : float
}.

(** [new Bird()]: no key is given. *)
Definition new : t :=
  {| x := 80; y := 250; width := 40; height := 30;
     alive := true; gravity := 0; velocity := 0.3; jump := -6 |}.

Definition flap (this : t) : t :=
  {| x := x this; y := y this; width := width this; height := height this;
     alive := alive this; gravity := jump this;
     velocity := velocity this; jump := jump this |}.

Definition update (this : t) : t :=
  let gravity' := (gravity this + velocity this)%float in
  {| x := x this; y := (y this + gravity')%float;
     width := width this; height := height this;
     alive := alive this; gravity := gravity';
     velocity := velocity this; jump := jump this |}.

(** [this.alive = false]. *)
Definition kill (this : t) : t :=
  {| x := x this; y := y this; width := width this; height := height this;
     alive := false; gravity := gravity this;
     velocity := velocity this; jump := jump this |}.

(** The condition under [!] in [isDead]: the bird is clear of the pipe. *)
Definition clear_of (this : t) (p : Pipe.t) : bool :=
  (Pipe.x p + Pipe.width p <? x this)%float
  || (x this + width this <? Pipe.x p)%float
  || (Pipe.y p + Pipe.height p <? y this)%float
  || (y this + height this <? Pipe.y p)%float.

(** [isDead] returns [true] or nothing; it is only used as a condition. *)
Definition isDead (height : float) (pipes : list Pipe.t) (this : t) : bool :=
  if (height <=? y this)%float || (y this + Bird.height this <=? 0)%float
  then true
  else existsb (fun p => negb (clear_of this p)) pipes.

End Bird.

Module Game.

Record t := {
  pipes : list Pipe.t;
  birds : list Bird.t;
  score : Z;
  maxScore : Z;
  pipesPassed : Z;
  maxPipesPassed : Z;
  width : float;
  height : float;
  spawnInterval : Z;
  interval : Z;
  gen : list Network.t;
  alives : Z;
  generation : Z;
  backgroundSpeed : float;
  backgroundx : float
}.

(** [new Game()] on a canvas of that size. *)
Definition new (canvas_width canvas_height : float) : t :=
  {| pipes := []; birds := []; score := 0; maxScore := 0;
     pipesPassed := 0; maxPipesPassed := 0;
     width := canvas_width; height := canvas_height;
     spawnInterval := 90; interval := 0; gen := []; alives := 0;
     generation := 0; backgroundSpeed := 0.5; backgroundx := 0 |}.

(** The object given to [new BirdBrain] when the page loads, and the
    options it leaves. *)
Definition given : BirdBrain.Overrides :=
  {| BirdBrain.set_activation := None;
     BirdBrain.set_network := Some (2, [2], 1)%nat;
     BirdBrain.set_population := Some 50%Z;
     BirdBrain.set_elitism := None;
     BirdBrain.set_randomBehaviour := None;
     BirdBrain.set_mutationRate := None;
     BirdBrain.set_mutationRange := None;
     BirdBrain.set_historic := None;
     BirdBrain.set_lowHistoric := None;
     BirdBrain.set_scoreSort := None;
     BirdBrain.set_nbChild := None |}.

Definition options (logistic : float -> float) : Options :=
  BirdBrain.set (default_options logistic) given.

(** Assignments to one property. *)
Definition set_birds (this : t) (v : list Bird.t) : t :=
  {| pipes := pipes this; birds := v; score := score this;
     maxScore := maxScore this; pipesPassed := pipesPassed this;
     maxPipesPassed := maxPipesPassed this; width := width this;
     height := height this; spawnInterval := spawnInterval this;
     interval := interval this; gen := gen this; alives := alives this;
     generation := generation this; backgroundSpeed := backgroundSpeed this;
     backgroundx := backgroundx this |}.

Definition set_gen (this : t) (v : list Network.t) : t :=
  {| pipes := pipes this; birds := birds this; score := score this;
     maxScore := maxScore this; pipesPassed := pipesPassed this;
     maxPipesPassed := maxPipesPassed this; width := width this;
     height := height this; spawnInterval := spawnInterval this;
     interval := interval this; gen := v; alives := alives this;
     generation := generation this; backgroundSpeed := backgroundSpeed this;
     backgroundx := backgroundx this |}.

Definition set_alives (this : t) (v : Z) : t :=
  {| pipes := pipes this; birds := birds this; score := score this;
     maxScore := maxScore this; pipesPassed := pipesPassed this;
     maxPipesPassed := maxPipesPassed this; width := width this;
     height := height this; spawnInterval := spawnInterval this;
     interval := interval this; gen := gen this; alives := v;
     generation := generation this; backgroundSpeed := backgroundSpeed this;
     backgroundx := backgroundx this |}.

Definition set_backgroundx (this : t) (v : float) : t :=
  {| pipes := pipes this; birds := birds this; score := score this;
     maxScore := maxScore this; pipesPassed := pipesPassed this;
     maxPipesPassed := maxPipesPassed this; width := width this;
     height := height this; spawnInterval := spawnInterval this;
     interval := interval this; gen := gen this; alives := alives this;
     generation := generation this; backgroundSpeed := backgroundSpeed this;
     backgroundx := v |}.

(** [isItEnd]: no bird is alive. *)
Definition isItEnd (this : t) : bool := negb (existsb Bird.alive (birds this)).

(** The game as [start] leaves it when the engine has returned
    [networks]: one new bird per network. *)
Definition started (this : t) (networks : list Network.t) : t :=
  let birds' := map (fun _ => Bird.new) networks in
  {| pipes := []; birds := birds'; score := 0;
     maxScore := maxScore this; pipesPassed := 0;
     maxPipesPassed := maxPipesPassed this; width := width this;
     height := height this; spawnInterval := spawnInterval this;
     interval := 0; gen := networks;
     alives := Z.of_nat (length birds');
     generation := generation this + 1;
     backgroundSpeed := backgroundSpeed this;
     backgroundx := backgroundx this |}.

(** [start]: a new round.  An exception of the engine, or its not
    returning, ends the call. *)
Definition start (self : BirdBrain.Global) (opts : Options) (fuel : nat)
    (this : t) (Brain : BirdBrain.t) : M (t * BirdBrain.t) :=
  fun r =>
    match BirdBrain.nextGeneration self opts fuel Brain r with
    | (Brain', Ok networks r') => Ok (started this networks, Brain') r'
    | (_, Throw e) => Throw e
    | (_, Diverge) => Diverge
    end.

(** The loop [for (let i = 0; i < this.pipes.length; i += 2)] of [update]:
    the relative height of the first pipe at an even index whose right edge
    is beyond [x], 0 when there is none. *)
Fixpoint next_hole (pipes : list Pipe.t) (x height : float) : float :=
  match pipes with
  | [] => 0
  | p :: rest =>
      if (x <? Pipe.x p + Pipe.width p)%float
      then (Pipe.height p / height)%float
      else match rest with
           | [] => 0
           | _ :: rest' => next_hole rest' x height
           end
  end.

Definition nextHole (this : t) : float :=
  match birds this with
  | [] => 0
  | b :: _ => next_hole (pipes this) (Bird.x b) (height this)
  end.

(** [a[i] = v] in range. *)
Definition put {A} (l : list A) (i : nat) (v : A) : list A :=
  BirdBrain.update_nth l i (fun _ => v).

(** The body of [for (let i in this.birds)].  The keys are those of the
    array the loop started on; the body reads [this.birds] and [this.gen]
    afresh, so after a [start] in mid-loop the later indices are looked up
    in the new arrays, and an index they do not have raises. *)
Definition bird_step (self : BirdBrain.Global) (opts : Options) (fuel : nat)
    (nextHole : float) (w : t * BirdBrain.t) (i : nat) : M (t * BirdBrain.t) :=
  let (this, Brain) := w in
  match nth_error (birds this) i with
  | None => throw TypeError
  | Some bird =>
      if Bird.alive bird
      then
        let inputs := [Num (Bird.y bird / height this); Num nextHole] in
        match nth_error (gen this) i with
        | None => throw TypeError
        | Some network =>
            match Network.compute opts network inputs with
            | Abrupt e => throw e
            | Normal (network', res) =>
                let this := set_gen this (put (gen this) i network') in
                let bird :=
                  if (0.5 <? array_to_number res)%float
                  then Bird.flap bird else bird in
                let bird := Bird.update bird in
                let this := set_birds this (put (birds this) i bird) in
                if Bird.isDead (height this) (pipes this) bird
                then
                  let this :=
                    set_birds this (put (birds this) i (Bird.kill bird)) in
                  let this := set_alives this (alives this - 1) in
                  let Brain :=
                    BirdBrain.networkScore opts Brain network'
                      (Num (of_Z (score this))) in
                  if isItEnd this
                  then start self opts fuel this Brain
                  else ret (this, Brain)
                else ret (this, Brain)
            end
        end
      else ret w
  end.

(** [a.splice(i, 1)]. *)
Definition remove_at {A} (l : list A) (i : nat) : list A :=
  firstn i l ++ skipn (S i) l.

(** The loop [for (let i = 0; i < this.pipes.length; i++)] from index [i]:
    [turns] bounds the number of turns, [None] when they do not suffice.
    After a [splice] the index steps back and forth and so stays. *)
Fixpoint sweep (turns : nat) (pipes : list Pipe.t) (i : nat)
    : option (list Pipe.t) :=
  match nth_error pipes i with
  | None => Some pipes
  | Some p =>
      match turns with
      | O => None
      | S turns' =>
          let p' := Pipe.update p in
          if Pipe.isOut p'
          then sweep turns' (remove_at (put pipes i p') i) i
          else sweep turns' (put pipes i p') (S i)
      end
  end.

(** The two pipes pushed when [interval] is 0. *)
Definition spawn (this : t) : M (list Pipe.t) :=
  d <- Math_random ;;
  let deltaBord := 50%float in
  let pipeHole := 120%float in
  let holePosition :=
    (Math_round (d * (height this - deltaBord * 2 - pipeHole))
     + deltaBord)%float in
  ret [Pipe.new (width this) 0 holePosition;
       Pipe.new (width this) (holePosition + pipeHole) (height this)].

(** The rest of [update] after the loop over the birds: the pipes move,
    those that left the screen are removed, a new pair is pushed when
    [interval] is 0, and the counters advance.  The pipe loop is given one
    turn per pipe. *)
Definition advance (this : t) (Brain : BirdBrain.t) : M (t * BirdBrain.t) :=
  match sweep (length (pipes this)) (pipes this) 0 with
  | None => diverge
  | Some swept =>
      pushed <- (if (interval this =? 0)%Z then spawn this else ret []) ;;
      let interval' := (interval this + 1)%Z in
      let passed := (interval' =? spawnInterval this)%Z in
      let pipesPassed' :=
        if passed then (pipesPassed this + 1)%Z else pipesPassed this in
      let score' := (score this + 1)%Z in
      ret ({| pipes := swept ++ pushed;
              birds := birds this;
              score := score';
              maxScore :=
                if (maxScore this <? score')%Z then score' else maxScore this;
              pipesPassed := pipesPassed';
              maxPipesPassed :=
                if passed
                then (if (maxPipesPassed this <? pipesPassed')%Z
                      then pipesPassed' else maxPipesPassed this)
                else maxPipesPassed this;
              width := width this;
              height := height this;
              spawnInterval := spawnInterval this;
              interval := if passed then 0%Z else interval';
              gen := gen this;
              alives := alives this;
              generation := generation this;
              backgroundSpeed := backgroundSpeed this;
              backgroundx := backgroundx this |}, Brain)
  end.

(** [update]: one tick. *)
Definition update (self : BirdBrain.Global) (opts : Options) (fuel : nat)
    (this : t) (Brain : BirdBrain.t) : M (t * BirdBrain.t) :=
  let this :=
    set_backgroundx this (backgroundx this + backgroundSpeed this)%float in
  let nextHole := nextHole this in
  w <- foldM (bird_step self opts fuel nextHole)
         (seq 0 (length (birds this))) (this, Brain) ;;
  let (this, Brain) := w in
  advance this Brain.

End Game.

(** ** Definitions used by the statements *)

(** *** The order of non-NaN numbers

    [SFcompare] on two numbers that are not NaN is the lexicographic
    comparison of their keys. *)

Module FloatOrder.

Definition key (x : spec_float) : Z * Z * Z :=
  match x with
  | S754_zero _ | S754_nan => (0, 0, 0)
  | S754_infinity s => (if s then -2 else 2, 0, 0)
  | S754_finite s m e =>
      if s then (-1, - e, Z.neg m) else (1, e, Z.pos m)
  end%Z.

Definition lex3 (a b : Z * Z * Z) : comparison :=
  let '(a1, a2, a3) := a in
  let '(b1, b2, b3) := b in
  match (a1 ?= b1)%Z with
  | Eq => match (a2 ?= b2)%Z with
          | Eq => (a3 ?= b3)%Z
          | c => c
          end
  | c => c
  end.

(** A value usable as a score: a number other than NaN. *)
Definition ordered (v : jsval) : Prop :=
  exists f, v = Num f /\ Prim2SF f <> S754_nan.

(** [a <= b] as numbers. *)
Definition le (a b : jsval) : Prop := (to_number a <=? to_number b)%float = true.
(** [a < b] as numbers. *)
Definition lt (a b : jsval) : Prop := (to_number a <? to_number b)%float = true.

End FloatOrder.

(** *** Ranking of genomes *)

Module Ranking.
Import FloatOrder.

(** [a] may stand before [b]: its score is at least as good under
    [scoreSort] (not smaller when descending, not greater when
    ascending). *)
Definition no_worse (opts : Options) (a b : Genome.t) : Prop :=
  if (scoreSort opts <? 0)%Z
  then le (Genome.score b) (Genome.score a)
  else le (Genome.score a) (Genome.score b).

(** [x] is strictly worse than [g] under [scoreSort]. *)
Definition worse (opts : Options) (x g : Genome.t) : Prop :=
  if (scoreSort opts <? 0)%Z
  then lt (Genome.score x) (Genome.score g)
  else lt (Genome.score g) (Genome.score x).

(** The generation after the engine was told the scores [reports], in
    that order, starting from an empty generation. *)
Definition after_reports (opts : Options) (reports : list (jsval * Save.t))
    : Generation.t :=
  fold_left (fun gen p => Generation.addGenome opts gen (Genome.new (fst p) (snd p)))
            reports Generation.new.

End Ranking.

(** *** The shape of a network *)

Module Shape.

(** No index is missing. *)
Definition dense (ws : list jsval) : bool :=
  forallb (fun v => match v with Hole => false | _ => true end) ws.

(** Every neuron of a layer has one weight per neuron of the layer before
    it; the input layer has none. *)
Fixpoint shaped (previousNeurons : nat) (ls : list Layer.t) : bool :=
  match ls with
  | [] => true
  | l :: rest =>
      forallb (fun n => dense (Neuron.weights n)
                        && (length (Neuron.weights n) =? previousNeurons)%nat)
              (Layer.neurons l)
      && shaped (length (Layer.neurons l)) rest
  end.

Definition well_formed (n : Network.t) : bool := shaped 0 (Network.layers n).

(** The neuron count of every layer. *)
Definition sizes (n : Network.t) : list nat :=
  map (fun l => length (Layer.neurons l)) (Network.layers n).

(** The weights of every neuron of every layer. *)
Definition weights_of (ls : list Layer.t) : list (list (list jsval)) :=
  map (fun l => map Neuron.weights (Layer.neurons l)) ls.
Definition weights (n : Network.t) : list (list (list jsval)) :=
  weights_of (Network.layers n).

(** The number of flat weights a topology calls for: the sum over the
    layers of [size(L) * size(L-1)], with [size(-1) = 0]. *)
Fixpoint expected_from (previousNeurons : nat) (counts : list nat) : nat :=
  match counts with
  | [] => 0
  | c :: rest => c * previousNeurons + expected_from c rest
  end.
Definition expected_weights (counts : list nat) : nat := expected_from 0 counts.

(** What [setSave] builds, in closed form: [count] neurons reading
    [previousNeurons] consecutive flat weights each, from index [i]. *)
Fixpoint slices (flat : list jsval) (i previousNeurons count : nat)
    : list (list jsval) :=
  match count with
  | O => []
  | S c =>
      map (array_get flat) (seq i previousNeurons)
        :: slices flat (i + previousNeurons) previousNeurons c
  end.

Fixpoint rebuilt (flat : list jsval) (counts : list nat)
    (previousNeurons index i : nat) : list Layer.t :=
  match counts with
  | [] => []
  | c :: rest =>
      {| Layer.id := index;
         Layer.neurons :=
           map (fun ws => {| Neuron.value := Num 0; Neuron.weights := ws |})
               (slices flat i previousNeurons c) |}
        :: rebuilt flat rest c (S index) (i + c * previousNeurons)
  end.

(** The array returned by [compute], whatever it does to the receiver. *)
Definition outputs (c : completion (Network.t * list jsval))
    : completion (list jsval) :=
  match c with
  | Normal (_, out) => Normal out
  | Abrupt e => Abrupt e
  end.

End Shape.

(** *** The history of an engine *)

Module History.

(** The Generations the engine holds, oldest first. *)
Definition history (b : BirdBrain.t) : list Generation.t :=
  Generations.generations (BirdBrain.generations b).

(** The call returned (it neither raised nor ran for ever). *)
Definition produced {A} (x : result A) : bool :=
  match x with
  | Ok _ _ => true
  | _ => false
  end.

(** The engine after the scores [reports] were told to it. *)
Definition scored (opts : Options) (b : BirdBrain.t)
    (reports : list (Network.t * jsval)) : BirdBrain.t :=
  fold_left (fun b p => BirdBrain.networkScore opts b (fst p) (snd p))
            reports b.

(** The engine driven as the game drives it, round after round: a call of
    [nextGeneration] (with [fuel] turns for its loop), then the scores of
    the round.  [None] when one of the calls produced no population. *)
Fixpoint rounds (self : BirdBrain.Global) (opts : Options)
    (plan : list (nat * list (Network.t * jsval))) (b : BirdBrain.t) (r : rng)
    : option (BirdBrain.t * rng) :=
  match plan with
  | [] => Some (b, r)
  | (fuel, reports) :: rest =>
      match BirdBrain.nextGeneration self opts fuel b r with
      | (b', Ok _ r') => rounds self opts rest (scored opts b' reports) r'
      | _ => None
      end
  end.

End History.

(** *** Counting random draws *)

Module Draws.

(** The random source after [k] more draws. *)
Definition advance (r : rng) (k : nat) : rng :=
  {| draws := draws r; cursor := cursor r + k |}.

(** Whenever [m] completes, it has drawn exactly [k] random numbers. *)
Definition exactly {A} (m : M A) (k : nat) : Prop :=
  forall r x r', m r = Ok x r' -> r' = advance r k.

End Draws.

(** *** Generations that can breed *)

Module Stage.

(** Every genome still has its network. *)
Definition complete (this : Generation.t) : bool :=
  forallb (fun g => match Genome.network g with Some _ => true | None => false end)
          (Generation.genomes this).

(** The serialized network [s] has the topology [counts] and [n] flat
    weights. *)
Definition shape (counts : list nat) (n : nat) (s : Save.t) : bool :=
  (if list_eq_dec Nat.eq_dec (Save.neurons s) counts then true else false)
  && (length (Save.weights s) =? n)%nat.

(** Every genome carries a network of that shape. *)
Definition uniform (counts : list nat) (n : nat) (this : Generation.t) : bool :=
  forallb (fun g => match Genome.network g with
                    | Some s => shape counts n s
                    | None => false
                    end)
          (Generation.genomes this).

(** The layer sizes [options.network] asks for. *)
Definition topology (opts : Options) : list nat :=
  let '(input, hidden, output) := network opts in input :: hidden ++ [output].

End Stage.

(** *** Objects given to [set] *)

Module Settings.

(** [b]'s keys over [a]'s: the object that [set] twice amounts to. *)
Definition overlay (a b : BirdBrain.Overrides) : BirdBrain.Overrides :=
  let over {A} (x y : option A) : option A :=
    match y with Some _ => y | None => x end in
  {| BirdBrain.set_activation :=
       over (BirdBrain.set_activation a) (BirdBrain.set_activation b);
     BirdBrain.set_network :=
       over (BirdBrain.set_network a) (BirdBrain.set_network b);
     BirdBrain.set_population :=
       over (BirdBrain.set_population a) (BirdBrain.set_population b);
     BirdBrain.set_elitism :=
       over (BirdBrain.set_elitism a) (BirdBrain.set_elitism b);
     BirdBrain.set_randomBehaviour :=
       over (BirdBrain.set_randomBehaviour a) (BirdBrain.set_randomBehaviour b);
     BirdBrain.set_mutationRate :=
       over (BirdBrain.set_mutationRate a) (BirdBrain.set_mutationRate b);
     BirdBrain.set_mutationRange :=
       over (BirdBrain.set_mutationRange a) (BirdBrain.set_mutationRange b);
     BirdBrain.set_historic :=
       over (BirdBrain.set_historic a) (BirdBrain.set_historic b);
     BirdBrain.set_lowHistoric :=
       over (BirdBrain.set_lowHistoric a) (BirdBrain.set_lowHistoric b);
     BirdBrain.set_scoreSort :=
       over (BirdBrain.set_scoreSort a) (BirdBrain.set_scoreSort b);
     BirdBrain.set_nbChild :=
       over (BirdBrain.set_nbChild a) (BirdBrain.set_nbChild b) |}.

(** The empty object [{}]. *)
Definition no_override : BirdBrain.Overrides :=
  {| BirdBrain.set_activation := None; BirdBrain.set_network := None;
     BirdBrain.set_population := None; BirdBrain.set_elitism := None;
     BirdBrain.set_randomBehaviour := None; BirdBrain.set_mutationRate := None;
     BirdBrain.set_mutationRange := None; BirdBrain.set_historic := None;
     BirdBrain.set_lowHistoric := None; BirdBrain.set_scoreSort := None;
     BirdBrain.set_nbChild := None |}.

End Settings.

(** *** JSON copies *)

Module Json.

(** A value a JSON copy reproduces: [null], or a number that is finite and
    not the negative zero. *)
Definition plain (v : jsval) : bool :=
  match v with
  | Num f =>
      match Prim2SF f with
      | S754_zero s => negb s
      | S754_finite _ _ _ => true
      | _ => false
      end
  | Null => true
  | _ => false
  end.

End Json.

(** *** A round of the game *)

Module Play.

(** The birds still alive, and those that died. *)
Definition living (birds : list Bird.t) : nat :=
  length (filter Bird.alive birds).
Definition dead (birds : list Bird.t) : nat :=
  length (filter (fun b => negb (Bird.alive b)) birds).

(** A network the engine built for the configured topology. *)
Definition fits (opts : Options) (n : Network.t) : bool :=
  Shape.well_formed n
  && (if list_eq_dec Nat.eq_dec (Shape.sizes n) (Stage.topology opts)
      then true else false).

(** The books of a round agree: there is one network per bird, [alives]
    counts the birds alive, every network fits the topology, and the
    current Generation of the engine holds one genome per dead bird, each
    with a network of the topology. *)
Definition consistent (opts : Options) (game : Game.t) (Brain : BirdBrain.t)
    : bool :=
  (length (Game.gen game) =? length (Game.birds game))%nat
  && (Game.alives game =? Z.of_nat (living (Game.birds game)))%Z
  && forallb (fits opts) (Game.gen game)
  && match History.history Brain with
     | [] => false
     | g :: gs =>
         let current := last gs g in
         Stage.uniform (Stage.topology opts)
           (Shape.expected_weights (Stage.topology opts)) current
         && (length (Generation.genomes current)
             =? dead (Game.birds game))%nat
     end.

(** The counters are in order: the score and the pipes passed are
    counted from 0 and do not exceed their records, and [interval] counts
    from 0 to below [spawnInterval]. *)
Definition recorded (game : Game.t) : bool :=
  (0 <=? Game.score game)%Z
  && (Game.score game <=? Game.maxScore game)%Z
  && (0 <=? Game.pipesPassed game)%Z
  && (Game.pipesPassed game <=? Game.maxPipesPassed game)%Z
  && (0 <=? Game.interval game)%Z
  && (Game.interval game <? Game.spawnInterval game)%Z.

(** The pipes come in pairs, a top pipe at an even index and its bottom
    pipe next to it: same abscissa, width and speed, and a hole of 120
    between them. *)
Inductive paired : list Pipe.t -> Prop :=
| paired_nil : paired []
| paired_cons top bottom rest :
    Pipe.x top = Pipe.x bottom ->
    Pipe.width top = Pipe.width bottom ->
    Pipe.speed top = Pipe.speed bottom ->
    Pipe.y bottom = (Pipe.height top + 120)%float ->
    paired rest ->
    paired (top :: bottom :: rest).

(** [n] ticks in a row, as the timers chain them: each call of [update]
    schedules the next. *)
Fixpoint ticks (self : BirdBrain.Global) (opts : Options) (fuel : nat)
    (n : nat) (w : Game.t * BirdBrain.t) : M (Game.t * BirdBrain.t) :=
  match n with
  | O => ret w
  | S n' =>
      w' <- Game.update self opts fuel (fst w) (snd w) ;;
      ticks self opts fuel n' w'
  end.

(** The page once its images are loaded: [game.start()] on the new game
    and the new engine, then the chain of ticks. *)
Definition play (self : BirdBrain.Global) (opts : Options) (fuel : nat)
    (canvas_width canvas_height : float) (n : nat)
    : M (Game.t * BirdBrain.t) :=
  w <- Game.start self opts fuel (Game.new canvas_width canvas_height)
         BirdBrain.new ;;
  ticks self opts fuel n w.

End Play.

(** *** Concrete data for the examples *)

Module Demo.

(** A random source whose every draw is [d]. *)
Definition steady (d : float) : rng := {| draws := fun _ => d; cursor := 0 |}.

(** A random source that replays [l] and then draws [d] for ever. *)
Definition replay (l : list float) (d : float) : rng :=
  {| draws := fun i => nth i l d; cursor := 0 |}.

(** The options of the scenario of the specification: topology
    [(2, [2], 1)], four networks, one elite, one random, descending
    scores.  The activation is the identity. *)
Definition options : Options :=
  {| activation := fun x => x;
     network := (2, [2], 1)%nat;
     population := 4;
     elitism := 0.25%float;
     randomBehaviour := 0.25%float;
     mutationRate := 0.1%float;
     mutationRange := 0.5%float;
     historic := 0;
     lowHistoric := false;
     scoreSort := (-1);
     nbChild := 1 |}.

(** A network of that topology, as [perceptronGeneration] builds it when
    every draw is 0.75 (every weight is 0.5). *)
Definition net : Network.t :=
  Eval vm_compute in
    match Network.perceptronGeneration Network.new 2 [2] 1 (steady 0.75) with
    | Ok n _ => n
    | _ => Network.new
    end.

Definition save : Save.t := Eval vm_compute in Network.getSave net.

(** The same topology with other weights. *)
Definition save' : Save.t :=
  {| Save.neurons := [2; 2; 1]%nat;
     Save.weights := [Num 1; Num 2; Num 3; Num 4; Num 5; Num 6] |}.

Definition genome (score : float) (s : Save.t) : Genome.t :=
  Genome.new (Num score) s.

(** A generation of four scored genomes. *)
Definition four : Generation.t :=
  {| Generation.genomes :=
       [genome 40 save; genome 20 save'; genome 10 save; genome 5 save'] |}.

(** Half of the population elite and half of it random: the two rates sum
    to 1. *)
Definition saturated : Options :=
  {| activation := fun x => x;
     network := (2, [2], 1)%nat;
     population := 4;
     elitism := 0.5%float;
     randomBehaviour := 0.5%float;
     mutationRate := 0.1%float;
     mutationRange := 0.5%float;
     historic := 0;
     lowHistoric := false;
     scoreSort := (-1);
     nbChild := 1 |}.

(** The scenario with [lowHistoric] set. *)
Definition low : Options :=
  {| activation := fun x => x;
     network := (2, [2], 1)%nat;
     population := 4;
     elitism := 0.25%float;
     randomBehaviour := 0.25%float;
     mutationRate := 0.1%float;
     mutationRange := 0.5%float;
     historic := 0;
     lowHistoric := true;
     scoreSort := (-1);
     nbChild := 1 |}.

(** The scenario with [mutationRate] 0. *)
Definition unmutated : Options :=
  {| activation := fun x => x;
     network := (2, [2], 1)%nat;
     population := 4;
     elitism := 0.25%float;
     randomBehaviour := 0.25%float;
     mutationRate := 0%float;
     mutationRange := 0.5%float;
     historic := 0;
     lowHistoric := false;
     scoreSort := (-1);
     nbChild := 1 |}.

(** An engine whose current generation is [four]. *)
Definition brain : BirdBrain.t :=
  {| BirdBrain.generations := {| Generations.generations := [four] |} |}.

(** Two rounds from a new engine: the first population is produced and
    its four networks are scored, then the next population is produced. *)
Definition plan : list (nat * list (Network.t * jsval)) :=
  [ (0%nat, [(net, Num 10); (net, Num 40); (net, Num 20); (net, Num 5)]);
    (3%nat, []) ].

Definition two_rounds : BirdBrain.t * rng :=
  Eval vm_compute in
    match History.rounds BirdBrain.window options plan BirdBrain.new
            (steady 0.75) with
    | Some x => x
    | None => (BirdBrain.new, steady 0.75)
    end.

(** The next population bred from [four], and the random source after. *)
Definition bred : list Save.t * rng :=
  Eval vm_compute in
    match Generation.generateNextGeneration options 3 four (steady 0.75) with
    | Ok nexts r => (nexts, r)
    | _ => ([], steady 0.75)
    end.

(** A generation that holds a single genome. *)
Definition single : Generation.t :=
  {| Generation.genomes := [genome 40 save] |}.

(** A save whose flat weight list is too long for its topology: two
    layers of one neuron call for a single weight. *)
Definition long_save : Save.t :=
  {| Save.neurons := [1; 1]%nat;
     Save.weights := [Num 1; Num 2; Num 3] |}.

(** The engine [brain] after its next call of [nextGeneration], the
    networks the call returns and the random source after. *)
Definition returning : BirdBrain.t * list Network.t * rng :=
  Eval vm_compute in
    match BirdBrain.nextGeneration BirdBrain.window options 3 brain
            (steady 0.75) with
    | (b, Ok nns r) => (b, nns, r)
    | _ => (brain, [], steady 0.75)
    end.

(** A game of the scenario on a canvas of 500 by 512: after [start], after
    one tick, after two. *)
Definition opening : Game.t * BirdBrain.t * rng :=
  Eval vm_compute in
    match Game.start BirdBrain.window options 10 (Game.new 500 512)
            BirdBrain.new (steady 0.75) with
    | Ok w r => (w, r)
    | _ => ((Game.new 500 512, BirdBrain.new), steady 0.75)
    end.

Definition tick (w : Game.t * BirdBrain.t * rng) : Game.t * BirdBrain.t * rng :=
  match Game.update BirdBrain.window options 10 (fst (fst w)) (snd (fst w))
          (snd w) with
  | Ok w' r => (w', r)
  | _ => w
  end.

Definition first_tick : Game.t * BirdBrain.t * rng :=
  Eval vm_compute in tick opening.

Definition second_tick : Game.t * BirdBrain.t * rng :=
  Eval vm_compute in tick first_tick.

(** The same game on a canvas only 200 high: every bird starts below the
    floor, so the four of them die in the first tick and the round is
    restarted in the middle of it. *)
Definition low_opening : Game.t * BirdBrain.t * rng :=
  Eval vm_compute in
    match Game.start BirdBrain.window options 10 (Game.new 500 200)
            BirdBrain.new (steady 0.75) with
    | Ok w r => (w, r)
    | _ => ((Game.new 500 200, BirdBrain.new), steady 0.75)
    end.

Definition low_tick : Game.t * BirdBrain.t * rng :=
  Eval vm_compute in tick low_opening.

(** The network [net] after [compute] on the inputs [1, 1], and the array
    it returns. *)
Definition flapping : Network.t * list jsval :=
  Eval vm_compute in
    match Network.compute options net [Num 1; Num 1] with
    | Normal x => x
    | Abrupt _ => (net, [])
    end.

End Demo.

(** * Properties *)

(** ** Facts on the order of numbers *)

Module FloatOrderFacts.
Import FloatOrder.

Lemma compare_cont_Eq (p q : positive) :
  PosDef.Pos.compare_cont Eq p q = (Z.pos p ?= Z.pos q)%Z.
Proof. reflexivity. Qed.

Lemma SFcompare_key (x y : spec_float) :
  x <> S754_nan -> y <> S754_nan ->
  SFcompare x y = Some (lex3 (key x) (key y)).
Proof.
  intros Hx Hy.
  destruct x as [sx|sx| |sx mx ex], y as [sy|sy| |sy my ey];
    try congruence; cbn [SFcompare key lex3];
    try (destruct sx); try (destruct sy); try reflexivity.
  (* two negative finite numbers: exponents and mantissas compare in
     the opposite direction *)
  cbn. rewrite Z.compare_opp, (Z.compare_antisym ex ey).
  destruct (ex ?= ey)%Z; reflexivity.
Qed.

Ltac lex :=
  unfold lex3 in *;
  repeat match goal with
         | |- context [(?a ?= ?b)%Z] =>
             destruct (Z.compare_spec a b); cbn in *
         | H : context [(?a ?= ?b)%Z] |- _ =>
             destruct (Z.compare_spec a b); cbn in *
         end;
  try congruence; try lia.

Lemma lex3_trans_le (a b c : Z * Z * Z) :
  lex3 a b <> Gt -> lex3 b c <> Gt -> lex3 a c <> Gt.
Proof.
  destruct a as [[a1 a2] a3], b as [[b1 b2] b3], c as [[c1 c2] c3].
  intros H1 H2; lex.
Qed.

Lemma lex3_lt_le (a b c : Z * Z * Z) :
  lex3 a b = Lt -> lex3 b c <> Gt -> lex3 a c = Lt.
Proof.
  destruct a as [[a1 a2] a3], b as [[b1 b2] b3], c as [[c1 c2] c3].
  intros H1 H2; lex.
Qed.

Lemma lex3_le_lt (a b c : Z * Z * Z) :
  lex3 a b <> Gt -> lex3 b c = Lt -> lex3 a c = Lt.
Proof.
  destruct a as [[a1 a2] a3], b as [[b1 b2] b3], c as [[c1 c2] c3].
  intros H1 H2; lex.
Qed.

Lemma lex3_antisym (a b : Z * Z * Z) : lex3 b a = CompOpp (lex3 a b).
Proof. destruct a as [[a1 a2] a3], b as [[b1 b2] b3]. lex. Qed.

Lemma ordered_number v : ordered v -> Prim2SF (to_number v) <> S754_nan.
Proof. intros (f & -> & H). exact H. Qed.

Lemma le_key a b :
  ordered a -> ordered b ->
  (le a b <-> lex3 (key (Prim2SF (to_number a))) (key (Prim2SF (to_number b))) <> Gt).
Proof.
  intros Ha%ordered_number Hb%ordered_number. unfold le.
  rewrite FloatAxioms.leb_spec. unfold SFleb. rewrite (SFcompare_key Ha Hb).
  destruct (lex3 _ _); split; congruence.
Qed.

Lemma lt_key a b :
  ordered a -> ordered b ->
  (lt a b <-> lex3 (key (Prim2SF (to_number a))) (key (Prim2SF (to_number b))) = Lt).
Proof.
  intros Ha%ordered_number Hb%ordered_number. unfold lt.
  rewrite FloatAxioms.ltb_spec. unfold SFltb. rewrite (SFcompare_key Ha Hb).
  destruct (lex3 _ _); split; congruence.
Qed.

Lemma le_trans a b c :
  ordered a -> ordered b -> ordered c -> le a b -> le b c -> le a c.
Proof.
  intros Ha Hb Hc. rewrite !le_key by assumption. apply lex3_trans_le.
Qed.

Lemma lt_le_trans a b c :
  ordered a -> ordered b -> ordered c -> lt a b -> le b c -> lt a c.
Proof.
  intros Ha Hb Hc. rewrite le_key, !lt_key by assumption. apply lex3_lt_le.
Qed.

Lemma le_lt_trans a b c :
  ordered a -> ordered b -> ordered c -> le a b -> lt b c -> lt a c.
Proof.
  intros Ha Hb Hc. rewrite le_key, !lt_key by assumption. apply lex3_le_lt.
Qed.

Lemma lex3_refl (a : Z * Z * Z) : lex3 a a = Eq.
Proof. destruct a as [[a1 a2] a3]. unfold lex3. now rewrite !Z.compare_refl. Qed.

Lemma le_refl a : ordered a -> le a a.
Proof.
  intros Ha. rewrite le_key by assumption. rewrite lex3_refl. discriminate.
Qed.

Lemma lt_le a b : ordered a -> ordered b -> lt a b -> le a b.
Proof.
  intros Ha Hb. rewrite le_key, lt_key by assumption. congruence.
Qed.

(** Where the strict test fails, the converse inequality holds. *)
Lemma not_lt_le a b : ordered a -> ordered b -> ~ lt a b -> le b a.
Proof.
  intros Ha Hb. rewrite le_key, lt_key by assumption.
  rewrite (lex3_antisym (key (Prim2SF (to_number a)))).
  destruct (lex3 _ _); cbn; congruence.
Qed.

Lemma lt_not_le a b : ordered a -> ordered b -> lt a b -> ~ le b a.
Proof.
  intros Ha Hb. rewrite le_key, lt_key by assumption.
  rewrite (lex3_antisym (key (Prim2SF (to_number a)))).
  intros ->. cbn. congruence.
Qed.

Lemma is_nan_false f : PrimFloat.is_nan f = false -> Prim2SF f <> S754_nan.
Proof.
  unfold PrimFloat.is_nan. rewrite FloatAxioms.eqb_spec. intros H E.
  rewrite E in H. discriminate H.
Qed.

Lemma zero_ordered : ordered (Num 0).
Proof. exists 0%float; split; [reflexivity | vm_compute; discriminate]. Qed.

Lemma or_zero_ordered v : ordered (or_zero v).
Proof.
  destruct v as [f| | |]; try exact zero_ordered.
  unfold or_zero.
  destruct (PrimFloat.is_nan f) eqn:E; [exact zero_ordered|].
  destruct (PrimFloat.is_zero f); [exact zero_ordered|].
  exists f; split; [reflexivity | now apply is_nan_false].
Qed.

End FloatOrderFacts.

(** ** addGenome keeps the generation ranked *)

Module AddGenomeFacts.
Import FloatOrder FloatOrderFacts Ranking.

Definition scored (g : Genome.t) : Prop := ordered (Genome.score g).

Lemma new_scored score save : scored (Genome.new score save).
Proof. apply or_zero_ordered. Qed.

Section Mode.
Variable opts : Options.

Lemma no_worse_trans a b c :
  scored a -> scored b -> scored c ->
  no_worse opts a b -> no_worse opts b c -> no_worse opts a c.
Proof.
  unfold no_worse, scored. intros Ha Hb Hc.
  destruct (scoreSort opts <? 0)%Z; intros H1 H2;
    eauto using le_trans.
Qed.

Lemma no_worse_refl a : scored a -> no_worse opts a a.
Proof.
  unfold no_worse, scored. intros Ha.
  destruct (scoreSort opts <? 0)%Z; now apply le_refl.
Qed.

Lemma worse_no_worse x g : scored x -> scored g -> worse opts x g -> no_worse opts g x.
Proof.
  unfold worse, no_worse, scored. intros Hx Hg.
  destruct (scoreSort opts <? 0)%Z; now apply lt_le.
Qed.

Lemma worse_below h y g :
  scored h -> scored y -> scored g ->
  worse opts h g -> no_worse opts h y -> worse opts y g.
Proof.
  unfold worse, no_worse, scored. intros Hh Hy Hg.
  destruct (scoreSort opts <? 0)%Z; intros H1 H2.
  - apply le_lt_trans with (Genome.score h); trivial.
  - apply lt_le_trans with (Genome.score h); trivial.
Qed.

Lemma breaks_true g x :
  Generation.breaks opts g x = true -> worse opts x g.
Proof.
  unfold Generation.breaks, worse, JS.gt, JS.lt, lt.
  destruct (scoreSort opts <? 0)%Z; trivial.
Qed.

Lemma breaks_false g x :
  scored g -> scored x ->
  Generation.breaks opts g x = false -> no_worse opts x g.
Proof.
  unfold Generation.breaks, no_worse, JS.gt, JS.lt, scored.
  intros Hg Hx.
  destruct (scoreSort opts <? 0)%Z; intros H;
    apply not_lt_le; trivial; unfold lt; congruence.
Qed.

Lemma scan_shift g gs i :
  Generation.scan opts g gs i = (i + Generation.scan opts g gs 0)%nat.
Proof.
  revert i. induction gs as [|x gs IH]; intros i; cbn.
  - lia.
  - destruct (Generation.breaks opts g x); [lia|].
    rewrite (IH (S i)), (IH 1%nat). lia.
Qed.

(** Where the scan stops: everything before was not worse than the new
    genome, and the scan stopped at a genome that is. *)
Lemma scan_split g gs :
  exists before after,
    gs = before ++ after
    /\ Generation.scan opts g gs 0 = length before
    /\ Forall (fun x => Generation.breaks opts g x = false) before
    /\ match after with
       | [] => True
       | h :: _ => Generation.breaks opts g h = true
       end.
Proof.
  induction gs as [|x gs (before & after & E & Hn & Hb & Ha)]; cbn.
  - exists [], []. repeat split; constructor.
  - destruct (Generation.breaks opts g x) eqn:Hx.
    + exists [], (x :: gs). repeat split; trivial.
    + exists (x :: before), after. rewrite scan_shift, Hn, E.
      repeat split; trivial. constructor; trivial.
Qed.

Lemma splice_in_split {A} (before after : list A) (x : A) :
  Generation.splice_in (before ++ after) (length before) x
  = before ++ x :: after.
Proof.
  unfold Generation.splice_in.
  rewrite firstn_app, skipn_app, firstn_all, skipn_all, Nat.sub_diag.
  cbn. now rewrite app_nil_r.
Qed.

Lemma sorted_insert (R : Genome.t -> Genome.t -> Prop) before x after :
  StronglySorted R (before ++ after) ->
  Forall (fun y => R y x) before ->
  Forall (R x) after ->
  StronglySorted R (before ++ x :: after).
Proof.
  induction before as [|y before IH]; cbn; intros Hs Hb Ha.
  - now constructor.
  - inversion Hs as [|? ? Hs' Hy]; subst.
    inversion Hb as [|? ? Hyx Hb']; subst.
    constructor; [now apply IH|].
    apply Forall_app in Hy as [Hy1 Hy2].
    apply Forall_app; split; trivial. now constructor.
Qed.

Lemma sorted_tail (R : Genome.t -> Genome.t -> Prop) before after :
  StronglySorted R (before ++ after) -> StronglySorted R after.
Proof.
  induction before as [|y before IH]; cbn; trivial.
  intros Hs. inversion Hs; subst. now apply IH.
Qed.

(** The invariant of a generation. *)
Definition ranked (gen : Generation.t) : Prop :=
  Forall scored (Generation.genomes gen)
  /\ StronglySorted (no_worse opts) (Generation.genomes gen).

(** One insertion: where the genome lands. *)
Lemma addGenome_lands gen g :
  ranked gen -> scored g ->
  exists before after,
    Generation.genomes gen = before ++ after
    /\ Generation.genomes (Generation.addGenome opts gen g)
       = before ++ g :: after
    /\ Forall (fun x => no_worse opts x g) before
    /\ Forall (fun x => worse opts x g) after.
Proof.
  intros [Hsc Hso] Hg.
  destruct (scan_split g (Generation.genomes gen))
    as (before & after & E & Hn & Hb & Ha).
  exists before, after. unfold Generation.addGenome.
  rewrite Hn. cbn. rewrite E, splice_in_split.
  rewrite E in Hsc, Hso. apply Forall_app in Hsc as [Hsb Hsa].
  repeat split; trivial.
  - rewrite Forall_forall in *. intros x Hx.
    apply breaks_false; auto.
  - destruct after as [|h after]; [constructor|].
    apply breaks_true in Ha.
    apply sorted_tail in Hso.
    inversion Hso as [|? ? _ Hh]; subst.
    inversion Hsa as [|? ? Hsh Hsa']; subst.
    constructor; trivial.
    rewrite Forall_forall in *. intros y Hy.
    apply worse_below with h; auto.
Qed.

Lemma addGenome_ranked gen g :
  ranked gen -> scored g -> ranked (Generation.addGenome opts gen g).
Proof.
  intros Hr Hg.
  destruct (addGenome_lands Hr Hg) as (before & after & E & E' & Hb & Ha).
  destruct Hr as [Hsc Hso]. rewrite E in Hsc, Hso.
  apply Forall_app in Hsc as [Hsb Hsa].
  split; rewrite E'.
  - apply Forall_app; split; trivial. now constructor.
  - apply sorted_insert; trivial.
    rewrite Forall_forall in *. intros y Hy.
    apply worse_no_worse; auto.
Qed.

Lemma fold_ranked reports gen :
  ranked gen ->
  ranked (fold_left (fun gen p =>
            Generation.addGenome opts gen (Genome.new (fst p) (snd p)))
          reports gen).
Proof.
  revert gen. induction reports as [|p reports IH]; intros gen Hr; cbn.
  - exact Hr.
  - apply IH, addGenome_ranked; trivial. apply new_scored.
Qed.

Lemma after_reports_ranked reports : ranked (after_reports opts reports).
Proof. apply fold_ranked. split; constructor. Qed.

(** The genome at index 0 is a best one. *)
Lemma ranked_best gen best x :
  ranked gen ->
  nth_error (Generation.genomes gen) 0 = Some best ->
  In x (Generation.genomes gen) ->
  no_worse opts best x.
Proof.
  intros [Hsc Hso] Hb Hx.
  destruct (Generation.genomes gen) as [|b gs]; [discriminate|].
  injection Hb as ->.
  inversion Hso as [|? ? _ Hall]; subst.
  inversion Hsc as [|? ? Hsb _]; subst.
  destruct Hx as [->|Hx].
  - now apply no_worse_refl.
  - rewrite Forall_forall in Hall. now apply Hall.
Qed.

End Mode.

End AddGenomeFacts.

(** ** Loops in the monad *)

Module MonadFacts.

(** A loop whose body always completes and keeps an invariant of the loop
    state and of the random source completes and keeps it. *)
Lemma foldM_invariant_rng {A S} (P : S -> rng -> Prop) (body : S -> A -> M S)
    (l : list A) :
  (forall s x r, In x l -> P s r ->
     exists s' r', body s x r = Ok s' r' /\ P s' r') ->
  forall s r, P s r -> exists s' r', foldM body l s r = Ok s' r' /\ P s' r'.
Proof.
  induction l as [|x l IH]; intros Hbody s r Hs; cbn.
  - now exists s, r.
  - destruct (Hbody s x r (or_introl eq_refl) Hs) as (s1 & r1 & E & H1).
    unfold bind. rewrite E. apply IH; trivial.
    intros s0 y r0 Hy. apply Hbody. now right.
Qed.

Lemma foldM_invariant {A S} (P : S -> Prop) (body : S -> A -> M S)
    (l : list A) :
  (forall s x r, In x l -> P s ->
     exists s' r', body s x r = Ok s' r' /\ P s') ->
  forall s r, P s -> exists s' r', foldM body l s r = Ok s' r' /\ P s'.
Proof.
  intros Hbody s r Hs.
  now apply (foldM_invariant_rng (fun s _ => P s)).
Qed.

End MonadFacts.

(** ** Arrays *)

Module ArrayFacts.

Lemma array_set_length a i v :
  (i < length a)%nat -> length (array_set a i v) = length a.
Proof.
  revert i. induction a as [|x a IH]; intros [|i] H; cbn in *; try lia.
  rewrite IH; lia.
Qed.

Lemma keys_from_bound a i k :
  In k (Generation.keys_from a i) -> (i <= k < i + length a)%nat.
Proof.
  revert i. induction a as [|x a IH]; intros i; cbn; [tauto|].
  destruct x; cbn; intros H;
    try (destruct H as [<-|H]; [lia|]); apply IH in H; lia.
Qed.

Lemma array_get_not_hole a i : array_get a i <> Hole.
Proof.
  unfold array_get. destruct (nth_error a i) as [[]|]; discriminate.
Qed.

Lemma array_get_set_same a i v :
  v <> Hole -> array_get (array_set a i v) i = v.
Proof.
  intros Hv. unfold array_get. revert i.
  induction a as [|x a IH]; intros i.
  - induction i as [|i IHi]; cbn; [now destruct v | exact IHi].
  - destruct i as [|i]; cbn; [now destruct v | apply IH].
Qed.

Lemma array_get_set_other a i j v :
  i <> j -> array_get (array_set a i v) j = array_get a j.
Proof.
  unfold array_get. revert i j. induction a as [|x a IH]; intros i j Hij.
  - revert j Hij. induction i as [|i IHi]; intros [|j] Hij; cbn;
      try congruence; trivial.
    + now destruct j.
    + rewrite IHi by congruence. now destruct j.
  - destruct i as [|i], j as [|j]; cbn; try congruence; trivial.
    apply IH. congruence.
Qed.

Lemma keys_from_NoDup a i : NoDup (Generation.keys_from a i).
Proof.
  revert i. induction a as [|x a IH]; intros i; cbn; [constructor|].
  destruct x; try apply IH;
    (constructor; [intros H%keys_from_bound; lia | apply IH]).
Qed.

Lemma keys_bound a k : In k (Generation.keys a) -> (k < length a)%nat.
Proof. intros H%keys_from_bound. lia. Qed.

End ArrayFacts.

(** ** breed *)

Module BreedFacts.
Import MonadFacts ArrayFacts.

Lemma crossover_step_length w2 w i r :
  (i < length w)%nat ->
  exists w' r', Generation.crossover_step w2 w i r = Ok w' r'
                /\ length w' = length w.
Proof.
  intros Hi. unfold Generation.crossover_step, bind, Math_random, ret.
  destruct (_ <=? _)%float; eexists _, _; split; try reflexivity.
  now apply array_set_length.
Qed.

Lemma mutation_step_length opts w i r :
  (i < length w)%nat ->
  exists w' r', Generation.mutation_step opts w i r = Ok w' r'
                /\ length w' = length w.
Proof.
  intros Hi. unfold Generation.mutation_step, bind, Math_random, ret.
  destruct (_ <=? _)%float; eexists _, _; split; try reflexivity.
  now apply array_set_length.
Qed.

(** One child of two parents whose weight arrays have the same length. *)
Lemma breed_one_shape opts g1 g2 n1 n2 r :
  Genome.network g1 = Some n1 ->
  Genome.network g2 = Some n2 ->
  length (Save.weights n1) = length (Save.weights n2) ->
  exists c r',
    Generation.breed_one opts g1 g2 r = Ok c r'
    /\ Save.neurons (Generation.child_network c) = Save.neurons n1
    /\ length (Save.weights (Generation.child_network c))
       = length (Save.weights n1).
Proof.
  intros E1 E2 Hlen. unfold Generation.breed_one. rewrite E1, E2.
  set (w0 := Save.weights (Save.json_copy n1)).
  assert (H0 : length w0 = length (Save.weights n1))
    by (unfold w0; cbn; apply length_map).
  destruct (foldM_invariant (fun w => length w = length (Save.weights n1))
              (Generation.crossover_step (Save.weights n2))
              (Generation.keys (Save.weights n2))) with (s := w0) (r := r)
    as (w & r1 & Ew & Hw); trivial.
  { intros s x r0 Hx Hs. apply keys_bound in Hx.
    destruct (@crossover_step_length (Save.weights n2) s x r0) as (w' & r' & E & L);
      [lia|]. exists w', r'. split; [exact E | congruence]. }
  destruct (foldM_invariant (fun w' => length w' = length w)
              (Generation.mutation_step opts) (Generation.keys w))
    with (s := w) (r := r1) as (w' & r2 & Ew' & Hw'); trivial.
  { intros s x r0 Hx Hs. apply keys_bound in Hx.
    destruct (@mutation_step_length opts s x r0) as (w' & r' & E & L);
      [lia|]. exists w', r'. split; [exact E | congruence]. }
  unfold bind. fold w0. rewrite Ew, Ew'. cbn.
  eexists _, _. split; [reflexivity|]. cbn. split; [reflexivity | congruence].
Qed.

(** *** Children that are not mutated *)

(** [w] holds, at every index below [n], the copied weight of parent A or
    the weight of parent B. *)
Definition crossed (n : nat) (a b w : list jsval) : Prop :=
  length w = n
  /\ forall j, (j < n)%nat ->
       array_get w j = array_get (map json_val a) j
       \/ array_get w j = array_get b j.

Lemma crossover_step_crossed n a b w k r :
  (k < n)%nat -> crossed n a b w ->
  exists w' r', Generation.crossover_step b w k r = Ok w' r'
                /\ crossed n a b w' /\ draws r' = draws r.
Proof.
  intros Hk [L C]. unfold Generation.crossover_step, bind, Math_random, ret.
  destruct (_ <=? _)%float; eexists _, _; (split; [reflexivity|]);
    (split; [|reflexivity]); [|now split].
  split; [rewrite array_set_length; lia|].
  intros j Hj. destruct (Nat.eq_dec k j) as [<-|N].
  - right. apply array_get_set_same, array_get_not_hole.
  - rewrite array_get_set_other by trivial. now apply C.
Qed.

(** A mutation draw above the rate leaves the weights alone. *)
Lemma mutation_step_idle opts w k r :
  (draws r (cursor r) <=? mutationRate opts)%float = false ->
  Generation.mutation_step opts w k r
  = Ok w {| draws := draws r; cursor := S (cursor r) |}.
Proof.
  intros H. unfold Generation.mutation_step, bind, Math_random, ret.
  now rewrite H.
Qed.

(** When no draw of the random source is at or below [mutationRate], every
    weight of a child is the copy of parent A's weight or parent B's
    weight. *)
Lemma breed_one_crossed opts g1 g2 n1 n2 r :
  Genome.network g1 = Some n1 ->
  Genome.network g2 = Some n2 ->
  length (Save.weights n1) = length (Save.weights n2) ->
  (forall i, (draws r i <=? mutationRate opts)%float = false) ->
  exists c r',
    Generation.breed_one opts g1 g2 r = Ok c r'
    /\ crossed (length (Save.weights n1)) (Save.weights n1) (Save.weights n2)
               (Save.weights (Generation.child_network c)).
Proof.
  intros E1 E2 Hlen Hd. unfold Generation.breed_one. rewrite E1, E2.
  set (n := length (Save.weights n1)).
  destruct (foldM_invariant_rng
              (fun w r' => crossed n (Save.weights n1) (Save.weights n2) w
                           /\ draws r' = draws r)
              (Generation.crossover_step (Save.weights n2))
              (Generation.keys (Save.weights n2)))
    with (s := Save.weights (Save.json_copy n1)) (r := r)
    as (w & r1 & Ew & Cw & Dw).
  { intros s x r0 Hx [Cs Ds]. apply keys_bound in Hx.
    destruct (@crossover_step_crossed n (Save.weights n1) (Save.weights n2) s x r0)
      as (w' & r' & E & C' & D'); trivial; [unfold n; lia|].
    exists w', r'. repeat split; trivial; try apply C'. congruence. }
  { split; [|reflexivity]. split; [apply length_map|]. intros j _. now left. }
  destruct (foldM_invariant_rng
              (fun w' r' => w' = w /\ draws r' = draws r)
              (Generation.mutation_step opts) (Generation.keys w))
    with (s := w) (r := r1) as (w' & r2 & Ew' & -> & _).
  { intros s x r0 _ [-> Ds]. eexists _, _. split.
    - apply mutation_step_idle. rewrite Ds. apply Hd.
    - now split. }
  { now split. }
  unfold bind. rewrite Ew, Ew'. eexists _, _. split; [reflexivity|]. exact Cw.
Qed.

(** *** Every weight of a child *)

(** The value [v] as it stands, or perturbed by one mutation drawn from the
    random source [r]. *)
Definition perturbed (opts : Options) (r : rng) (v x : jsval) : Prop :=
  x = v
  \/ exists i,
       x = Num (to_number v
                + (draws r i * mutationRange opts * 2 - mutationRange opts))%float.

Lemma mutation_keys opts r0 w0 ks :
  forall w r,
    NoDup ks ->
    draws r = draws r0 ->
    (forall k, In k ks -> array_get w k = array_get w0 k) ->
    (forall j, perturbed opts r0 (array_get w0 j) (array_get w j)) ->
    exists w' r',
      foldM (Generation.mutation_step opts) ks w r = Ok w' r'
      /\ forall j, perturbed opts r0 (array_get w0 j) (array_get w' j).
Proof.
  induction ks as [|k ks IH]; intros w r Hnd Hr Hks Hw; cbn.
  - now exists w, r.
  - inversion Hnd as [|? ? Hk Hnd']; subst.
    unfold bind, Generation.mutation_step at 1, Math_random, ret, bind.
    destruct (_ <=? _)%float.
    + apply IH; trivial.
      * intros k' Hk'. rewrite array_get_set_other by (intros ->; contradiction).
        apply Hks. now right.
      * intros j. destruct (Nat.eq_dec k j) as [<-|N].
        -- rewrite array_get_set_same by discriminate.
           right. exists (S (cursor r)). cbn.
           rewrite (Hks k (or_introl eq_refl)), Hr. reflexivity.
        -- rewrite array_get_set_other by trivial. apply Hw.
    + apply IH; trivial. intros k' Hk'. apply Hks. now right.
Qed.

(** Every weight of a child is the copy of parent A's weight or parent B's
    weight at that index, as it stands or perturbed by
    [Math.random() * mutationRange * 2 - mutationRange]. *)
Lemma breed_one_weights opts g1 g2 n1 n2 r :
  Genome.network g1 = Some n1 ->
  Genome.network g2 = Some n2 ->
  length (Save.weights n1) = length (Save.weights n2) ->
  exists c r',
    Generation.breed_one opts g1 g2 r = Ok c r'
    /\ forall j, (j < length (Save.weights n1))%nat ->
         exists v,
           (v = array_get (map json_val (Save.weights n1)) j
            \/ v = array_get (Save.weights n2) j)
           /\ perturbed opts r v
                (array_get (Save.weights (Generation.child_network c)) j).
Proof.
  intros E1 E2 Hlen. unfold Generation.breed_one. rewrite E1, E2.
  set (n := length (Save.weights n1)).
  destruct (foldM_invariant_rng
              (fun w r' => crossed n (Save.weights n1) (Save.weights n2) w
                           /\ draws r' = draws r)
              (Generation.crossover_step (Save.weights n2))
              (Generation.keys (Save.weights n2)))
    with (s := Save.weights (Save.json_copy n1)) (r := r)
    as (w & r1 & Ew & Cw & Dw).
  { intros s x r0 Hx [Cs Ds]. apply keys_bound in Hx.
    destruct (@crossover_step_crossed n (Save.weights n1) (Save.weights n2) s x r0)
      as (w' & r' & E & C' & D'); trivial; [unfold n; lia|].
    exists w', r'. repeat split; trivial; try apply C'. congruence. }
  { split; [|reflexivity]. split; [apply length_map|]. intros j _. now left. }
  destruct (@mutation_keys opts r w (Generation.keys w) w r1)
    as (w' & r2 & Ew' & Hw'); trivial.
  { apply keys_from_NoDup. }
  { intros j. now left. }
  unfold bind. rewrite Ew, Ew'. eexists _, _. split; [reflexivity|].
  intros j Hj. cbn. exists (array_get w j). split; [|apply Hw'].
  destruct Cw as [_ Cw]. now apply Cw.
Qed.

Lemma breed_children_shape opts g1 g2 n1 n2 nb r :
  Genome.network g1 = Some n1 ->
  Genome.network g2 = Some n2 ->
  length (Save.weights n1) = length (Save.weights n2) ->
  exists children r',
    Generation.breed_children opts g1 g2 nb r = Ok children r'
    /\ length children = nb
    /\ Forall (fun c =>
         Save.neurons (Generation.child_network c) = Save.neurons n1
         /\ length (Save.weights (Generation.child_network c))
            = length (Save.weights n1)) children.
Proof.
  intros E1 E2 Hlen. revert r. induction nb as [|nb IH]; intros r; cbn.
  - exists [], r. repeat split. constructor.
  - destruct (breed_one_shape opts g1 g2 r E1 E2 Hlen) as (c & r1 & Ec & Hc).
    destruct (IH r1) as (cs & r2 & Ecs & Hn & Hcs).
    unfold bind. rewrite Ec, Ecs. exists (c :: cs), r2.
    repeat split; cbn; [congruence | now constructor].
Qed.

End BreedFacts.

(** ** Building and rebuilding networks *)

Module NetworkFacts.
Import MonadFacts Shape.

Definition fresh (prev : nat) (n : Neuron.t) : Prop :=
  Neuron.value n = Num 0
  /\ length (Neuron.weights n) = prev
  /\ dense (Neuron.weights n) = true.

Lemma random_weights_spec nb r :
  exists ws r', Neuron.random_weights nb r = Ok ws r'
                /\ length ws = nb /\ dense ws = true.
Proof.
  revert r. induction nb as [|nb IH]; intros r; cbn.
  - now exists [], r.
  - unfold bind, randomClamped, Math_random, ret; cbn.
    destruct (IH {| draws := draws r; cursor := S (cursor r) |})
      as (ws & r' & E & L & D).
    rewrite E. eexists _, _. split; [reflexivity|].
    split; [cbn; congruence | exact D].
Qed.

Lemma random_neurons_spec count prev r :
  exists ns r', Layer.random_neurons count prev r = Ok ns r'
                /\ length ns = count /\ Forall (fresh prev) ns.
Proof.
  revert r. induction count as [|count IH]; intros r; cbn.
  - exists [], r. repeat split. constructor.
  - unfold bind, Neuron.populate.
    destruct (random_weights_spec prev r) as (ws & r1 & E & L & D).
    unfold bind. rewrite E. cbn.
    destruct (IH r1) as (ns & r2 & E2 & L2 & F2).
    rewrite E2. eexists _, _. split; [reflexivity|]. cbn. split; [congruence|].
    constructor; trivial. now repeat split.
Qed.

Lemma populate_spec index count prev r :
  exists ns r',
    Layer.populate (Layer.new index) count prev r
    = Ok {| Layer.id := index; Layer.neurons := ns |} r'
    /\ length ns = count /\ Forall (fresh prev) ns.
Proof.
  unfold Layer.populate, bind.
  destruct (random_neurons_spec count prev r) as (ns & r' & E & L & F).
  rewrite E. now exists ns, r'.
Qed.

Lemma assign_weights_dense ws flat i :
  dense ws = true ->
  Network.assign_weights ws flat i
  = (map (array_get flat) (seq i (length ws)), (i + length ws)%nat).
Proof.
  revert i. induction ws as [|w ws IH]; intros i D; cbn in *.
  - f_equal. lia.
  - apply andb_prop in D as [Dw D].
    destruct w; try discriminate; rewrite (IH (S i) D); f_equal; lia.
Qed.

Lemma assign_neurons_spec ns flat i prev :
  Forall (fresh prev) ns ->
  Network.assign_neurons ns flat i
  = (map (fun ws => {| Neuron.value := Num 0; Neuron.weights := ws |})
         (slices flat i prev (length ns)),
     (i + length ns * prev)%nat).
Proof.
  intros F. revert i. induction F as [|n ns (V & L & D) F IH]; intros i; cbn.
  - f_equal. lia.
  - rewrite (@assign_weights_dense (Neuron.weights n) flat i D), L, IH, V.
    f_equal. lia.
Qed.

(** [setSave] never raises: it builds [rebuilt]. *)
Lemma setSave_steps flat counts acc prev index i r :
  exists r' prev' index' i',
    foldM (Network.setSave_step flat) counts (acc, prev, index, i) r
    = Ok (acc ++ rebuilt flat counts prev index i, prev', index', i') r'.
Proof.
  revert acc prev index i r.
  induction counts as [|c counts IH]; intros acc prev index i r; cbn.
  - rewrite app_nil_r. now exists r, prev, index, i.
  - unfold bind.
    destruct (populate_spec index c prev r) as (ns & r1 & E & L & F).
    rewrite E. cbn. rewrite (@assign_neurons_spec ns flat i prev F), L. cbn.
    destruct (IH (acc ++
                [{| Layer.id := index;
                    Layer.neurons :=
                      map (fun ws => {| Neuron.value := Num 0;
                                        Neuron.weights := ws |})
                          (slices flat i prev c) |}])
                c (S index) (i + c * prev)%nat r1)
      as (r' & prev' & index' & i' & E').
    rewrite E', <- app_assoc. cbn. now exists r', prev', index', i'.
Qed.

Lemma setSave_spec this save r :
  exists r',
    Network.setSave this save r
    = Ok {| Network.layers :=
              rebuilt (Save.weights save) (Save.neurons save) 0 0 0 |} r'.
Proof.
  unfold Network.setSave, bind.
  destruct (setSave_steps (Save.weights save) (Save.neurons save) [] 0 0 0 r)
    as (r' & prev' & index' & i' & E).
  rewrite E. cbn. now exists r'.
Qed.

(** *** The shape of what [setSave] builds *)

Lemma slices_length flat i prev count :
  length (slices flat i prev count) = count.
Proof.
  revert i. induction count as [|c IH]; intros i; cbn; [|rewrite IH]; lia.
Qed.

Lemma rebuilt_sizes flat counts prev index i :
  map (fun l => length (Layer.neurons l)) (rebuilt flat counts prev index i)
  = counts.
Proof.
  revert prev index i. induction counts as [|c counts IH]; intros; cbn.
  - reflexivity.
  - now rewrite length_map, slices_length, IH.
Qed.

Lemma array_get_present flat i :
  Network.present [array_get flat i] = [array_get flat i].
Proof.
  unfold array_get. destruct (nth_error flat i) as [[]|]; reflexivity.
Qed.

Lemma present_reads flat l :
  Network.present (map (array_get flat) l) = map (array_get flat) l.
Proof.
  induction l as [|k l IH]; cbn; trivial.
  change (Network.present (map (array_get flat) l)) with
    (filter (fun v => match v with Hole => false | _ => true end)
            (map (array_get flat) l)) in IH.
  rewrite IH. unfold array_get.
  destruct (nth_error flat k) as [[]|]; reflexivity.
Qed.

(** The flat weights of the rebuilt layers are the flat list read in
    order. *)
Lemma slices_flat flat i prev count :
  flat_map Network.present (slices flat i prev count)
  = map (array_get flat) (seq i (count * prev)).
Proof.
  revert i. induction count as [|c IH]; intros i; cbn; trivial.
  rewrite present_reads, IH, seq_app, map_app. reflexivity.
Qed.

Lemma rebuilt_flat flat counts prev index i :
  flat_map (fun l => flat_map (fun n => Network.present (Neuron.weights n))
                       (Layer.neurons l))
           (rebuilt flat counts prev index i)
  = map (array_get flat) (seq i (expected_from prev counts)).
Proof.
  revert prev index i. induction counts as [|c counts IH]; intros; cbn; trivial.
  rewrite IH, seq_app, map_app. f_equal.
  rewrite flat_map_concat_map, map_map. cbn.
  rewrite <- flat_map_concat_map. apply slices_flat.
Qed.

(** *** Round trip *)

Definition flat_layers (ls : list Layer.t) : list jsval :=
  flat_map (fun l => flat_map (fun n => Network.present (Neuron.weights n))
                       (Layer.neurons l)) ls.

Lemma present_dense ws : dense ws = true -> Network.present ws = ws.
Proof.
  induction ws as [|w ws IH]; cbn; trivial.
  intros H. apply andb_prop in H as [Dw D].
  destruct w; try discriminate; f_equal; auto.
Qed.

Lemma reads_segment pre seg post :
  dense seg = true ->
  map (array_get (pre ++ seg ++ post)) (seq (length pre) (length seg)) = seg.
Proof.
  revert pre. induction seg as [|x seg IH]; intros pre D; cbn; trivial.
  cbn in D. apply andb_prop in D as [Dx D]. f_equal.
  - unfold array_get. rewrite nth_error_app2, Nat.sub_diag by lia. cbn.
    destruct x; trivial; discriminate.
  - specialize (IH (pre ++ [x]) D).
    rewrite <- app_assoc, length_app in IH. cbn in IH.
    now rewrite Nat.add_1_r in IH.
Qed.

Definition regular (prev : nat) (n : Neuron.t) : bool :=
  dense (Neuron.weights n) && (length (Neuron.weights n) =? prev)%nat.

Lemma flat_neurons_length prev ns :
  forallb (regular prev) ns = true ->
  length (flat_map (fun n => Network.present (Neuron.weights n)) ns)
  = (length ns * prev)%nat.
Proof.
  induction ns as [|n ns IH]; cbn; trivial.
  intros H. apply andb_prop in H as [R F]. apply andb_prop in R as [D L].
  apply Nat.eqb_eq in L.
  rewrite length_app, present_dense, L, IH by trivial. reflexivity.
Qed.

Lemma slices_neurons pre ns post prev :
  forallb (regular prev) ns = true ->
  slices (pre ++ flat_map (fun n => Network.present (Neuron.weights n)) ns
              ++ post)
         (length pre) prev (length ns)
  = map Neuron.weights ns.
Proof.
  revert pre. induction ns as [|n ns IH]; intros pre F; cbn; trivial.
  cbn in F. apply andb_prop in F as [R F]. apply andb_prop in R as [D L].
  apply Nat.eqb_eq in L.
  rewrite present_dense by trivial. rewrite <- app_assoc. f_equal.
  - rewrite <- L. now apply reads_segment.
  - specialize (IH (pre ++ Neuron.weights n) F).
    rewrite <- app_assoc, length_app, L in IH. exact IH.
Qed.

Lemma rebuilt_weights pre ls post prev index :
  shaped prev ls = true ->
  weights_of (rebuilt (pre ++ flat_layers ls ++ post)
                (map (fun l => length (Layer.neurons l)) ls)
                prev index (length pre))
  = weights_of ls.
Proof.
  revert pre prev index.
  induction ls as [|l ls IH]; intros pre prev index S; cbn; trivial.
  cbn in S. apply andb_prop in S as [F S].
  rewrite map_map. cbn. rewrite map_id. rewrite <- app_assoc. f_equal.
  - now apply slices_neurons.
  - specialize (IH (pre ++ flat_map (fun n => Network.present (Neuron.weights n))
                              (Layer.neurons l))
                   (length (Layer.neurons l)) (Datatypes.S index) S).
    rewrite <- app_assoc, length_app, (flat_neurons_length _ _ F) in IH.
    exact IH.
Qed.

Lemma round_trip_layers ls :
  shaped 0 ls = true ->
  weights_of (rebuilt (flat_layers ls)
                (map (fun l => length (Layer.neurons l)) ls) 0 0 0)
  = weights_of ls.
Proof.
  intros S. pose proof (@rebuilt_weights [] ls [] 0 0 S) as H.
  cbn in H. now rewrite app_nil_r in H.
Qed.

(** *** [compute] reads the weights and, in the input layer, the values *)

Definition values (l : Layer.t) : list jsval :=
  map Neuron.value (Layer.neurons l).

Lemma weighted_sum_values prev prev' ws k s :
  map Neuron.value prev = map Neuron.value prev' ->
  Network.weighted_sum prev ws k s = Network.weighted_sum prev' ws k s.
Proof.
  revert prev' k s. induction prev as [|p prev IH]; intros [|p' prev'] k s E;
    cbn in *; try discriminate; trivial.
  injection E as E1 E2. rewrite E1. now apply IH.
Qed.

Lemma fire_layer_values act p p' l l' :
  values p = values p' ->
  map Neuron.weights (Layer.neurons l) = map Neuron.weights (Layer.neurons l') ->
  values (Network.fire_layer act p l) = values (Network.fire_layer act p' l').
Proof.
  unfold values, Network.fire_layer. cbn. intros Ev.
  generalize (Layer.neurons l) (Layer.neurons l'). clear l l'.
  intros ns. induction ns as [|n ns IH]; intros [|n' ns'] E; cbn in *;
    try discriminate; trivial.
  injection E as E1 E2. f_equal; [|now apply IH].
  rewrite E1. f_equal. f_equal. now apply weighted_sum_values.
Qed.

Lemma last_cons {A} (x : A) xs d : last (x :: xs) d = last xs x.
Proof.
  revert x d. induction xs as [|y xs IH]; intros x d; trivial.
  change (last (x :: y :: xs) d) with (last (y :: xs) d).
  now rewrite !IH.
Qed.

Lemma propagate_values act p p' rest rest' d d' :
  values p = values p' ->
  weights_of rest = weights_of rest' ->
  values d = values d' ->
  values (last (Network.propagate act p rest) d)
  = values (last (Network.propagate act p' rest') d').
Proof.
  revert p p' rest' d d'.
  induction rest as [|l rest IH]; intros p p' [|l' rest'] d d' Ep Ew Ed;
    try discriminate Ew.
  - exact Ed.
  - injection Ew as E1 E2.
    pose proof (@fire_layer_values act p p' l l' Ep E1) as Ef.
    cbn [Network.propagate]. rewrite !last_cons. now apply IH.
Qed.

(** A vector without holes that covers the input layer overwrites every
    value of it. *)
Lemma set_inputs_values ns inputs :
  dense inputs = true -> length inputs = length ns ->
  map Neuron.value (Network.set_inputs ns inputs) = inputs.
Proof.
  revert inputs. induction ns as [|n ns IH]; intros [|v inputs] D L;
    cbn in *; try discriminate; trivial.
  apply andb_prop in D as [Dv D]. injection L as L.
  destruct v; try discriminate; cbn; f_equal; auto.
Qed.

Lemma compute_same_weights opts a b inputs :
  Shape.weights a = Shape.weights b ->
  dense inputs = true ->
  Some (length inputs) = hd_error (sizes a) ->
  outputs (Network.compute opts a inputs)
  = outputs (Network.compute opts b inputs).
Proof.
  unfold Shape.weights, sizes, Network.compute.
  destruct (Network.layers a) as [|la ra], (Network.layers b) as [|lb rb];
    cbn; try discriminate; trivial.
  intros E D L. injection E as E0 E. injection L as L.
  assert (Lb : length inputs = length (Layer.neurons lb)).
  { rewrite L, <- (length_map Neuron.weights), E0. apply length_map. }
  f_equal.
  set (a0 := {| Layer.id := Layer.id la;
                Layer.neurons := Network.set_inputs (Layer.neurons la) inputs |}).
  set (b0 := {| Layer.id := Layer.id lb;
                Layer.neurons := Network.set_inputs (Layer.neurons lb) inputs |}).
  assert (E0' : values a0 = values b0).
  { unfold values, a0, b0. cbn. now rewrite !set_inputs_values. }
  pose proof (@propagate_values (activation opts) a0 b0 ra rb a0 b0 E0' E E0') as H.
  change (values (last (a0 :: Network.propagate (activation opts) a0 ra) a0)
          = values (last (b0 :: Network.propagate (activation opts) b0 rb) b0)).
  rewrite !last_cons. exact H.
Qed.

(** *** Networks built from a topology are well formed *)

Lemma fresh_regular prev ns :
  Forall (fresh prev) ns -> forallb (regular prev) ns = true.
Proof.
  induction 1 as [|n ns (V & L & D) F IH]; cbn; trivial.
  unfold regular at 1. rewrite D, L, Nat.eqb_refl, IH. reflexivity.
Qed.

Definition out_size (prev : nat) (ls : list Layer.t) : nat :=
  last (map (fun l => length (Layer.neurons l)) ls) prev.

Lemma shaped_snoc prev ls l :
  shaped prev ls = true ->
  forallb (regular (out_size prev ls)) (Layer.neurons l) = true ->
  shaped prev (ls ++ [l]) = true.
Proof.
  revert prev. induction ls as [|x ls IH]; intros prev S F.
  - unfold out_size in F. cbn in F. cbn. fold (regular prev). now rewrite F.
  - cbn [app shaped] in *. apply andb_prop in S as [Sx S].
    rewrite Sx. cbn [andb]. apply IH; trivial.
    unfold out_size in *. cbn [map] in F. now rewrite last_cons in F.
Qed.

Lemma out_size_snoc prev ls l :
  out_size prev (ls ++ [l]) = length (Layer.neurons l).
Proof. unfold out_size. rewrite map_app. cbn. apply last_last. Qed.

Lemma hidden_steps hidden net index prev r :
  shaped 0 (Network.layers net) = true ->
  out_size 0 (Network.layers net) = prev ->
  exists net' index' prev' r',
    foldM Network.hidden_step hidden (net, index, prev) r
    = Ok (net', index', prev') r'
    /\ shaped 0 (Network.layers net') = true
    /\ out_size 0 (Network.layers net') = prev'
    /\ sizes net' = sizes net ++ hidden.
Proof.
  revert net index prev r.
  induction hidden as [|h hidden IH]; intros net index prev r S O; cbn.
  - exists net, index, prev, r. rewrite app_nil_r. now repeat split.
  - unfold bind.
    destruct (populate_spec index h prev r) as (ns & r1 & E & L & F).
    rewrite E. cbn.
    destruct (IH (Network.push net {| Layer.id := index; Layer.neurons := ns |})
                 (Datatypes.S index) h r1) as (net' & i' & p' & r' & E' & S' & O' & Z').
    + unfold Network.push. cbn [Network.layers].
      apply shaped_snoc; trivial. cbn [Layer.neurons]. rewrite O.
      now apply fresh_regular.
    + unfold Network.push. cbn [Network.layers].
      rewrite out_size_snoc. exact L.
    + rewrite E'. exists net', i', p', r'. repeat split; trivial.
      rewrite Z'. unfold sizes. cbn. rewrite map_app, <- app_assoc. cbn.
      now rewrite L.
Qed.

Lemma perceptronGeneration_spec input hidden output r :
  exists n r',
    Network.perceptronGeneration Network.new input hidden output r = Ok n r'
    /\ well_formed n = true
    /\ sizes n = input :: hidden ++ [output].
Proof.
  unfold Network.perceptronGeneration, bind.
  destruct (populate_spec 0 input 0 r) as (ns & r1 & E & L & F).
  rewrite E.
  destruct (@hidden_steps hidden
              (Network.push Network.new {| Layer.id := 0; Layer.neurons := ns |})
              1 input r1) as (net & i & p & r2 & E2 & S2 & O2 & Z2).
  - cbn. fold (regular 0). now rewrite (fresh_regular F).
  - exact L.
  - rewrite E2.
    destruct (populate_spec i output p r2) as (ns' & r3 & E3 & L3 & F3).
    rewrite E3. eexists _, _. split; [reflexivity|]. split.
    + unfold well_formed, Network.push. cbn [Network.layers].
      apply shaped_snoc; trivial. cbn [Layer.neurons].
      rewrite O2. now apply fresh_regular.
    + unfold sizes in *. cbn. rewrite map_app, Z2. cbn.
      now rewrite L, L3.
Qed.

(** *** Input vectors of the wrong length *)

Lemma set_inputs_surplus ns inputs extra :
  (length ns <= length inputs)%nat ->
  Network.set_inputs ns (inputs ++ extra) = Network.set_inputs ns inputs.
Proof.
  revert inputs. induction ns as [|n ns IH]; intros [|v inputs] L;
    cbn in *; try lia; trivial.
  destruct v; f_equal; apply IH; lia.
Qed.

Lemma set_inputs_keeps ns inputs i :
  (length inputs <= i)%nat ->
  nth_error (Network.set_inputs ns inputs) i = nth_error ns i.
Proof.
  revert inputs i. induction ns as [|n ns IH]; intros [|v inputs] i L;
    cbn in *; trivial.
  destruct i as [|i]; [lia|].
  destruct v; cbn; apply IH; lia.
Qed.

End NetworkFacts.

(** ** generateNextGeneration *)

Module GenerationFacts.
Import MonadFacts.

(** *** The breeding loop with fewer than three genomes *)

Lemma next_max_few this :
  (length (Generation.genomes this) <= 2)%nat ->
  Generation.next_max this 0 = 0%nat.
Proof.
  intros H. unfold Generation.next_max.
  destruct (Z.leb_spec (Z.of_nat (length (Generation.genomes this)) - 1)
                       (Z.of_nat 1)); trivial; lia.
Qed.

(** With one or two genomes the cursor [max] is reset to 0 on every turn:
    no pair is ever bred and the loop never returns. *)
Lemma breeding_few opts this fuel nexts r :
  (length (Generation.genomes this) <= 2)%nat ->
  Generation.breeding opts this fuel 0 nexts r = Diverge.
Proof.
  intros H. induction fuel as [|fuel IH]; cbn; trivial.
  unfold bind, ret. now rewrite next_max_few.
Qed.

Lemma generate_few opts this fuel r :
  (length (Generation.genomes this) <= 2)%nat ->
  forall nexts r',
    Generation.generateNextGeneration opts fuel this r <> Ok nexts r'.
Proof.
  intros H nexts r'. unfold Generation.generateNextGeneration, bind.
  destruct (Generation.rounded_loop _ _ _ _ _ r) as [n1 r1| |]; try discriminate.
  destruct (Generation.rounded_loop _ _ _ _ _ r1) as [n2 r2| |]; try discriminate.
  now rewrite breeding_few.
Qed.

(** *** The length of the result *)

Section Length.
Variable opts : Options.
Variable this : Generation.t.

Definition len (nexts : list Save.t) : Z := Z.of_nat (length nexts).

(** The first two stages never grow the population beyond
    [options.population]. *)
Definition capped (nexts : list Save.t) : Prop :=
  (len nexts <= Z.max 0 (population opts))%Z.

Lemma foldM_preserves {A S} (P : S -> Prop) (body : S -> A -> M S) l :
  (forall s x r s' r', body s x r = Ok s' r' -> P s -> P s') ->
  forall s r s' r', foldM body l s r = Ok s' r' -> P s -> P s'.
Proof.
  intros Hb. induction l as [|x l IH]; intros s r s' r'; cbn.
  - unfold ret. intros [= <- <-]. trivial.
  - unfold bind. destruct (body s x r) as [s1 r1| |] eqn:E; try discriminate.
    intros H Hs. eapply IH; eauto.
Qed.

Lemma rounded_loop_preserves (P : list Save.t -> Prop) rate body spin :
  (forall s x r s' r', body s x r = Ok s' r' -> P s -> P s') ->
  forall s r s' r',
    Generation.rounded_loop opts rate body spin s r = Ok s' r' ->
    P s -> P s'.
Proof.
  intros Hb s r s' r'. unfold Generation.rounded_loop.
  destruct (round_iterations _).
  - now apply foldM_preserves.
  - unfold bind, diverge. destruct (foldM _ _ _ _); discriminate.
Qed.

Lemma elitism_step_capped s i r s' r' :
  Generation.elitism_step opts this s i r = Ok s' r' ->
  capped s -> capped s'.
Proof.
  unfold Generation.elitism_step, Generation.below_population, capped, len.
  destruct (Z.ltb_spec (Z.of_nat (length s)) (population opts)).
  - destruct (nth_error _ i) as [g|]; [|discriminate].
    destruct (Genome.network g); [|discriminate].
    unfold ret. intros [= <- <-] _. rewrite length_app. cbn. lia.
  - unfold ret. now intros [= <- <-].
Qed.

Lemma random_step_capped s i r s' r' :
  Generation.random_step opts this s i r = Ok s' r' ->
  capped s -> capped s'.
Proof.
  unfold Generation.random_step, Generation.below_population, capped, len.
  destruct (nth_error _ 0) as [g|]; [|discriminate].
  destruct (Genome.network g); [|discriminate].
  unfold bind. destruct (Generation.randomize _ r) as [ws r1| |]; try discriminate.
  destruct (Z.ltb_spec (Z.of_nat (length s)) (population opts));
    unfold ret; intros [= <- <-]; trivial.
  intros _. rewrite length_app. cbn. lia.
Qed.

(** The length at which the breeding stage returns when it starts from
    [nexts]: it pushes before it tests. *)
Definition target (nexts : list Save.t) : Z :=
  Z.max (population opts) (len nexts + 1).

Lemma push_children_length children nexts :
  match Generation.push_children opts children nexts with
  | Generation.Return nexts' => len nexts' = target nexts
  | Generation.Continue nexts' =>
      length nexts' = (length nexts + length children)%nat
      /\ target nexts' = target nexts
  end.
Proof.
  revert nexts. induction children as [|c children IH]; intros nexts; cbn.
  - split; [lia | reflexivity].
  - destruct (Z.leb_spec (population opts)
                (Z.of_nat (length (nexts ++ [Generation.child_network c])))) as [H|H].
    + unfold target, len in *. rewrite length_app in *. cbn in *. lia.
    + specialize (IH (nexts ++ [Generation.child_network c])).
      destruct (Generation.push_children _ _ _).
      * destruct IH as [IH1 IH2]. unfold target, len in *.
        rewrite length_app in *. cbn in *. split; lia.
      * unfold target, len in *. rewrite length_app in *. cbn in *. lia.
Qed.

Lemma pairs_length max ixs nexts r fl r' :
  Generation.pairs opts this max ixs nexts r = Ok fl r' ->
  match fl with
  | Generation.Return nexts' => len nexts' = target nexts
  | Generation.Continue nexts' =>
      (length nexts <= length nexts')%nat /\ target nexts' = target nexts
  end.
Proof.
  revert nexts r. induction ixs as [|i ixs IH]; intros nexts r; cbn.
  - unfold ret. intros [= <- <-]. split; [lia | reflexivity].
  - destruct (nth_error _ i) as [g1|]; [|discriminate].
    destruct (nth_error _ max) as [g2|]; [|discriminate].
    unfold bind. destruct (Generation.breed _ _ _ _ r) as [cs r1| |];
      try discriminate.
    pose proof (push_children_length cs nexts) as Hp.
    destruct (Generation.push_children opts cs nexts) as [n1|n1].
    + intros H. apply IH in H. destruct Hp as [Hl Ht].
      destruct fl; [split|]; try lia; destruct H; congruence.
    + unfold ret. intros [= <- <-]. exact Hp.
Qed.

Lemma breeding_length fuel max nexts r nexts' r' :
  Generation.breeding opts this fuel max nexts r = Ok nexts' r' ->
  len nexts' = target nexts.
Proof.
  revert max nexts r. induction fuel as [|fuel IH]; intros max nexts r; cbn.
  - discriminate.
  - unfold bind.
    destruct (Generation.pairs _ _ _ _ _ r) as [fl r1| |] eqn:E;
      try discriminate.
    apply pairs_length in E. destruct fl as [n1|n1].
    + intros H. apply IH in H. destruct E. congruence.
    + unfold ret. now intros [= <- <-].
Qed.

(** Whenever [generateNextGeneration] returns, it returns
    [options.population] networks, or one more when the first two stages
    had already filled the population. *)
Lemma generate_length fuel r nexts r' :
  Generation.generateNextGeneration opts fuel this r = Ok nexts r' ->
  (population opts <= len nexts <= Z.max 0 (population opts) + 1)%Z.
Proof.
  unfold Generation.generateNextGeneration, bind.
  destruct (Generation.rounded_loop _ _ _ _ _ r) as [n1 r1| |] eqn:E1;
    try discriminate.
  destruct (Generation.rounded_loop _ _ _ _ _ r1) as [n2 r2| |] eqn:E2;
    try discriminate.
  intros H%breeding_length.
  apply rounded_loop_preserves with (P := capped) in E1;
    [| apply elitism_step_capped | unfold capped, len; cbn; lia].
  apply rounded_loop_preserves with (P := capped) in E2;
    [| apply random_step_capped | exact E1].
  unfold target, capped, len in *. lia.
Qed.

End Length.

(** *** When the call returns *)

Section Returns.
Variable opts : Options.
Variable this : Generation.t.

(** Every genome still has its network. *)
Definition complete : Prop :=
  Forall (fun g => exists s, Genome.network g = Some s)
         (Generation.genomes this).

Hypothesis Hcomplete : complete.

Lemma nth_complete i :
  (i < length (Generation.genomes this))%nat ->
  exists g s, nth_error (Generation.genomes this) i = Some g
              /\ Genome.network g = Some s.
Proof.
  intros Hi. destruct (nth_error (Generation.genomes this) i) as [g|] eqn:E.
  - unfold complete in Hcomplete. rewrite Forall_forall in Hcomplete.
    destruct (Hcomplete g (nth_error_In _ _ E)) as (s & Hs). now exists g, s.
  - apply nth_error_None in E. lia.
Qed.

Lemma crossover_total w2 w i r :
  exists w' r', Generation.crossover_step w2 w i r = Ok w' r'.
Proof.
  unfold Generation.crossover_step, bind, Math_random, ret.
  destruct (_ <=? _)%float; eexists _, _; reflexivity.
Qed.

Lemma mutation_total w i r :
  exists w' r', Generation.mutation_step opts w i r = Ok w' r'.
Proof.
  unfold Generation.mutation_step, bind, Math_random, ret.
  destruct (_ <=? _)%float; eexists _, _; reflexivity.
Qed.

Lemma foldM_total {A S} (body : S -> A -> M S) l :
  (forall s x r, exists s' r', body s x r = Ok s' r') ->
  forall s r, exists s' r', foldM body l s r = Ok s' r'.
Proof.
  intros Hb s r.
  destruct (@foldM_invariant A S (fun _ => True) body l) with (s := s) (r := r)
    as (s' & r' & E & _); trivial.
  - intros s0 x r0 _ _. destruct (Hb s0 x r0) as (s1 & r1 & E).
    now exists s1, r1.
  - now exists s', r'.
Qed.

Lemma breed_one_total g1 g2 s1 s2 r :
  Genome.network g1 = Some s1 -> Genome.network g2 = Some s2 ->
  exists c r', Generation.breed_one opts g1 g2 r = Ok c r'.
Proof.
  intros E1 E2. unfold Generation.breed_one, bind. rewrite E1, E2.
  destruct (foldM_total (Generation.crossover_step (Save.weights s2))
              (Generation.keys (Save.weights s2))
              (crossover_total (Save.weights s2))
              (Save.weights (Save.json_copy s1)) r) as (w & r1 & Ew).
  rewrite Ew.
  destruct (foldM_total (Generation.mutation_step opts) (Generation.keys w)
              mutation_total w r1) as (w' & r2 & Ew').
  rewrite Ew'. eexists _, _. reflexivity.
Qed.

Lemma breed_children_total g1 g2 s1 s2 nb r :
  Genome.network g1 = Some s1 -> Genome.network g2 = Some s2 ->
  exists cs r', Generation.breed_children opts g1 g2 nb r = Ok cs r'
                /\ length cs = nb.
Proof.
  intros E1 E2. revert r. induction nb as [|nb IH]; intros r; cbn.
  - now exists [], r.
  - destruct (breed_one_total g1 g2 r E1 E2) as (c & r1 & Ec).
    destruct (IH r1) as (cs & r2 & Ecs & L).
    unfold bind. rewrite Ec, Ecs. exists (c :: cs), r2. cbn.
    split; [reflexivity | congruence].
Qed.

Lemma push_children_progress children nexts nexts' :
  children <> [] ->
  Generation.push_children opts children nexts = Generation.Continue nexts' ->
  (length nexts < length nexts')%nat /\ (len nexts' < population opts)%Z.
Proof.
  revert nexts. induction children as [|c children IH]; intros nexts Hne;
    [congruence|]. cbn.
  destruct (Z.leb_spec (population opts)
              (Z.of_nat (length (nexts ++ [Generation.child_network c]))));
    [discriminate|].
  destruct children as [|c' children].
  - cbn. intros [= <-]. unfold len. rewrite length_app in *.
    cbn in *. lia.
  - intros H'. apply IH in H'; [|discriminate].
    rewrite length_app in H'. cbn in H'. lia.
Qed.

Lemma pairs_progress max ixs nexts r :
  (max < length (Generation.genomes this))%nat ->
  Forall (fun i => (i < length (Generation.genomes this))%nat) ixs ->
  exists fl r',
    Generation.pairs opts this max ixs nexts r = Ok fl r'
    /\ (ixs <> [] ->
        match fl with
        | Generation.Return _ => True
        | Generation.Continue nexts' =>
            (length nexts < length nexts')%nat
            /\ (len nexts' < population opts)%Z
        end).
Proof.
  intros Hmax Hixs. revert nexts r.
  induction Hixs as [|i ixs Hi Hixs IH]; intros nexts r; cbn.
  - eexists _, _. split; [reflexivity | congruence].
  - destruct (nth_complete Hi) as (g1 & s1 & E1 & N1).
    destruct (nth_complete Hmax) as (g2 & s2 & E2 & N2).
    rewrite E1, E2. unfold bind, Generation.breed.
    set (nb := Z.to_nat (if (0 <? nbChild opts)%Z then nbChild opts else 1)).
    assert (Hnb : nb <> 0%nat)
      by (unfold nb; destruct (Z.ltb_spec 0 (nbChild opts)); lia).
    destruct (breed_children_total g1 g2 nb r N1 N2) as (cs & r1 & Ecs & L).
    rewrite Ecs.
    assert (Hcs : cs <> []) by (destruct cs; cbn in L; congruence).
    destruct (Generation.push_children opts cs nexts) as [n1|n1] eqn:Ep.
    + apply push_children_progress in Ep as [P1 P2]; trivial.
      destruct (IH n1 r1) as (fl & r' & E & Hfl). rewrite E.
      exists fl, r'. split; trivial. intros _.
      destruct fl as [n2|n2]; trivial.
      destruct ixs as [|j ixs].
      * cbn in E. unfold ret in E. injection E as <- <-. now split.
      * destruct Hfl as [Q1 Q2]; [discriminate|]. split; [lia | trivial].
    + eexists _, _. split; [reflexivity | intros _; exact I].
Qed.

Hypothesis Hthree : (3 <= length (Generation.genomes this))%nat.

(** A cursor the loop can hold. *)
Definition valid (max : nat) : Prop :=
  (max + 2 <= length (Generation.genomes this))%nat.

Lemma next_max_valid max : valid (Generation.next_max this max).
Proof.
  unfold valid, Generation.next_max.
  destruct (Z.leb_spec (Z.of_nat (length (Generation.genomes this)) - 1)
                       (Z.of_nat (S max))); lia.
Qed.

Lemma next_max_zero : Generation.next_max this 0 = 1%nat.
Proof.
  unfold Generation.next_max.
  destruct (Z.leb_spec (Z.of_nat (length (Generation.genomes this)) - 1)
                       (Z.of_nat 1)); trivial; lia.
Qed.

Lemma seq_bound max :
  valid max ->
  Forall (fun i => (i < length (Generation.genomes this))%nat) (seq 0 max).
Proof.
  unfold valid. intros H. apply Forall_forall. intros i Hi%in_seq. lia.
Qed.

(** From a cursor other than 0, [2 * d + 1] turns suffice when at most
    [d] networks are missing. *)
Lemma breeding_returns_pos d :
  forall fuel max nexts r,
    valid max -> max <> 0%nat ->
    (population opts - len nexts <= Z.of_nat d)%Z ->
    (2 * d + 1 <= fuel)%nat ->
    exists nexts' r', Generation.breeding opts this fuel max nexts r = Ok nexts' r'.
Proof.
  induction d as [|d IH]; intros fuel max nexts r Hv Hm Hd Hf;
    (destruct fuel as [|fuel]; [lia|]); cbn; unfold bind;
    (destruct (@pairs_progress max (seq 0 max) nexts r) as (fl & r1 & E & P);
     [unfold valid in Hv; lia | now apply seq_bound |]);
    rewrite E;
    (destruct fl as [n1|n1]; [| eexists _, _; reflexivity]);
    (destruct P as [P1 P2]; [destruct max; [congruence | discriminate]|]).
  - unfold len in *. lia.
  - destruct (Nat.eq_dec (Generation.next_max this max) 0) as [Z0|NZ].
    + rewrite Z0. destruct fuel as [|fuel]; [lia|]. cbn. unfold bind, ret.
      rewrite next_max_zero. apply IH; trivial.
      * unfold valid. lia.
      * unfold len in *. lia.
      * lia.
    + apply IH; trivial.
      * apply next_max_valid.
      * unfold len in *. lia.
      * lia.
Qed.

Lemma breeding_returns nexts r fuel :
  (2 * Z.to_nat (population opts - len nexts) + 2 <= fuel)%nat ->
  exists nexts' r', Generation.breeding opts this fuel 0 nexts r = Ok nexts' r'.
Proof.
  intros Hf. destruct fuel as [|fuel]; [lia|]. cbn. unfold bind, ret.
  rewrite next_max_zero.
  apply breeding_returns_pos with (d := Z.to_nat (population opts - len nexts));
    try lia. unfold valid. lia.
Qed.

(** *** The first two stages *)

Lemma randomize_total ws r :
  exists ws' r', Generation.randomize ws r = Ok ws' r'.
Proof.
  revert r. induction ws as [|w ws IH]; intros r; cbn.
  - now exists [], r.
  - destruct w; unfold bind, randomClamped, Math_random, ret; cbn;
      match goal with
      | |- context [Generation.randomize ws ?r0] =>
          destruct (IH r0) as (ws' & r' & E); rewrite E
      end; eexists _, _; reflexivity.
Qed.

Lemma random_step_total nexts i r :
  exists nexts' r',
    Generation.random_step opts this nexts i r = Ok nexts' r'
    /\ (length nexts' <= length nexts + 1)%nat.
Proof.
  unfold Generation.random_step.
  destruct (@nth_complete 0) as (g & s & E & N); [lia|].
  rewrite E, N. unfold bind.
  destruct (randomize_total (Save.weights (Save.json_copy s)) r)
    as (ws & r1 & Ew).
  rewrite Ew. destruct (Generation.below_population opts nexts);
    eexists _, _; (split; [reflexivity|]); rewrite ?length_app; cbn; lia.
Qed.

Lemma random_loop_total n a nexts r :
  exists nexts' r',
    foldM (Generation.random_step opts this) (seq a n) nexts r = Ok nexts' r'
    /\ (length nexts' <= length nexts + n)%nat.
Proof.
  revert a nexts r. induction n as [|n IH]; intros a nexts r; cbn.
  - exists nexts, r. split; [reflexivity | lia].
  - destruct (random_step_total nexts a r) as (n1 & r1 & E1 & L1).
    unfold bind. rewrite E1.
    destruct (IH (S a) n1 r1) as (n2 & r2 & E2 & L2).
    rewrite E2. exists n2, r2. split; [reflexivity | lia].
Qed.

(** The elitism loop, at index [a] with [a] networks copied so far. *)
Lemma elitism_loop_total n a nexts r :
  length nexts = a ->
  (a + n <= length (Generation.genomes this))%nat ->
  exists nexts' r',
    foldM (Generation.elitism_step opts this) (seq a n) nexts r = Ok nexts' r'
    /\ (length nexts' <= a + n)%nat.
Proof.
  revert a nexts r. induction n as [|n IH]; intros a nexts r La Hn; cbn.
  - exists nexts, r. split; [reflexivity | lia].
  - unfold bind, Generation.elitism_step at 1.
    destruct (Generation.below_population opts nexts) eqn:B.
    + destruct (@nth_complete a) as (g & s & E & N); [lia|].
      rewrite E, N. unfold ret.
      destruct (IH (S a) (nexts ++ [Save.json_copy s]) r) as (n2 & r2 & E2 & L2).
      * rewrite length_app. cbn. lia.
      * lia.
      * rewrite E2. exists n2, r2. split; [reflexivity | lia].
    + unfold ret.
      assert (Hrest : forall m b r0,
                foldM (Generation.elitism_step opts this) (seq b m) nexts r0
                = Ok nexts r0).
      { induction m as [|m IHm]; intros b r0; cbn; trivial.
        unfold bind, Generation.elitism_step at 1. rewrite B. apply IHm. }
      rewrite Hrest. exists nexts, r. split; [reflexivity | lia].
Qed.

(** Population conservation, where it holds: with at least three
    genomes, no more elites than genomes, and fewer elites and random
    networks than [options.population], enough fuel makes the call
    return exactly [options.population] networks. *)
Lemma generate_returns_population e k fuel r :
  round_iterations (elitism opts * of_Z (population opts)) = Finite e ->
  round_iterations (randomBehaviour opts * of_Z (population opts)) = Finite k ->
  (e <= length (Generation.genomes this))%nat ->
  (Z.of_nat (e + k) < population opts)%Z ->
  (2 * Z.to_nat (population opts) + 2 <= fuel)%nat ->
  exists nexts r',
    Generation.generateNextGeneration opts fuel this r = Ok nexts r'
    /\ len nexts = population opts.
Proof.
  intros He Hk Hle Hlt Hf.
  unfold Generation.generateNextGeneration, Generation.rounded_loop, bind.
  rewrite He, Hk.
  destruct (@elitism_loop_total e 0 [] r) as (n1 & r1 & E1 & L1);
    trivial.
  rewrite E1.
  destruct (random_loop_total k 0 n1 r1) as (n2 & r2 & E2 & L2).
  rewrite E2.
  destruct (@breeding_returns n2 r2 fuel) as (n3 & r3 & E3).
  { unfold len. lia. }
  rewrite E3. exists n3, r3. split; trivial.
  apply breeding_length in E3. unfold target, len in *. lia.
Qed.

End Returns.

(** *** Fewer genomes than elites *)

(** With the default rates and 50 networks per generation, ten elites are
    called for; on a Generation of four genomes the elitism loop reads
    [this.genomes[4].network] and raises. *)
Example elites_beyond_genomes_raise :
  Generation.generateNextGeneration (default_options (fun x => x)) 3 Demo.four
    (Demo.steady 0.75) = Throw TypeError.
Proof. vm_compute. reflexivity. Qed.

End GenerationFacts.

(** ** The history of generations *)

Module BirdBrainFacts.
Import History.

Lemma remove_older_bound opts gens :
  (0 <= historic opts)%Z ->
  (Z.of_nat (length (BirdBrain.remove_older_generations opts gens))
   <= historic opts + 1)%Z.
Proof.
  intros H. unfold BirdBrain.remove_older_generations.
  destruct (Z.eqb_spec (historic opts) (-1)); [lia|].
  destruct (Z.ltb_spec (historic opts + 1) (Z.of_nat (length gens)));
    [rewrite length_skipn|]; lia.
Qed.

Lemma set_last_length {A} (l : list A) x :
  length (Generations.set_last l x) = length l.
Proof.
  induction l as [|y [|z l] IH]; trivial.
  change (Generations.set_last (y :: z :: l) x)
    with (y :: Generations.set_last (z :: l) x).
  cbn [length]. now rewrite IH.
Qed.

Lemma networkScore_history opts b network score :
  length (history (BirdBrain.networkScore opts b network score))
  = length (history b).
Proof.
  unfold history, BirdBrain.networkScore, Generations.addGenome.
  cbn [BirdBrain.generations].
  destruct (Generations.generations (BirdBrain.generations b)) eqn:E;
    cbn [fst Generations.generations].
  - now rewrite E.
  - apply set_last_length.
Qed.

Lemma scored_history opts reports b :
  length (history (scored opts b reports)) = length (history b).
Proof.
  unfold scored. revert b. induction reports as [|p reports IH]; intros b; cbn.
  - reflexivity.
  - rewrite IH. apply networkScore_history.
Qed.

(** A call that returns has pruned the history. *)
Lemma nextGeneration_bound self opts fuel this r :
  (0 <= historic opts)%Z ->
  produced (snd (BirdBrain.nextGeneration self opts fuel this r)) = true ->
  (Z.of_nat (length (history (fst (BirdBrain.nextGeneration self opts fuel this r))))
   <= historic opts + 1)%Z.
Proof.
  intros H. unfold BirdBrain.nextGeneration.
  match goal with
  | |- context [match ?p with Ok _ _ => _ | Throw _ => _ | Diverge => _ end] =>
      destruct p as [[gens networks] r1| |]
  end; try discriminate.
  destruct (foldM BirdBrain.wrap_step _ [] r1) as [nns r2| |]; try discriminate.
  destruct (BirdBrain.remove_old_networks self opts _) as [gs|]; try discriminate.
  intros _. cbn. now apply remove_older_bound.
Qed.

Lemma rounds_bound self opts plan :
  (0 <= historic opts)%Z ->
  forall b r b' r',
    (Z.of_nat (length (history b)) <= historic opts + 1)%Z ->
    rounds self opts plan b r = Some (b', r') ->
    (Z.of_nat (length (history b')) <= historic opts + 1)%Z.
Proof.
  intros H. induction plan as [|[fuel reports] plan IH]; intros b r b' r' Hb; cbn.
  - now intros [= <- <-].
  - pose proof (nextGeneration_bound self opts fuel b r H) as Hn.
    destruct (BirdBrain.nextGeneration self opts fuel b r) as [b1 [nns r1| |]];
      try discriminate.
    apply IH. rewrite scored_history. now apply Hn.
Qed.

(** With [lowHistoric] set and no global [generations], the call raises
    as soon as the history holds two generations. *)
Lemma remove_old_networks_raises opts gens :
  lowHistoric opts = true -> (2 <= length gens)%nat ->
  BirdBrain.remove_old_networks BirdBrain.window opts gens = Abrupt TypeError.
Proof.
  intros L H. unfold BirdBrain.remove_old_networks. rewrite L.
  destruct (Nat.leb_spec 2 (length gens)); [reflexivity | lia].
Qed.

(** Hence, with [lowHistoric] set, no call on an engine that already holds
    a Generation returns. *)
Lemma lowHistoric_never_returns opts fuel this r :
  lowHistoric opts = true ->
  history this <> [] ->
  produced (snd (BirdBrain.nextGeneration BirdBrain.window opts fuel this r))
  = false.
Proof.
  intros L H. unfold BirdBrain.nextGeneration, history in *.
  destruct (Generations.generations (BirdBrain.generations this))
    as [|g gs] eqn:E; [congruence|].
  unfold Generations.nextGeneration, bind. rewrite E.
  destruct (Generation.generateNextGeneration opts fuel (last gs g) r)
    as [gen r1| |]; trivial.
  unfold ret.
  destruct (foldM BirdBrain.wrap_step gen [] r1) as [nns r2| |]; trivial.
  rewrite remove_old_networks_raises; trivial.
  cbn. rewrite length_app. cbn. lia.
Qed.

End BirdBrainFacts.

(** ** The number of random draws *)

Module DrawFacts.
Import Draws Shape.

Lemma advance_0 r : advance r 0 = r.
Proof. destruct r as [d c]. unfold advance. cbn. now rewrite Nat.add_0_r. Qed.

Lemma advance_advance r a b : advance (advance r a) b = advance r (a + b).
Proof. unfold advance. cbn. f_equal. lia. Qed.

Lemma exactly_ret {A} (a : A) : exactly (ret a) 0.
Proof. intros r x r'. unfold ret. intros [= _ <-]. now rewrite advance_0. Qed.

(** Sequencing, where what follows may depend on a property [Q] of the
    first result. *)
Lemma exactly_bind_post {A B} (Q : A -> Prop) (m : M A) (k : A -> M B) a b :
  exactly m a ->
  (forall r x r', m r = Ok x r' -> Q x) ->
  (forall x, Q x -> exactly (k x) b) ->
  exactly (bind m k) (a + b).
Proof.
  intros Hm HQ Hk r y r'. unfold bind.
  destruct (m r) as [x r1| |] eqn:E; try discriminate.
  intros H. apply (Hk x (HQ _ _ _ E)) in H. apply Hm in E. subst.
  apply advance_advance.
Qed.

Lemma exactly_bind {A B} (m : M A) (k : A -> M B) a b :
  exactly m a -> (forall x, exactly (k x) b) -> exactly (bind m k) (a + b).
Proof.
  intros Hm Hk.
  apply (@exactly_bind_post A B (fun _ => True) m k a b); auto.
Qed.

(** A computation followed by a pure step. *)
Lemma exactly_map {A B} (m : M A) (f : A -> M B) a :
  exactly m a -> (forall x, exactly (f x) 0) -> exactly (bind m f) a.
Proof.
  intros Hm Hf. rewrite <- (Nat.add_0_r a). now apply exactly_bind.
Qed.

Lemma exactly_random : exactly Math_random 1.
Proof.
  intros r x r'. unfold Math_random. intros [= _ <-]. unfold advance.
  f_equal. lia.
Qed.

Lemma exactly_randomClamped : exactly randomClamped 1.
Proof.
  unfold randomClamped. apply exactly_map; [apply exactly_random|].
  intros x. apply exactly_ret.
Qed.

Lemma exactly_random_weights nb : exactly (Neuron.random_weights nb) nb.
Proof.
  induction nb as [|nb IH]; cbn.
  - apply exactly_ret.
  - change (S nb) with (1 + nb)%nat.
    apply exactly_bind; [apply exactly_randomClamped|]. intros w.
    apply exactly_map; [exact IH|]. intros ws. apply exactly_ret.
Qed.

Lemma exactly_neuron_populate this nb : exactly (Neuron.populate this nb) nb.
Proof.
  unfold Neuron.populate. apply exactly_map; [apply exactly_random_weights|].
  intros ws. apply exactly_ret.
Qed.

Lemma exactly_random_neurons count prev :
  exactly (Layer.random_neurons count prev) (count * prev).
Proof.
  induction count as [|count IH]; cbn.
  - apply exactly_ret.
  - apply exactly_bind; [apply exactly_neuron_populate|]. intros x.
    apply exactly_map; [exact IH|]. intros xs. apply exactly_ret.
Qed.

Lemma exactly_populate this count prev :
  exactly (Layer.populate this count prev) (count * prev).
Proof.
  unfold Layer.populate. apply exactly_map; [apply exactly_random_neurons|].
  intros ns. apply exactly_ret.
Qed.

Lemma exactly_setSave_step flat ls prev index i c :
  exactly (Network.setSave_step flat (ls, prev, index, i) c) (c * prev).
Proof.
  unfold Network.setSave_step. apply exactly_map; [apply exactly_populate|].
  intros layer. destruct (Network.assign_neurons _ _ _). apply exactly_ret.
Qed.

Lemma setSave_step_previous flat ls prev index i c r x r' :
  Network.setSave_step flat (ls, prev, index, i) c r = Ok x r' ->
  snd (fst (fst x)) = c.
Proof.
  unfold Network.setSave_step, bind.
  destruct (Layer.populate _ _ _ r) as [layer r1| |]; try discriminate.
  destruct (Network.assign_neurons _ _ _). unfold ret. now intros [= <- _].
Qed.

Lemma exactly_setSave_steps flat counts :
  forall ls prev index i,
    exactly (foldM (Network.setSave_step flat) counts (ls, prev, index, i))
            (expected_from prev counts).
Proof.
  induction counts as [|c counts IH]; intros ls prev index i; cbn.
  - apply exactly_ret.
  - apply exactly_bind_post with (Q := fun x => snd (fst (fst x)) = c).
    + apply exactly_setSave_step.
    + intros r x r'. apply setSave_step_previous.
    + intros [[[ls' prev'] index'] i']. cbn. intros ->. apply IH.
Qed.

Lemma exactly_setSave this save :
  exactly (Network.setSave this save) (expected_weights (Save.neurons save)).
Proof.
  unfold Network.setSave. apply exactly_map; [apply exactly_setSave_steps|].
  intros [[[ls p] ix] i]. apply exactly_ret.
Qed.

Lemma hidden_step_previous net index prev h r x r' :
  Network.hidden_step (net, index, prev) h r = Ok x r' -> snd x = h.
Proof.
  unfold Network.hidden_step, bind.
  destruct (Layer.populate _ _ _ r); try discriminate.
  unfold ret. now intros [= <- _].
Qed.

Lemma exactly_hidden_step net index prev h :
  exactly (Network.hidden_step (net, index, prev) h) (h * prev).
Proof.
  unfold Network.hidden_step. apply exactly_map; [apply exactly_populate|].
  intros layer. apply exactly_ret.
Qed.

(** The draws of the hidden layers and of the output layer. *)
Lemma exactly_hidden_then_output hidden output (tail : Network.t * nat * nat -> M Network.t) :
  (forall net index prev, exactly (tail (net, index, prev)) (output * prev)) ->
  forall net index prev,
    exactly (bind (foldM Network.hidden_step hidden (net, index, prev)) tail)
            (expected_from prev (hidden ++ [output])).
Proof.
  intros Ht. induction hidden as [|h hidden IH]; intros net index prev.
  - cbn [foldM app expected_from]. intros r x r' H.
    unfold bind, ret in H. apply Ht in H. rewrite H. f_equal. lia.
  - cbn [foldM app expected_from]. intros r x r'. unfold bind at 1 2.
    destruct (Network.hidden_step (net, index, prev) h r)
      as [[[net1 index1] prev1] r1| |] eqn:E; try discriminate.
    pose proof (hidden_step_previous _ _ _ _ _ E) as P. cbn in P. subst prev1.
    apply exactly_hidden_step in E. intros H.
    apply (IH net1 index1 h) in H. subst. apply advance_advance.
Qed.

Lemma exactly_perceptronGeneration this input hidden output :
  exactly (Network.perceptronGeneration this input hidden output)
          (expected_weights (input :: hidden ++ [output])).
Proof.
  unfold Network.perceptronGeneration, expected_weights.
  cbn [expected_from app]. rewrite Nat.mul_0_r.
  apply exactly_bind with (a := 0%nat).
  - pose proof (exactly_populate (Layer.new 0) input 0) as H.
    now rewrite Nat.mul_0_r in H.
  - intros layer. apply exactly_hidden_then_output.
    intros net index prev. apply exactly_map; [apply exactly_populate|].
    intros l. apply exactly_ret.
Qed.

End DrawFacts.

(** ** More on networks: what [setSave] builds, what [compute] keeps *)

Module NetworkMore.
Import Shape NetworkFacts.

Lemma reads_dense flat l : dense (map (array_get flat) l) = true.
Proof.
  induction l as [|k l IH]; cbn; trivial.
  fold (dense (map (array_get flat) l)). rewrite IH.
  unfold array_get. destruct (nth_error flat k) as [[]|]; reflexivity.
Qed.

Lemma slices_regular flat i prev count :
  forallb (regular prev)
    (map (fun ws => {| Neuron.value := Num 0; Neuron.weights := ws |})
         (slices flat i prev count)) = true.
Proof.
  revert i. induction count as [|c IH]; intros i; cbn; trivial.
  rewrite IH. unfold regular. cbn.
  now rewrite reads_dense, length_map, length_seq, Nat.eqb_refl.
Qed.

(** Whatever the save, the layers [setSave] builds keep the invariant of a
    network. *)
Lemma rebuilt_shaped flat counts prev index i :
  shaped prev (rebuilt flat counts prev index i) = true.
Proof.
  revert prev index i. induction counts as [|c counts IH]; intros; cbn; trivial.
  fold (regular prev). rewrite slices_regular, length_map, slices_length.
  apply IH.
Qed.

Lemma reads_all flat :
  dense flat = true -> map (array_get flat) (seq 0 (length flat)) = flat.
Proof.
  intros D. pose proof (@reads_segment [] flat [] D) as H.
  cbn in H. now rewrite app_nil_r in H.
Qed.

(** *** [compute] *)

Lemma set_inputs_weights ns inputs :
  map Neuron.weights (Network.set_inputs ns inputs) = map Neuron.weights ns.
Proof.
  revert inputs. induction ns as [|n ns IH]; intros [|v inputs]; cbn; trivial.
  destruct v; cbn; now rewrite IH.
Qed.

Lemma set_inputs_idem ns inputs :
  Network.set_inputs (Network.set_inputs ns inputs) inputs
  = Network.set_inputs ns inputs.
Proof.
  revert inputs. induction ns as [|n ns IH]; intros [|v inputs]; cbn; trivial.
  destruct v; cbn; now rewrite IH.
Qed.

Lemma fire_layer_weights act p l :
  map Neuron.weights (Layer.neurons (Network.fire_layer act p l))
  = map Neuron.weights (Layer.neurons l).
Proof. cbn. rewrite map_map. reflexivity. Qed.

Lemma fire_layer_idem act p l :
  Network.fire_layer act p (Network.fire_layer act p l)
  = Network.fire_layer act p l.
Proof. unfold Network.fire_layer. cbn. now rewrite map_map. Qed.

Lemma propagate_weights act p rest :
  weights_of (Network.propagate act p rest) = weights_of rest.
Proof.
  revert p. induction rest as [|l rest IH]; intros p; cbn; trivial.
  now rewrite map_map, IH.
Qed.

Lemma propagate_ids act p rest :
  map Layer.id (Network.propagate act p rest) = map Layer.id rest.
Proof.
  revert p. induction rest as [|l rest IH]; intros p; cbn; trivial.
  now rewrite IH.
Qed.

Lemma propagate_idem act p rest :
  Network.propagate act p (Network.propagate act p rest)
  = Network.propagate act p rest.
Proof.
  revert p. induction rest as [|l rest IH]; intros p; trivial.
  cbn [Network.propagate]. rewrite fire_layer_idem. f_equal. apply IH.
Qed.

Lemma weights_of_sizes ls ls' :
  weights_of ls = weights_of ls' ->
  map (fun l => length (Layer.neurons l)) ls
  = map (fun l => length (Layer.neurons l)) ls'.
Proof.
  revert ls'. induction ls as [|l ls IH]; intros [|l' ls'] E; cbn in *;
    try discriminate; trivial.
  injection E as E1 E2. f_equal; [|now apply IH].
  now rewrite <- (length_map Neuron.weights), E1, length_map.
Qed.

Lemma last_map {A B} (f : A -> B) l d : last (map f l) (f d) = f (last l d).
Proof.
  revert d. induction l as [|x l IH]; intros d; trivial.
  cbn [map]. rewrite !last_cons. apply IH.
Qed.

(** The receiver after [compute] and the array it returns, on a network
    with a first layer [l0]. *)
Definition computed (opts : Options) (l0 : Layer.t) (rest : list Layer.t)
    (inputs : list jsval) : list Layer.t :=
  let l0' := {| Layer.id := Layer.id l0;
                Layer.neurons := Network.set_inputs (Layer.neurons l0) inputs |} in
  l0' :: Network.propagate (activation opts) l0' rest.

Lemma compute_computed opts l0 rest inputs :
  Network.compute opts {| Network.layers := l0 :: rest |} inputs
  = Normal ({| Network.layers := computed opts l0 rest inputs |},
            map Neuron.value
                (Layer.neurons (last (computed opts l0 rest inputs) l0))).
Proof.
  unfold Network.compute, computed. cbn [Network.layers].
  rewrite !last_cons. reflexivity.
Qed.

Lemma computed_weights opts l0 rest inputs :
  weights_of (computed opts l0 rest inputs) = weights_of (l0 :: rest).
Proof.
  unfold computed. cbn. now rewrite set_inputs_weights, propagate_weights.
Qed.

Lemma computed_idem opts l0 rest inputs :
  match computed opts l0 rest inputs with
  | [] => False
  | l0' :: rest' =>
      computed opts l0' rest' inputs = computed opts l0 rest inputs
  end.
Proof.
  unfold computed. cbn. rewrite set_inputs_idem, propagate_idem. reflexivity.
Qed.

Lemma computed_out opts l0 rest inputs :
  length (Layer.neurons (last (computed opts l0 rest inputs) l0))
  = last (sizes {| Network.layers := l0 :: rest |}) 0%nat.
Proof.
  pose proof (computed_weights opts l0 rest inputs) as W.
  apply weights_of_sizes in W.
  unfold sizes. cbn [Network.layers]. rewrite <- W.
  change 0%nat with (length (Layer.neurons (Layer.new 0))).
  rewrite (last_map (fun l => length (Layer.neurons l))).
  unfold computed. rewrite !NetworkFacts.last_cons.
  reflexivity.
Qed.

End NetworkMore.

(** ** More on generateNextGeneration: what the stages put in the result *)

Module StageFacts.
Import GenerationFacts.

Section Stages.
Variable opts : Options.
Variable this : Generation.t.

(** [b] is [a] with more networks pushed at its end. *)
Definition extends (a b : list Save.t) : Prop := exists more, b = a ++ more.

Lemma extends_refl a : extends a a.
Proof. exists []. now rewrite app_nil_r. Qed.

Lemma extends_push a b x : extends a b -> extends a (b ++ [x]).
Proof. intros [more ->]. exists (more ++ [x]). now rewrite app_assoc. Qed.

Lemma extends_nth a b i x :
  extends a b -> nth_error a i = Some x -> nth_error b i = Some x.
Proof.
  intros [more ->] H. rewrite nth_error_app1; trivial.
  apply nth_error_Some. congruence.
Qed.

(** An invariant kept by every push of a child is kept by the breeding
    loop. *)
Section Breeding.
Variable P : list Save.t -> Prop.
Variable C : Generation.child -> Prop.
Hypothesis Hpush : forall nexts c, C c -> P nexts -> P (nexts ++ [Generation.child_network c]).
Hypothesis Hbreed :
  forall g1 g2 nb r cs r',
    In g1 (Generation.genomes this) -> In g2 (Generation.genomes this) ->
    Generation.breed opts g1 g2 nb r = Ok cs r' -> Forall C cs.

Lemma push_children_keeps cs nexts :
  Forall C cs -> P nexts ->
  match Generation.push_children opts cs nexts with
  | Generation.Return nexts' | Generation.Continue nexts' => P nexts'
  end.
Proof.
  intros HC. revert nexts. induction HC as [|c cs Hc HC IH]; intros nexts HP; cbn.
  - exact HP.
  - destruct (_ <=? _)%Z; [now apply Hpush|]. apply IH. now apply Hpush.
Qed.

Lemma pairs_keeps max ixs nexts r fl r' :
  Generation.pairs opts this max ixs nexts r = Ok fl r' ->
  P nexts ->
  match fl with
  | Generation.Return nexts' | Generation.Continue nexts' => P nexts'
  end.
Proof.
  revert nexts r. induction ixs as [|i ixs IH]; intros nexts r; cbn.
  - unfold ret. now intros [= <- <-].
  - destruct (nth_error _ i) as [g1|] eqn:E1; [|discriminate].
    destruct (nth_error _ max) as [g2|] eqn:E2; [|discriminate].
    unfold bind. destruct (Generation.breed _ _ _ _ r) as [cs r1| |] eqn:Eb;
      try discriminate.
    intros H HP.
    apply Hbreed in Eb; eauto using nth_error_In.
    pose proof (@push_children_keeps cs nexts Eb HP) as Hp.
    destruct (Generation.push_children opts cs nexts) as [n1|n1].
    + now apply IH in H.
    + unfold ret in H. now injection H as <- <-.
Qed.

Lemma breeding_keeps fuel max nexts r nexts' r' :
  Generation.breeding opts this fuel max nexts r = Ok nexts' r' ->
  P nexts -> P nexts'.
Proof.
  revert max nexts r. induction fuel as [|fuel IH]; intros max nexts r; cbn.
  - discriminate.
  - unfold bind.
    destruct (Generation.pairs _ _ _ _ _ r) as [fl r1| |] eqn:E;
      try discriminate.
    intros H HP. apply pairs_keeps in E; trivial. destruct fl as [n1|n1].
    + now apply IH in H.
    + unfold ret in H. now injection H as <- <-.
Qed.

End Breeding.

Lemma breeding_extends fuel max nexts r nexts' r' :
  Generation.breeding opts this fuel max nexts r = Ok nexts' r' ->
  extends nexts nexts'.
Proof.
  intros H.
  apply (@breeding_keeps (extends nexts) (fun _ => True)) in H; trivial.
  - intros n c _. apply extends_push.
  - intros. now apply Forall_forall.
  - apply extends_refl.
Qed.

Lemma random_step_extends a s i r s' r' :
  Generation.random_step opts this s i r = Ok s' r' ->
  extends a s -> extends a s'.
Proof.
  unfold Generation.random_step.
  destruct (nth_error _ 0) as [g|]; [|discriminate].
  destruct (Genome.network g); [|discriminate].
  unfold bind. destruct (Generation.randomize _ r) as [ws r1| |]; try discriminate.
  destruct (Generation.below_population opts s); unfold ret;
    intros [= <- <-]; trivial. apply extends_push.
Qed.

(** *** The elites *)

(** The network at index [i] of [nexts] is the copy of genome [i]'s. *)
Definition copied (nexts : list Save.t) (i : nat) : Prop :=
  exists g s,
    nth_error (Generation.genomes this) i = Some g
    /\ Genome.network g = Some s
    /\ nth_error nexts i = Some (Save.json_copy s).

Lemma elitism_loop_copies n :
  forall a nexts r nexts' r',
    foldM (Generation.elitism_step opts this) (seq a n) nexts r = Ok nexts' r' ->
    (length nexts = a \/ Generation.below_population opts nexts = false) ->
    (forall i, (i < length nexts)%nat -> copied nexts i) ->
    (length nexts' = (a + n)%nat
     \/ Generation.below_population opts nexts' = false)
    /\ (forall i, (i < length nexts')%nat -> copied nexts' i).
Proof.
  induction n as [|n IH]; intros a nexts r nexts' r'; cbn.
  - unfold ret. intros [= <- <-] HL HC. split; trivial.
    destruct HL; [left; lia | now right].
  - unfold bind, Generation.elitism_step at 1.
    destruct (Generation.below_population opts nexts) eqn:B.
    + destruct (nth_error _ a) as [g|] eqn:Eg; [|discriminate].
      destruct (Genome.network g) as [s|] eqn:Es; [|discriminate].
      unfold ret. intros H HL HC.
      destruct HL as [HL|HL]; [|congruence].
      apply IH in H.
      * destruct H as [H1 H2]. split; trivial.
        destruct H1; [left; lia | now right].
      * left. rewrite length_app. cbn. lia.
      * intros i Hi. rewrite length_app in Hi. cbn in Hi.
        destruct (Nat.eq_dec i a) as [->|N].
        -- exists g, s. repeat split; trivial.
           rewrite nth_error_app2 by lia. rewrite HL, Nat.sub_diag. reflexivity.
        -- destruct (HC i) as (g' & s' & E1 & E2 & E3); [lia|].
           exists g', s'. repeat split; trivial.
           rewrite nth_error_app1 by lia. exact E3.
    + unfold ret. intros H HL HC. apply IH in H; trivial.
      * destruct H as [H1 H2]. split; trivial.
        destruct H1; [left; lia | now right].
      * now right.
Qed.

Lemma randomize_length ws r ws' r' :
  Generation.randomize ws r = Ok ws' r' -> length ws' = length ws.
Proof.
  revert r ws' r'. induction ws as [|w ws IH]; intros r ws' r'; cbn.
  - unfold ret. now intros [= <- _].
  - destruct w; unfold bind, randomClamped, Math_random, ret; cbn;
      match goal with
      | |- context [Generation.randomize ws ?r0] =>
          destruct (Generation.randomize ws r0) as [t r1| |] eqn:E;
            try discriminate
      end; intros [= <- _]; cbn; f_equal; eapply IH; eauto.
Qed.

End Stages.

End StageFacts.

(** ** Generations whose genomes share a topology *)

Module UniformFacts.
Import GenerationFacts StageFacts.

Lemma complete_spec this :
  Stage.complete this = true -> GenerationFacts.complete this.
Proof.
  unfold Stage.complete, GenerationFacts.complete. rewrite forallb_forall.
  intros H. apply Forall_forall. intros g Hg. specialize (H g Hg).
  destruct (Genome.network g) as [s|]; [now exists s | discriminate].
Qed.

Lemma shape_spec counts n s :
  Stage.shape counts n s = true <->
  Save.neurons s = counts /\ length (Save.weights s) = n.
Proof.
  unfold Stage.shape. destruct (list_eq_dec _ _ _); cbn.
  - rewrite Nat.eqb_eq. tauto.
  - split; [discriminate | tauto].
Qed.

Lemma uniform_In counts n this g :
  Stage.uniform counts n this = true -> In g (Generation.genomes this) ->
  exists s, Genome.network g = Some s /\ Stage.shape counts n s = true.
Proof.
  unfold Stage.uniform. rewrite forallb_forall. intros H Hg.
  specialize (H g Hg). destruct (Genome.network g) as [s|]; [|discriminate].
  now exists s.
Qed.

Lemma json_copy_shape counts n s :
  Stage.shape counts n s = true -> Stage.shape counts n (Save.json_copy s) = true.
Proof.
  rewrite !shape_spec. cbn. now rewrite length_map.
Qed.

Section Uniform.
Variable opts : Options.
Variable this : Generation.t.
Variables (counts : list nat) (n : nat).
Hypothesis Hu : Stage.uniform counts n this = true.

Definition shaped_all (nexts : list Save.t) : Prop :=
  Forall (fun s => Stage.shape counts n s = true) nexts.

Lemma shaped_all_push nexts s :
  Stage.shape counts n s = true -> shaped_all nexts -> shaped_all (nexts ++ [s]).
Proof.
  intros Hs H. apply Forall_app. split; trivial. now constructor.
Qed.

Lemma elitism_step_shaped s i r s' r' :
  Generation.elitism_step opts this s i r = Ok s' r' ->
  shaped_all s -> shaped_all s'.
Proof.
  unfold Generation.elitism_step.
  destruct (Generation.below_population opts s).
  - destruct (nth_error _ i) as [g|] eqn:Eg; [|discriminate].
    destruct (@uniform_In counts n this g Hu (nth_error_In _ _ Eg)) as (x & Ex & Sx).
    rewrite Ex. unfold ret. intros [= <- <-] H.
    apply shaped_all_push; trivial. now apply json_copy_shape.
  - unfold ret. now intros [= <- <-].
Qed.

Lemma random_step_shaped s i r s' r' :
  Generation.random_step opts this s i r = Ok s' r' ->
  shaped_all s -> shaped_all s'.
Proof.
  unfold Generation.random_step.
  destruct (nth_error _ 0) as [g|] eqn:Eg; [|discriminate].
  destruct (@uniform_In counts n this g Hu (nth_error_In _ _ Eg)) as (x & Ex & Sx).
  rewrite Ex. unfold bind.
  destruct (Generation.randomize _ r) as [ws r1| |] eqn:Er; try discriminate.
  apply randomize_length in Er.
  destruct (Generation.below_population opts s); unfold ret;
    intros [= <- <-]; trivial.
  intros H. apply shaped_all_push; trivial.
  apply shape_spec in Sx as [S1 S2]. apply shape_spec. cbn. split; trivial.
  rewrite Er. cbn. now rewrite length_map.
Qed.

Lemma breed_shaped g1 g2 nb r cs r' :
  In g1 (Generation.genomes this) -> In g2 (Generation.genomes this) ->
  Generation.breed opts g1 g2 nb r = Ok cs r' ->
  Forall (fun c => Stage.shape counts n (Generation.child_network c) = true) cs.
Proof.
  intros H1 H2 E.
  destruct (@uniform_In counts n this g1 Hu H1) as (s1 & E1 & S1).
  destruct (@uniform_In counts n this g2 Hu H2) as (s2 & E2 & S2).
  apply shape_spec in S1 as [N1 L1]. apply shape_spec in S2 as [N2 L2].
  destruct (@BreedFacts.breed_children_shape opts g1 g2 s1 s2 (Z.to_nat nb) r)
    as (cs' & r'' & E' & _ & F); trivial; [congruence|].
  unfold Generation.breed in E. rewrite E' in E. injection E as -> ->.
  eapply Forall_impl; [|exact F]. intros c [Hc1 Hc2]. apply shape_spec.
  split; congruence.
Qed.

Lemma generate_shaped fuel r nexts r' :
  Generation.generateNextGeneration opts fuel this r = Ok nexts r' ->
  shaped_all nexts.
Proof.
  unfold Generation.generateNextGeneration, bind.
  destruct (Generation.rounded_loop _ _ _ _ _ r) as [n1 r1| |] eqn:E1;
    try discriminate.
  destruct (Generation.rounded_loop _ _ _ _ _ r1) as [n2 r2| |] eqn:E2;
    try discriminate.
  intros H.
  apply rounded_loop_preserves with (P := shaped_all) in E1;
    [| apply elitism_step_shaped | constructor].
  apply rounded_loop_preserves with (P := shaped_all) in E2;
    [| apply random_step_shaped | exact E1].
  revert H E2.
  apply (@breeding_keeps opts this shaped_all
           (fun c => Stage.shape counts n (Generation.child_network c) = true)).
  - intros nx c Hc Hn. now apply shaped_all_push.
  - intros g1 g2 nb r0 cs r0'. apply breed_shaped.
Qed.

End Uniform.

Section Elites.
Variable opts : Options.
Variable this : Generation.t.

Lemma generate_elites fuel r nexts r' e :
  Generation.generateNextGeneration opts fuel this r = Ok nexts r' ->
  round_iterations (elitism opts * of_Z (population opts)) = Finite e ->
  forall i, (i < e)%nat -> (Z.of_nat i < population opts)%Z ->
    copied this nexts i.
Proof.
  unfold Generation.generateNextGeneration, bind, Generation.rounded_loop at 1.
  intros H He. rewrite He in H.
  destruct (foldM (Generation.elitism_step opts this) (seq 0 e) [] r)
    as [n1 r1| |] eqn:E1; try discriminate.
  destruct (Generation.rounded_loop _ _ _ _ _ r1) as [n2 r2| |] eqn:E2;
    try discriminate.
  apply elitism_loop_copies in E1 as [L1 C1];
    [| now left | cbn; intros i Hi; lia].
  apply rounded_loop_preserves with (P := extends n1) in E2;
    [| intros s x r0 s' r0'; apply random_step_extends | apply extends_refl].
  apply breeding_extends in H.
  intros i Hi Hp.
  assert (Hlt : (i < length n1)%nat).
  { destruct L1 as [L1|L1]; [cbn in L1; lia|].
    unfold Generation.below_population in L1.
    destruct (Z.ltb_spec (Z.of_nat (length n1)) (population opts));
      [discriminate | lia]. }
  destruct (C1 i Hlt) as (g & s & Eg & Es & En).
  exists g, s. repeat split; trivial.
  eapply extends_nth; [exact H|]. eapply extends_nth; [exact E2 | exact En].
Qed.

End Elites.

End UniformFacts.

(** ** More on breed: what the random draws decide *)

Module BreedMore.
Import MonadFacts ArrayFacts BreedFacts.

(** Whenever [m] completes, the random source is the same sequence, further
    on. *)
Definition keeps {A} (m : M A) : Prop :=
  forall r x r', m r = Ok x r' -> draws r' = draws r.

Lemma keeps_ret {A} (a : A) : keeps (ret a).
Proof. intros r x r'. unfold ret. now intros [= _ <-]. Qed.

Lemma keeps_bind {A B} (m : M A) (k : A -> M B) :
  keeps m -> (forall x, keeps (k x)) -> keeps (bind m k).
Proof.
  intros Hm Hk r y r'. unfold bind.
  destruct (m r) as [x r1| |] eqn:E; try discriminate.
  intros H. apply Hk in H. apply Hm in E. congruence.
Qed.

Lemma keeps_random : keeps Math_random.
Proof. intros r x r'. unfold Math_random. now intros [= _ <-]. Qed.

Lemma keeps_foldM {A S} (body : S -> A -> M S) l :
  (forall s x, keeps (body s x)) -> forall s, keeps (foldM body l s).
Proof.
  intros Hb. induction l as [|x l IH]; intros s; cbn.
  - apply keeps_ret.
  - apply keeps_bind; [apply Hb | exact IH].
Qed.

Lemma keeps_crossover_step w2 w i : keeps (Generation.crossover_step w2 w i).
Proof.
  unfold Generation.crossover_step. apply keeps_bind; [apply keeps_random|].
  intros x. destruct (_ <=? _)%float; apply keeps_ret.
Qed.

Lemma keeps_mutation_step opts w i : keeps (Generation.mutation_step opts w i).
Proof.
  unfold Generation.mutation_step. apply keeps_bind; [apply keeps_random|].
  intros x. destruct (_ <=? _)%float; [|apply keeps_ret].
  apply keeps_bind; [apply keeps_random|]. intros y. apply keeps_ret.
Qed.

Lemma keeps_breed_one opts g1 g2 : keeps (Generation.breed_one opts g1 g2).
Proof.
  unfold Generation.breed_one.
  destruct (Genome.network g1), (Genome.network g2);
    try (intros r x r'; discriminate).
  apply keeps_bind.
  - apply keeps_foldM. intros s x. apply keeps_crossover_step.
  - intros w. apply keeps_bind.
    + apply keeps_foldM. intros s x. apply keeps_mutation_step.
    + intros w'. apply keeps_ret.
Qed.

(** What holds of one child, given a property of the random sequence, holds
    of all the children. *)
Lemma breed_children_all opts g1 g2 (D : (nat -> float) -> Prop)
    (Q : Generation.child -> Prop) :
  (forall r, D (draws r) ->
     exists c r', Generation.breed_one opts g1 g2 r = Ok c r' /\ Q c) ->
  forall nb r, D (draws r) ->
    exists cs r',
      Generation.breed_children opts g1 g2 nb r = Ok cs r'
      /\ length cs = nb /\ Forall Q cs.
Proof.
  intros H nb. induction nb as [|nb IH]; intros r Hr; cbn.
  - exists [], r. repeat split. constructor.
  - destruct (H r Hr) as (c & r1 & Ec & Qc).
    pose proof (keeps_breed_one _ _ _ _ Ec) as K.
    destruct (IH r1) as (cs & r2 & Ecs & L & F); [now rewrite K|].
    unfold bind. rewrite Ec, Ecs. exists (c :: cs), r2.
    repeat split; cbn; [congruence | now constructor].
Qed.

(** *** Draws that never cross, draws that always cross *)

Lemma crossover_step_keep w2 w k r :
  (draws r (cursor r) <=? 0.5)%float = false ->
  Generation.crossover_step w2 w k r
  = Ok w {| draws := draws r; cursor := S (cursor r) |}.
Proof.
  intros H. unfold Generation.crossover_step, bind, Math_random, ret.
  now rewrite H.
Qed.

Lemma crossover_step_take w2 w k r :
  (draws r (cursor r) <=? 0.5)%float = true ->
  Generation.crossover_step w2 w k r
  = Ok (array_set w k (array_get w2 k))
       {| draws := draws r; cursor := S (cursor r) |}.
Proof.
  intros H. unfold Generation.crossover_step, bind, Math_random, ret.
  now rewrite H.
Qed.

Lemma crossover_never w2 ks :
  forall w r,
    (forall i, (draws r i <=? 0.5)%float = false) ->
    exists r', foldM (Generation.crossover_step w2) ks w r = Ok w r'
               /\ draws r' = draws r.
Proof.
  induction ks as [|k ks IH]; intros w r H; cbn.
  - now exists r.
  - unfold bind. rewrite crossover_step_keep by apply H.
    destruct (IH w {| draws := draws r; cursor := S (cursor r) |}) as (r' & E & D);
      [exact H|].
    exists r'. now split.
Qed.

Lemma mutation_never opts ks :
  forall w r,
    (forall i, (draws r i <=? mutationRate opts)%float = false) ->
    exists r', foldM (Generation.mutation_step opts) ks w r = Ok w r'
               /\ draws r' = draws r.
Proof.
  induction ks as [|k ks IH]; intros w r H; cbn.
  - now exists r.
  - unfold bind. rewrite mutation_step_idle by apply H.
    destruct (IH w {| draws := draws r; cursor := S (cursor r) |}) as (r' & E & D);
      [exact H|].
    exists r'. now split.
Qed.

Lemma array_set_dense a i v :
  Shape.dense a = true -> v <> Hole -> (i < length a)%nat ->
  Shape.dense (array_set a i v) = true.
Proof.
  revert i. induction a as [|x a IH]; intros [|i] D Hv Hi; cbn in *; try lia.
  - apply andb_prop in D as [_ D]. apply andb_true_intro. split; trivial.
    now destruct v.
  - apply andb_prop in D as [Dx D]. apply andb_true_intro. split; trivial.
    apply IH; trivial. lia.
Qed.

Lemma crossover_always w2 ks :
  forall w r,
    (forall i, (draws r i <=? 0.5)%float = true) ->
    (forall k, In k ks -> (k < length w)%nat) ->
    Shape.dense w = true ->
    exists w' r',
      foldM (Generation.crossover_step w2) ks w r = Ok w' r'
      /\ draws r' = draws r
      /\ length w' = length w
      /\ Shape.dense w' = true
      /\ (forall j, In j ks -> array_get w' j = array_get w2 j)
      /\ (forall j, ~ In j ks -> array_get w' j = array_get w j).
Proof.
  induction ks as [|k ks IH]; intros w r H Hk D; cbn.
  - exists w, r. repeat split; trivial. intros j [].
  - unfold bind. rewrite crossover_step_take by apply H.
    destruct (IH (array_set w k (array_get w2 k))
                 {| draws := draws r; cursor := S (cursor r) |})
      as (w' & r' & E & Dr & L & Dw & In1 & In2).
    + exact H.
    + intros k' Hk'. rewrite array_set_length; apply Hk; now (left + right).
    + apply array_set_dense; trivial; [apply array_get_not_hole|].
      apply Hk. now left.
    + exists w', r'. rewrite array_set_length in L by (apply Hk; now left).
      repeat split; trivial.
      * intros j [<-|Hj]; [|now apply In1].
        destruct (in_dec Nat.eq_dec k ks) as [I|I]; [now apply In1|].
        rewrite (In2 k I). apply array_get_set_same, array_get_not_hole.
      * intros j Hj. rewrite In2 by tauto.
        apply array_get_set_other. intros ->. apply Hj. now left.
Qed.

Lemma keys_dense a i :
  Shape.dense a = true -> Generation.keys_from a i = seq i (length a).
Proof.
  revert i. induction a as [|x a IH]; intros i D; cbn in *; trivial.
  apply andb_prop in D as [Dx D].
  destruct x; try discriminate; now rewrite IH.
Qed.

Lemma dense_ext a b :
  Shape.dense a = true -> Shape.dense b = true -> length a = length b ->
  (forall j, (j < length a)%nat -> array_get a j = array_get b j) ->
  a = b.
Proof.
  revert b. induction a as [|x a IH]; intros [|y b] Da Db L H; cbn in *;
    try discriminate; trivial.
  apply andb_prop in Da as [Dx Da]. apply andb_prop in Db as [Dy Db].
  f_equal.
  - specialize (H 0%nat ltac:(lia)). unfold array_get in H. cbn in H.
    destruct x, y; try discriminate; trivial.
  - apply IH; trivial; [lia|]. intros j Hj.
    apply (H (S j)). lia.
Qed.

Lemma json_dense ws : Shape.dense (map json_val ws) = true.
Proof.
  induction ws as [|w ws IH]; cbn; trivial.
  apply andb_true_intro. split; trivial.
  destruct w as [f| | |]; trivial. unfold json_val.
  destruct (PrimFloat.is_finite f); [destruct (PrimFloat.is_zero f)|]; reflexivity.
Qed.

(** One child when no draw crosses and none mutates. *)
Lemma breed_one_copy opts g1 g2 n1 n2 r :
  Genome.network g1 = Some n1 ->
  Genome.network g2 = Some n2 ->
  (forall i, (draws r i <=? 0.5)%float = false) ->
  (forall i, (draws r i <=? mutationRate opts)%float = false) ->
  exists r',
    Generation.breed_one opts g1 g2 r
    = Ok {| Generation.child_score := json_val (Genome.score g1);
            Generation.child_network := Save.json_copy n1 |} r'.
Proof.
  intros E1 E2 Hc Hm. unfold Generation.breed_one, bind. rewrite E1, E2.
  destruct (@crossover_never (Save.weights n2) (Generation.keys (Save.weights n2))
              (Save.weights (Save.json_copy n1)) r Hc) as (r1 & Ec & D1).
  rewrite Ec.
  destruct (@mutation_never opts (Generation.keys (Save.weights (Save.json_copy n1)))
              (Save.weights (Save.json_copy n1)) r1) as (r2 & Em & D2).
  { intros i. rewrite D1. apply Hm. }
  rewrite Em. now exists r2.
Qed.

(** One child when every draw crosses and none mutates. *)
Lemma breed_one_other opts g1 g2 n1 n2 r :
  Genome.network g1 = Some n1 ->
  Genome.network g2 = Some n2 ->
  Shape.dense (Save.weights n2) = true ->
  length (Save.weights n1) = length (Save.weights n2) ->
  (forall i, (draws r i <=? 0.5)%float = true) ->
  (forall i, (draws r i <=? mutationRate opts)%float = false) ->
  exists r',
    Generation.breed_one opts g1 g2 r
    = Ok {| Generation.child_score := json_val (Genome.score g1);
            Generation.child_network :=
              {| Save.neurons := Save.neurons n1;
                 Save.weights := Save.weights n2 |} |} r'.
Proof.
  intros E1 E2 D2 L Hc Hm. unfold Generation.breed_one, bind. rewrite E1, E2.
  destruct (@crossover_always (Save.weights n2) (Generation.keys (Save.weights n2))
              (Save.weights (Save.json_copy n1)) r Hc)
    as (w & r1 & Ec & Dr & Lw & Dw & In1 & _).
  { intros k Hk%keys_bound. cbn. rewrite length_map. lia. }
  { apply json_dense. }
  rewrite Ec.
  assert (Ew : w = Save.weights n2).
  { cbn in Lw. rewrite length_map in Lw.
    apply dense_ext; trivial; [congruence|].
    intros j Hj. apply In1. unfold Generation.keys.
    rewrite keys_dense by trivial. apply in_seq. lia. }
  subst w.
  destruct (@mutation_never opts (Generation.keys (Save.weights n2))
              (Save.weights n2) r1) as (r2 & Em & _).
  { intros i. rewrite Dr. apply Hm. }
  rewrite Em. now exists r2.
Qed.

End BreedMore.

(** ** More on the engine: first population, pruning, scores *)

Module EngineFacts.
Import Draws DrawFacts Shape NetworkFacts NetworkMore History.

(** *** JSON copies *)

Lemma is_zero_spec f :
  PrimFloat.is_zero f = true -> exists s, Prim2SF f = S754_zero s.
Proof.
  unfold PrimFloat.is_zero. rewrite FloatAxioms.eqb_spec.
  change (Prim2SF zero) with (S754_zero false).
  destruct (Prim2SF f) as [s|s| |s m e]; cbn; try discriminate.
  - intros _. now exists s.
  - destruct s; discriminate.
  - destruct s; discriminate.
Qed.

Lemma SFcompare_refl s m e :
  SFcompare (S754_finite s m e) (S754_finite s m e) = Some Eq.
Proof.
  cbn. rewrite Z.compare_refl, Pos.compare_cont_refl. now destruct s.
Qed.

Lemma finite_spec f :
  PrimFloat.is_finite f = true <->
  (exists s, Prim2SF f = S754_zero s)
  \/ (exists s m e, Prim2SF f = S754_finite s m e).
Proof.
  unfold PrimFloat.is_finite, PrimFloat.is_nan, PrimFloat.is_infinity.
  rewrite !FloatAxioms.eqb_spec, FloatAxioms.abs_spec.
  change (Prim2SF infinity) with (S754_infinity false).
  destruct (Prim2SF f) as [s|s| |s m e].
  - split; [intros _; left; now exists s | reflexivity].
  - split; [now destruct s | intros [[? H]|(? & ? & ? & H)]; discriminate].
  - split; [discriminate | intros [[? H]|(? & ? & ? & H)]; discriminate].
  - split; [intros _; right; now exists s, m, e|intros _].
    unfold SFeqb. rewrite SFcompare_refl. reflexivity.
Qed.

Lemma plain_json v : Json.plain v = true <-> json_val v = v.
Proof.
  destruct v as [f| | |]; try (split; [discriminate|discriminate]);
    [|split; reflexivity].
  unfold Json.plain, json_val.
  destruct (PrimFloat.is_finite f) eqn:F.
  - apply finite_spec in F.
    destruct (PrimFloat.is_zero f) eqn:Z.
    + apply is_zero_spec in Z as [s Z]. rewrite Z. destruct s; cbn.
      * split; [discriminate|]. intros [= E]. rewrite <- E in Z. discriminate.
      * split; [intros _|reflexivity]. f_equal. apply Prim2SF_inj.
        rewrite Z. reflexivity.
    + split; [reflexivity|intros _].
      destruct F as [[s E]|(s & m & e & E)]; rewrite E; [|reflexivity].
      unfold PrimFloat.is_zero in Z. rewrite FloatAxioms.eqb_spec, E in Z.
      discriminate.
  - split; [|discriminate]. intros P.
    assert (F' : PrimFloat.is_finite f = true); [|congruence].
    apply finite_spec. destruct (Prim2SF f) as [s|s| |s m e]; try discriminate.
    + left. now exists s.
    + right. now exists s, m, e.
Qed.

Lemma json_val_idem v : json_val (json_val v) = json_val v.
Proof.
  destruct v as [f| | |]; trivial.
  assert (E : json_val (Num f)
              = if PrimFloat.is_finite f
                then (if PrimFloat.is_zero f then Num 0 else Num f)
                else Null) by reflexivity.
  destruct (PrimFloat.is_finite f) eqn:F.
  - destruct (PrimFloat.is_zero f) eqn:Z.
    + rewrite E. reflexivity.
    + rewrite E. unfold json_val. now rewrite F, Z.
  - rewrite E. reflexivity.
Qed.

(** *** What [getSave] returns on a well-formed network *)

Lemma flat_layers_length prev ls :
  shaped prev ls = true ->
  length (flat_layers ls)
  = expected_from prev (map (fun l => length (Layer.neurons l)) ls).
Proof.
  revert prev. induction ls as [|l ls IH]; intros prev S; trivial.
  change (flat_layers (l :: ls))
    with (flat_map (fun n => Network.present (Neuron.weights n))
            (Layer.neurons l) ++ flat_layers ls).
  cbn [map expected_from]. cbn [shaped] in S. apply andb_prop in S as [F S].
  rewrite length_app, (@flat_neurons_length prev (Layer.neurons l) F), (IH _ S).
  reflexivity.
Qed.

Lemma getSave_shape n :
  well_formed n = true ->
  Stage.shape (sizes n) (expected_weights (sizes n)) (Network.getSave n) = true.
Proof.
  intros W. apply UniformFacts.shape_spec. split; [reflexivity|].
  apply (flat_layers_length _ _ W).
Qed.

(** *** firstGeneration *)

Lemma first_steps opts n :
  forall a out r,
    exists more,
      foldM (Generations.first_step opts) (seq a n) out r
      = Ok (out ++ more)
           (advance r (n * expected_weights (Stage.topology opts)))
      /\ length more = n
      /\ Forall (fun s => Stage.shape (Stage.topology opts)
                            (expected_weights (Stage.topology opts)) s = true)
                more.
Proof.
  unfold Stage.topology. destruct (network opts) as [[input hidden] output] eqn:N.
  induction n as [|n IH]; intros a out r; cbn.
  - exists []. rewrite app_nil_r, advance_0. repeat split. constructor.
  - unfold bind, Generations.first_step at 1. rewrite N.
    destruct (perceptronGeneration_spec input hidden output r)
      as (nn & r1 & E & W & S).
    pose proof (@exactly_perceptronGeneration Network.new input hidden output
                  r nn r1 E) as Hr.
    unfold bind. rewrite E. unfold ret.
    destruct (IH (Datatypes.S a) (out ++ [Network.getSave nn]) r1)
      as (more & E' & L & F).
    rewrite E'. exists (Network.getSave nn :: more).
    rewrite <- app_assoc. cbn. split.
    + f_equal. rewrite Hr, advance_advance. f_equal.
    + split; [congruence|]. constructor; trivial.
      pose proof (getSave_shape nn W) as G. now rewrite S in G.
Qed.

Lemma firstGeneration_spec opts this r :
  exists out,
    Generations.firstGeneration opts this r
    = Ok ({| Generations.generations :=
               Generations.generations this ++ [Generation.new] |}, out)
         (advance r (Z.to_nat (population opts)
                     * expected_weights (Stage.topology opts)))
    /\ length out = Z.to_nat (population opts)
    /\ Forall (fun s => Stage.shape (Stage.topology opts)
                          (expected_weights (Stage.topology opts)) s = true)
              out.
Proof.
  unfold Generations.firstGeneration, bind.
  destruct (first_steps opts (Z.to_nat (population opts)) 0 [] r)
    as (out & E & L & F).
  rewrite E. exists out. now repeat split.
Qed.

(** *** Wrapping saves into networks *)

Lemma wrap_steps counts saves :
  Forall (fun s => Save.neurons s = counts) saves ->
  forall nns r,
    exists more,
      foldM BirdBrain.wrap_step saves nns r
      = Ok (nns ++ more)
           (advance r (length saves * expected_weights counts))
      /\ length more = length saves
      /\ Forall (fun n => well_formed n = true /\ sizes n = counts) more.
Proof.
  induction 1 as [|s saves Hs Hall IH]; intros nns r; cbn.
  - exists []. rewrite app_nil_r, advance_0. repeat split. constructor.
  - unfold bind, BirdBrain.wrap_step at 1, bind.
    destruct (setSave_spec Network.new s r) as (r1 & E).
    pose proof (@exactly_setSave Network.new s r _ r1 E) as Hr.
    rewrite E. unfold ret.
    destruct (IH (nns ++ [ {| Network.layers :=
                               rebuilt (Save.weights s) (Save.neurons s) 0 0 0 |} ])
                 r1) as (more & E' & L & F).
    rewrite E'. eexists (_ :: more). rewrite <- app_assoc. cbn. split.
    + f_equal. rewrite Hr, Hs, advance_advance. f_equal.
    + split; [congruence|]. constructor; trivial. split.
      * apply rebuilt_shaped.
      * unfold sizes. cbn. rewrite rebuilt_sizes. exact Hs.
Qed.

(** The first call. *)
Lemma first_call self opts fuel this r :
  history this = [] ->
  (-1 <= historic opts)%Z ->
  exists nns,
    BirdBrain.nextGeneration self opts fuel this r
    = ({| BirdBrain.generations :=
            {| Generations.generations := [Generation.new] |} |},
       Ok nns
          (advance r
             (2 * (Z.to_nat (population opts)
                   * expected_weights (Stage.topology opts)))))
    /\ length nns = Z.to_nat (population opts)
    /\ Forall (fun n => well_formed n = true
                        /\ sizes n = Stage.topology opts) nns.
Proof.
  unfold history. intros H Hh. unfold BirdBrain.nextGeneration.
  rewrite H. unfold bind.
  destruct (firstGeneration_spec opts (BirdBrain.generations this) r)
    as (out & E & L & F).
  rewrite E, H. unfold ret. cbn [fst snd app].
  assert (F' : Forall (fun s => Save.neurons s = Stage.topology opts) out).
  { eapply Forall_impl; [|exact F]. intros s Hs.
    now apply UniformFacts.shape_spec in Hs. }
  destruct (@wrap_steps (Stage.topology opts) out F' []
              (advance r
                 (Z.to_nat (population opts)
                  * expected_weights (Stage.topology opts))))
    as (more & E' & L' & W).
  rewrite E'. cbn [app Generations.generations].
  unfold BirdBrain.remove_old_networks. cbn [length Nat.leb].
  replace (if lowHistoric opts then Normal [Generation.new]
           else Normal [Generation.new])
    with (Normal [Generation.new] : completion (list Generation.t))
    by now destruct (lowHistoric opts).
  unfold BirdBrain.remove_older_generations. cbn [length].
  replace (if (historic opts =? -1)%Z then [Generation.new]
           else if (historic opts + 1 <? Z.of_nat 1)%Z
                then skipn (Z.to_nat (Z.of_nat 1 - (historic opts + 1)))
                       [Generation.new]
                else [Generation.new])
    with [Generation.new].
  2:{ destruct (Z.eqb_spec (historic opts) (-1)); trivial.
      destruct (Z.ltb_spec (historic opts + 1) (Z.of_nat 1)); trivial. lia. }
  exists more. split; [|split; [congruence | exact W]].
  rewrite advance_advance, L. do 3 f_equal. lia.
Qed.

(** *** Pruning *)

Lemma remove_older_snoc opts old :
  (-1 <= historic opts)%Z ->
  exists dropped kept,
    old = dropped ++ kept
    /\ BirdBrain.remove_older_generations opts (old ++ [Generation.new])
       = kept ++ [Generation.new]
    /\ length kept
       = (if (historic opts =? -1)%Z then length old
          else Nat.min (length old) (Z.to_nat (historic opts))).
Proof.
  intros H. unfold BirdBrain.remove_older_generations.
  destruct (Z.eqb_spec (historic opts) (-1)) as [E|E].
  - exists [], old. now repeat split.
  - rewrite length_app. cbn [length].
    destruct (Z.ltb_spec (historic opts + 1) (Z.of_nat (length old + 1))) as [Lt|Ge].
    + set (k := Z.to_nat (Z.of_nat (length old + 1) - (historic opts + 1))).
      assert (Hk : (k <= length old)%nat) by (unfold k; lia).
      exists (firstn k old), (skipn k old). split; [now rewrite firstn_skipn|].
      split.
      * rewrite skipn_app. replace (k - length old)%nat with 0%nat by lia.
        reflexivity.
      * rewrite length_skipn. unfold k. lia.
    + exists [], old. repeat split. lia.
Qed.

Lemma remove_old_networks_window opts gens gs :
  BirdBrain.remove_old_networks BirdBrain.window opts gens = Normal gs ->
  gs = gens.
Proof.
  unfold BirdBrain.remove_old_networks.
  destruct (lowHistoric opts); [|now intros [= <-]].
  destruct (2 <=? length gens)%nat; [discriminate | now intros [= <-]].
Qed.

(** A call that returns (in the page, where [self] has no [generations])
    appended a fresh Generation and dropped only the oldest ones. *)
Lemma nextGeneration_history opts fuel this r this' nns r' :
  (-1 <= historic opts)%Z ->
  BirdBrain.nextGeneration BirdBrain.window opts fuel this r
  = (this', Ok nns r') ->
  exists dropped kept,
    history this = dropped ++ kept
    /\ history this' = kept ++ [Generation.new]
    /\ length kept
       = (if (historic opts =? -1)%Z then length (history this)
          else Nat.min (length (history this)) (Z.to_nat (historic opts))).
Proof.
  intros Hh. unfold BirdBrain.nextGeneration, history.
  assert (Hprod :
    forall gens networks r1,
      match Generations.generations (BirdBrain.generations this) with
      | [] =>
          (x <- Generations.firstGeneration opts (BirdBrain.generations this) ;;
           ret (fst x, Generations.Networks (snd x))) r
      | _ :: _ =>
          Generations.nextGeneration opts fuel (BirdBrain.generations this) r
      end = Ok (gens, networks) r1 ->
      Generations.generations gens
      = Generations.generations (BirdBrain.generations this) ++ [Generation.new]).
  { intros gens networks r1.
    destruct (Generations.generations (BirdBrain.generations this)) as [|g gs] eqn:E.
    - unfold bind.
      destruct (firstGeneration_spec opts (BirdBrain.generations this) r)
        as (out & Ef & _).
      rewrite Ef. unfold ret. cbn. intros [= <- _ _]. cbn. now rewrite E.
    - unfold Generations.nextGeneration, bind. rewrite E.
      destruct (Generation.generateNextGeneration _ _ _ r); try discriminate.
      unfold ret. now intros [= <- _ _]. }
  match goal with
  | |- context [match ?p with Ok _ _ => _ | Throw _ => _ | Diverge => _ end] =>
      destruct p as [[gens networks] r1| |] eqn:Ep
  end; try discriminate.
  specialize (Hprod gens networks r1 eq_refl). clear Ep. rename Hprod into Ep.
  destruct (foldM BirdBrain.wrap_step _ [] r1) as [nns' r2| |]; try discriminate.
  destruct (BirdBrain.remove_old_networks BirdBrain.window opts _) as [gs|] eqn:Er;
    try discriminate.
  apply remove_old_networks_window in Er. subst gs.
  intros [= <- _ _]. cbn. rewrite Ep.
  destruct (remove_older_snoc opts
              (Generations.generations (BirdBrain.generations this)) Hh)
    as (dropped & kept & E1 & E2 & E3).
  now exists dropped, kept.
Qed.

(** Whatever the saves, the networks built from them are well formed. *)
Lemma wrap_steps_any saves :
  forall nns r,
    exists more r',
      foldM BirdBrain.wrap_step saves nns r = Ok (nns ++ more) r'
      /\ Forall2 (fun s n => well_formed n = true /\ sizes n = Save.neurons s)
                 saves more.
Proof.
  induction saves as [|s saves IH]; intros nns r; cbn.
  - exists [], r. rewrite app_nil_r. split; [reflexivity|constructor].
  - unfold bind, BirdBrain.wrap_step at 1, bind.
    destruct (setSave_spec Network.new s r) as (r1 & E). rewrite E. unfold ret.
    destruct (IH (nns ++ [ {| Network.layers :=
                               rebuilt (Save.weights s) (Save.neurons s) 0 0 0 |} ])
                 r1) as (more & r' & E' & F).
    rewrite E'. eexists (_ :: more), r'. rewrite <- app_assoc. cbn.
    split; [reflexivity|]. constructor; trivial. split.
    + apply rebuilt_shaped.
    + unfold sizes. cbn. apply rebuilt_sizes.
Qed.

Lemma nextGeneration_networks self opts fuel this r this' nns r' :
  BirdBrain.nextGeneration self opts fuel this r = (this', Ok nns r') ->
  Forall (fun n => well_formed n = true) nns.
Proof.
  unfold BirdBrain.nextGeneration.
  match goal with
  | |- context [match ?p with Ok _ _ => _ | Throw _ => _ | Diverge => _ end] =>
      destruct p as [[gens networks] r1| |]
  end; try discriminate.
  match goal with
  | |- context [foldM BirdBrain.wrap_step ?saves [] r1] =>
      destruct (wrap_steps_any saves [] r1) as (more & r2 & E & F); rewrite E
  end.
  destruct (BirdBrain.remove_old_networks self opts _); try discriminate.
  intros [= _ <- _]. cbn.
  clear E. induction F as [|s n saves more [W _] F IH]; constructor; trivial.
Qed.

(** *** Scores *)

Lemma set_last_snoc {A} (l : list A) (x y : A) :
  Generations.set_last (l ++ [x]) y = l ++ [y].
Proof.
  induction l as [|a l IH]; trivial.
  cbn [app]. destruct l as [|b l]; [reflexivity|].
  change (Generations.set_last (a :: (b :: l) ++ [x]) y)
    with (a :: Generations.set_last ((b :: l) ++ [x]) y).
  now rewrite IH.
Qed.

Lemma addGenome_snoc opts older current genome :
  Generations.addGenome opts
    {| Generations.generations := older ++ [current] |} genome
  = ({| Generations.generations :=
          older ++ [Generation.addGenome opts current genome] |},
     Generations.Added).
Proof.
  unfold Generations.addGenome. cbn [Generations.generations].
  destruct (older ++ [current]) as [|g gs] eqn:E.
  - now destruct older.
  - rewrite <- last_cons with (d := g), <- E, last_last, set_last_snoc.
    reflexivity.
Qed.

Lemma networkScore_snoc opts this older current network score :
  history this = older ++ [current] ->
  exists before after,
    Generation.genomes current = before ++ after
    /\ history (BirdBrain.networkScore opts this network score)
       = older ++ [ {| Generation.genomes :=
                         before ++ Genome.new score (Network.getSave network)
                                :: after |} ].
Proof.
  unfold history, BirdBrain.networkScore. intros H. cbn [BirdBrain.generations].
  destruct (BirdBrain.generations this) as [gens]. cbn in H. subst gens.
  rewrite addGenome_snoc. cbn [fst Generations.generations].
  destruct (@AddGenomeFacts.scan_split opts
              (Genome.new score (Network.getSave network))
              (Generation.genomes current))
    as (before & after & E & Hs & _).
  exists before, after. split; [exact E|].
  unfold Generation.addGenome. rewrite Hs, E.
  now rewrite AddGenomeFacts.splice_in_split.
Qed.

Lemma json_copy_fixed s :
  Save.json_copy s = s <-> forallb Json.plain (Save.weights s) = true.
Proof.
  destruct s as [ns ws]. unfold Save.json_copy. cbn [Save.neurons Save.weights].
  split.
  - intros [= E]. induction ws as [|w ws IH]; trivial.
    cbn in E. injection E as Ew Ews. cbn. rewrite (proj2 (plain_json w) Ew).
    now apply IH.
  - intros F. f_equal. induction ws as [|w ws IH]; trivial.
    cbn in F. apply andb_prop in F as [P F]. cbn.
    now rewrite (proj1 (plain_json w) P), IH.
Qed.

Lemma json_copy_idem s : Save.json_copy (Save.json_copy s) = Save.json_copy s.
Proof.
  unfold Save.json_copy. cbn. f_equal. rewrite map_map.
  apply map_ext. intros v. apply json_val_idem.
Qed.

End EngineFacts.

(** ** The game *)

Module ListFacts.

Lemma put_split {A} (l : list A) i x v :
  nth_error l i = Some x ->
  l = firstn i l ++ x :: skipn (S i) l
  /\ Game.put l i v = firstn i l ++ v :: skipn (S i) l.
Proof.
  unfold Game.put. revert i. induction l as [|a l IH]; intros [|i] H;
    try discriminate.
  - injection H as ->. now split.
  - cbn in H. destruct (IH i H) as [E1 E2].
    change (firstn (S i) (a :: l)) with (a :: firstn i l).
    change (skipn (S (S i)) (a :: l)) with (skipn (S i) l).
    cbn [app BirdBrain.update_nth]. split; f_equal; assumption.
Qed.

Lemma put_length {A} (l : list A) i v : length (Game.put l i v) = length l.
Proof.
  unfold Game.put. revert i. induction l as [|a l IH]; intros [|i]; cbn; auto.
Qed.

Lemma put_snoc {A} (done todo : list A) x v :
  Game.put (done ++ x :: todo) (length done) v = done ++ v :: todo.
Proof.
  unfold Game.put. induction done as [|a done IH]; cbn; [reflexivity|].
  now rewrite IH.
Qed.

Lemma remove_at_snoc {A} (done todo : list A) x :
  Game.remove_at (done ++ x :: todo) (length done) = done ++ todo.
Proof.
  unfold Game.remove_at. induction done as [|a done IH]; [reflexivity|].
  cbn [length app]. change (firstn (S (length done)) (a :: done ++ x :: todo))
    with (a :: firstn (length done) (done ++ x :: todo)).
  change (skipn (S (S (length done))) (a :: done ++ x :: todo))
    with (skipn (S (length done)) (done ++ x :: todo)).
  cbn [app]. now rewrite IH.
Qed.

Lemma nth_error_snoc {A} (done todo : list A) :
  nth_error (done ++ todo) (length done) = nth_error todo 0.
Proof.
  rewrite nth_error_app2 by lia. now rewrite Nat.sub_diag.
Qed.

Lemma Forall_put {A} (P : A -> Prop) l i v :
  Forall P l -> P v -> Forall P (Game.put l i v).
Proof.
  unfold Game.put. intros F Pv. revert i.
  induction F as [|a l Pa F IH]; intros [|i]; cbn; constructor; auto.
Qed.

Lemma filter_length_put {A} (f : A -> bool) l i x v :
  nth_error l i = Some x ->
  (length (filter f (Game.put l i v)) + (if f x then 1 else 0)
   = length (filter f l) + (if f v then 1 else 0))%nat.
Proof.
  intros H. destruct (@put_split A l i x v H) as [E1 E2].
  rewrite E2. rewrite E1 at 3.
  rewrite !filter_app, !length_app. cbn [filter].
  destruct (f x), (f v); cbn [length]; lia.
Qed.

End ListFacts.

Module PipeFacts.
Import Play ListFacts.

Definition stays (p : Pipe.t) : bool := negb (Pipe.isOut p).

Lemma sweep_from todo :
  forall done turns,
    (length todo <= turns)%nat ->
    Game.sweep turns (done ++ todo) (length done)
    = Some (done ++ filter stays (map Pipe.update todo)).
Proof.
  induction todo as [|p todo IH]; intros done turns Ht.
  - assert (E : nth_error (done ++ []) (length done) = None)
      by (apply nth_error_None; rewrite app_nil_r; lia).
    destruct turns; cbn [Game.sweep]; rewrite E; reflexivity.
  - destruct turns as [|turns]; [cbn in Ht; lia|].
    cbn [Game.sweep]. rewrite nth_error_snoc. cbn [nth_error].
    rewrite put_snoc. cbn [map filter]. unfold stays at 1.
    cbn [length] in Ht.
    destruct (Pipe.isOut (Pipe.update p)); cbn [negb].
    + rewrite remove_at_snoc. apply IH. lia.
    + replace (done ++ Pipe.update p :: todo)
        with ((done ++ [Pipe.update p]) ++ todo)
        by now rewrite <- app_assoc.
      replace (S (length done)) with (length (done ++ [Pipe.update p]))
        by (rewrite length_app; cbn; lia).
      rewrite IH by lia. now rewrite <- app_assoc.
Qed.

Lemma sweep_all pipes :
  Game.sweep (length pipes) pipes 0
  = Some (filter stays (map Pipe.update pipes)).
Proof. exact (@sweep_from pipes [] (length pipes) (le_n _)). Qed.

Lemma paired_app a b : paired a -> paired b -> paired (a ++ b).
Proof.
  induction 1 as [|top bottom rest Hx Hw Hs Hy Hr IH]; intros Hb; trivial.
  cbn. constructor; auto.
Qed.

Lemma paired_swept pipes :
  paired pipes -> paired (filter stays (map Pipe.update pipes)).
Proof.
  induction 1 as [|top bottom rest Hx Hw Hs Hy Hr IH]; [constructor|].
  assert (E : stays (Pipe.update top) = stays (Pipe.update bottom)).
  { unfold stays, Pipe.isOut. cbn [Pipe.update Pipe.x Pipe.width].
    now rewrite Hx, Hw, Hs. }
  cbn [map filter]. rewrite E.
  destruct (stays (Pipe.update bottom)); trivial.
  constructor; cbn [Pipe.update Pipe.x Pipe.y Pipe.width Pipe.height Pipe.speed];
    congruence.
Qed.

Lemma paired_spawn this r pushed r' :
  Game.spawn this r = Ok pushed r' -> paired pushed.
Proof.
  unfold Game.spawn, bind, Math_random, ret. intros [= <- _].
  constructor; try reflexivity. constructor.
Qed.

End PipeFacts.

Module RoundFacts.
Import Play ListFacts Shape History.

Lemma nth_error_put_same {A} (l : list A) i x v :
  nth_error l i = Some x -> nth_error (Game.put l i v) i = Some v.
Proof.
  unfold Game.put. revert i. induction l as [|a l IH]; intros [|i] H;
    try discriminate; cbn; auto.
Qed.

Lemma forallb_through {A B} (f : A -> B) (p : B -> bool) l :
  forallb p (map f l) = forallb (fun x => p (f x)) l.
Proof. induction l as [|a l IH]; cbn; [|rewrite IH]; reflexivity. Qed.

Lemma shaped_ext ls : forall ls' prev,
  weights_of ls = weights_of ls' -> shaped prev ls = shaped prev ls'.
Proof.
  induction ls as [|l ls IH]; intros [|l' ls'] prev E; try discriminate;
    trivial.
  unfold weights_of in E. cbn [map] in E. injection E as E1 E2.
  cbn [shaped].
  assert (L : length (Layer.neurons l) = length (Layer.neurons l'))
    by now rewrite <- (length_map Neuron.weights), E1, length_map.
  rewrite L, (IH ls' _ E2). f_equal.
  rewrite <- (forallb_through Neuron.weights
                (fun ws => dense ws && (length ws =? prev)%nat)
                (Layer.neurons l)).
  rewrite <- (forallb_through Neuron.weights
                (fun ws => dense ws && (length ws =? prev)%nat)
                (Layer.neurons l')).
  now rewrite E1.
Qed.

Lemma compute_keeps opts n inputs n' res :
  Network.compute opts n inputs = Normal (n', res) ->
  well_formed n' = well_formed n /\ sizes n' = sizes n.
Proof.
  destruct n as [[|l0 rest]]; [discriminate|].
  rewrite NetworkMore.compute_computed. intros [= <- _].
  pose proof (NetworkMore.computed_weights opts l0 rest inputs) as E.
  split.
  - unfold well_formed. cbn [Network.layers]. now apply shaped_ext.
  - unfold sizes. cbn [Network.layers]. now apply NetworkMore.weights_of_sizes.
Qed.

Lemma compute_returns opts n inputs :
  sizes n <> [] ->
  exists n' res, Network.compute opts n inputs = Normal (n', res).
Proof.
  destruct n as [[|l0 rest]]; [now intros []|]. intros _.
  rewrite NetworkMore.compute_computed. eauto.
Qed.

Lemma uniform_insert counts n before after score s :
  Stage.uniform counts n {| Generation.genomes := before ++ after |} = true ->
  Stage.shape counts n s = true ->
  Stage.uniform counts n
    {| Generation.genomes := before ++ Genome.new score s :: after |} = true.
Proof.
  unfold Stage.uniform. cbn [Generation.genomes].
  rewrite !forallb_app. cbn [forallb Genome.new Genome.network].
  intros H S. apply andb_prop in H as [H1 H2]. now rewrite H1, H2, S.
Qed.

Lemma history_last b g gs :
  history b = g :: gs ->
  exists older, history b = older ++ [last gs g].
Proof.
  intros E. exists (removelast (g :: gs)). rewrite E.
  rewrite <- NetworkFacts.last_cons with (d := g).
  apply app_removelast_last. discriminate.
Qed.

Lemma history_snoc b older current :
  history b = older ++ [current] ->
  exists g gs, history b = g :: gs /\ last gs g = current.
Proof.
  intros E. destruct (history b) as [|g gs] eqn:H.
  - now destruct older.
  - exists g, gs. split; trivial.
    rewrite <- NetworkFacts.last_cons with (d := g), E. apply last_last.
Qed.

Section Round.
Variable self : BirdBrain.Global.
Variable opts : Options.
Hypothesis Hlow : lowHistoric opts = false.
Hypothesis Hdepth : (-1 <= historic opts)%Z.

Local Notation "'Topo'" := (Stage.topology opts).
Local Notation "'Wts'" := (expected_weights (Stage.topology opts)).

(** The books of a round, as a proposition. *)
Definition Inv (w : Game.t * BirdBrain.t) : Prop :=
  length (Game.gen (fst w)) = length (Game.birds (fst w))
  /\ Game.alives (fst w) = Z.of_nat (living (Game.birds (fst w)))
  /\ Forall (fun n => well_formed n = true /\ sizes n = Topo) (Game.gen (fst w))
  /\ exists older current,
       history (snd w) = older ++ [current]
       /\ Stage.uniform Topo Wts current = true
       /\ length (Generation.genomes current) = dead (Game.birds (fst w)).

Lemma fits_spec n : fits opts n = true <-> well_formed n = true /\ sizes n = Topo.
Proof.
  unfold fits. destruct (list_eq_dec Nat.eq_dec (sizes n) Topo) as [E|E].
  - rewrite andb_true_r. tauto.
  - rewrite andb_false_r. split; [discriminate | tauto].
Qed.

Lemma consistent_spec g b : consistent opts g b = true <-> Inv (g, b).
Proof.
  unfold consistent, Inv. cbn [fst snd].
  rewrite !andb_true_iff, Nat.eqb_eq, Z.eqb_eq, forallb_forall, Forall_forall.
  split.
  - intros [[[H1 H2] H3] H4]. repeat split; trivial.
    + now apply fits_spec, H3.
    + now apply fits_spec, H3.
    + destruct (history b) as [|x l] eqn:E; [discriminate|].
      cbv zeta in H4. apply andb_prop in H4 as [U L]. apply Nat.eqb_eq in L.
      destruct (@history_last b x l E) as [older Eo].
      exists older, (last l x). rewrite <- E. now repeat split.
  - intros (H1 & H2 & H3 & older & current & E & U & L).
    repeat split; trivial.
    + intros n Hn. now apply fits_spec, H3.
    + destruct (@history_snoc b older current E) as (x & l & Ex & El).
      rewrite Ex. cbv zeta. rewrite El, U. now apply Nat.eqb_eq.
Qed.

Lemma topology_nonempty : Topo <> [].
Proof.
  unfold Stage.topology. destruct (network opts) as [[i h] o]. discriminate.
Qed.

(** *** [start] *)

Lemma start_first fuel g b r :
  history b = [] ->
  exists nns r',
    Game.start self opts fuel g b r
    = Ok (Game.started g nns,
          {| BirdBrain.generations :=
               {| Generations.generations := [Generation.new] |} |}) r'
    /\ length nns = Z.to_nat (population opts)
    /\ Forall (fun n => well_formed n = true /\ sizes n = Topo) nns.
Proof.
  intros H. unfold Game.start.
  destruct (@EngineFacts.first_call self opts fuel b r H Hdepth)
    as (nns & E & L & F).
  rewrite E. eauto.
Qed.

Lemma start_spec fuel g b r older current :
  history b = older ++ [current] ->
  Stage.uniform Topo Wts current = true ->
  match Generation.generateNextGeneration opts fuel current r with
  | Ok saves r1 =>
      exists nns r2 b' kept,
        Game.start self opts fuel g b r = Ok (Game.started g nns, b') r2
        /\ length nns = length saves
        /\ Forall (fun n => well_formed n = true /\ sizes n = Topo) nns
        /\ history b' = kept ++ [Generation.new]
  | Throw e => Game.start self opts fuel g b r = Throw e
  | Diverge => Game.start self opts fuel g b r = Diverge
  end.
Proof.
  intros H U. unfold Game.start, BirdBrain.nextGeneration.
  destruct (@history_snoc b older current H) as (x & l & Ex & El).
  unfold history in Ex. rewrite Ex.
  unfold Generations.nextGeneration, bind. rewrite Ex, El.
  destruct (Generation.generateNextGeneration opts fuel current r)
    as [saves r1| |] eqn:Eg; trivial.
  unfold ret.
  destruct (EngineFacts.wrap_steps_any saves [] r1) as (nns & r2 & Ew & F).
  rewrite Ew. cbn [app Generations.generations].
  unfold BirdBrain.remove_old_networks. rewrite Hlow.
  destruct (@EngineFacts.remove_older_snoc opts (x :: l) Hdepth)
    as (dropped & kept & _ & Ek & _).
  eexists nns, r2, _, kept. split; [reflexivity|].
  split; [symmetry; exact (Forall2_length F)|]. split.
  - pose proof (@UniformFacts.generate_shaped opts current Topo Wts U fuel r saves
                  r1 Eg) as S.
    clear Ew Eg. revert S.
    induction F as [|s n saves nns [Wn Sn] F IH]; intros S; constructor.
    + inversion S as [|? ? Ss ?]; subst.
      apply UniformFacts.shape_spec in Ss as [Ss _]. split; congruence.
    + apply IH. now inversion S.
  - unfold history. cbn [BirdBrain.generations Generations.generations].
    exact Ek.
Qed.

Lemma started_inv g nns kept b' :
  Forall (fun n => well_formed n = true /\ sizes n = Topo) nns ->
  history b' = kept ++ [Generation.new] ->
  Inv (Game.started g nns, b').
Proof.
  intros F H. unfold Inv. cbn [fst snd Game.started Game.gen Game.birds
                                 Game.alives].
  assert (A : forall l : list Network.t,
             filter Bird.alive (map (fun _ => Bird.new) l)
             = map (fun _ => Bird.new) l)
    by (induction l as [|a l IH]; cbn; [|rewrite IH]; reflexivity).
  assert (D : forall l : list Network.t,
             filter (fun b => negb (Bird.alive b)) (map (fun _ => Bird.new) l)
             = [])
    by (induction l as [|a l IH]; cbn; trivial).
  split; [now rewrite length_map|]. split.
  { unfold living. now rewrite A. }
  split; [exact F|].
  exists kept, Generation.new. split; [exact H|].
  split; [reflexivity|]. unfold dead. now rewrite D.
Qed.

Lemma start_inv fuel g b r g' b' r' :
  Inv (g, b) ->
  Game.start self opts fuel g b r = Ok (g', b') r' ->
  Inv (g', b') /\ Game.pipes g' = [].
Proof.
  intros (_ & _ & _ & older & current & H & U & _) E.
  pose proof (@start_spec fuel g b r older current H U) as S.
  destruct (Generation.generateNextGeneration opts fuel current r);
    [|congruence|congruence].
  destruct S as (nns & r2 & b2 & kept & E2 & _ & F & Hk).
  rewrite E2 in E. injection E as <- <- <-.
  split; [now apply started_inv with kept | reflexivity].
Qed.

(** *** One bird *)

Lemma bird_step_cases fuel hole g b i :
  Inv (g, b) ->
  (i < length (Game.birds g))%nat ->
  exists g1 b1,
    Inv (g1, b1)
    /\ length (Game.birds g1) = length (Game.birds g)
    /\ (Game.bird_step self opts fuel hole (g, b) i = ret (g1, b1)
        \/ (Game.isItEnd g1 = true
            /\ Game.bird_step self opts fuel hole (g, b) i
               = Game.start self opts fuel g1 b1)).
Proof.
  intros I Hi. unfold Game.bird_step.
  destruct (nth_error (Game.birds g) i) as [bird|] eqn:Eb;
    [|apply nth_error_None in Eb; lia].
  destruct (Bird.alive bird) eqn:Ea; [|exists g, b; auto].
  pose proof I as (Hlen & Hal & Hfit & older & current & Hh & Hu & Hd).
  cbn [fst snd] in *.
  destruct (nth_error (Game.gen g) i) as [n|] eqn:En;
    [|apply nth_error_None in En; lia].
  assert (Hn : well_formed n = true /\ sizes n = Topo).
  { apply nth_error_In in En. rewrite Forall_forall in Hfit. now apply Hfit. }
  destruct Hn as [Hw Hs].
  assert (Hne : sizes n <> []) by (rewrite Hs; apply topology_nonempty).
  destruct (@compute_returns opts n
              [Num (Bird.y bird / Game.height g); Num hole] Hne)
    as (n' & res & Ec).
  rewrite Ec. cbv zeta.
  apply compute_keeps in Ec as [Hw' Hs']. rewrite Hw in Hw'. rewrite Hs in Hs'.
  set (bird2 := Bird.update
                  (if (0.5 <? array_to_number res)%float
                   then Bird.flap bird else bird)).
  assert (Ea2 : Bird.alive bird2 = true).
  { unfold bird2. destruct (0.5 <? array_to_number res)%float; exact Ea. }
  cbn [Game.birds Game.gen Game.alives Game.pipes Game.height Game.score
       Game.set_birds Game.set_gen Game.set_alives].
  pose proof (@filter_length_put _ Bird.alive (Game.birds g) i bird bird2 Eb)
    as L1.
  pose proof (@filter_length_put _ (fun b => negb (Bird.alive b))
                (Game.birds g) i bird bird2 Eb) as D1.
  cbv beta in D1. rewrite Ea, Ea2 in L1, D1. cbn [negb] in D1.
  assert (Hfit' : Forall (fun n => well_formed n = true /\ sizes n = Topo)
                    (Game.put (Game.gen g) i n'))
    by (apply Forall_put; auto).
  destruct (Bird.isDead (Game.height g) (Game.pipes g) bird2).
  - pose proof (@nth_error_put_same _ (Game.birds g) i bird bird2 Eb) as Eb2.
    pose proof (@filter_length_put _ Bird.alive
                  (Game.put (Game.birds g) i bird2) i bird2
                  (Bird.kill bird2) Eb2) as L2.
    pose proof (@filter_length_put _ (fun b => negb (Bird.alive b))
                  (Game.put (Game.birds g) i bird2) i bird2
                  (Bird.kill bird2) Eb2) as D2.
    cbv beta in D2. rewrite Ea2 in L2, D2. cbn [Bird.kill Bird.alive negb] in L2, D2.
    destruct (@EngineFacts.networkScore_snoc opts b older current n'
                (Num (of_Z (Game.score g))) Hh)
      as (before & after & Eg & Hh').
    eexists _, _. split; [|split; [|
      match goal with
      | |- context [if ?c then _ else _] =>
          destruct c eqn:Hend; [right; split; [exact Hend|reflexivity]
                              | left; reflexivity]
      end]].
    + unfold Inv.
      cbn [fst snd Game.birds Game.gen Game.alives Game.set_birds Game.set_gen
           Game.set_alives].
      split; [now rewrite !put_length|]. split.
      { unfold living in *. lia. }
      split; [exact Hfit'|].
      eexists older, _. split; [exact Hh'|]. split.
      * apply uniform_insert; [now rewrite <- Eg; destruct current|].
        pose proof (EngineFacts.getSave_shape n' Hw') as S.
        now rewrite Hs' in S.
      * cbn [Generation.genomes]. rewrite length_app. cbn [length].
        rewrite Eg, length_app in Hd. unfold dead in *. lia.
    + cbn [Game.birds Game.set_birds Game.set_gen Game.set_alives].
      now rewrite !put_length.
  - eexists _, b. split; [|split; [|left; reflexivity]].
    + unfold Inv.
      cbn [fst snd Game.birds Game.gen Game.alives Game.set_birds Game.set_gen].
      split; [now rewrite !put_length|]. split.
      { unfold living in *. rewrite Hal. f_equal. lia. }
      split; [exact Hfit'|].
      exists older, current. repeat split; trivial. unfold dead in *. lia.
    + cbn [Game.birds Game.set_birds Game.set_gen]. now rewrite put_length.
Qed.

Lemma bird_step_inv fuel hole w i r w' r' :
  Game.bird_step self opts fuel hole w i r = Ok w' r' -> Inv w -> Inv w'.
Proof.
  destruct w as [g b], w' as [g' b']. intros E I.
  destruct (Nat.lt_ge_cases i (length (Game.birds g))) as [Hi|Hi].
  - destruct (@bird_step_cases fuel hole g b i I Hi)
      as (g1 & b1 & I1 & _ & [E1|[_ E1]]); rewrite E1 in E.
    + now injection E as <- <- <-.
    + now apply start_inv in E.
  - unfold Game.bird_step in E. apply nth_error_None in Hi. rewrite Hi in E.
    discriminate.
Qed.

(** *** One tick *)

Lemma advance_inv g1 b1 r1 g' b' r' :
  Inv (g1, b1) ->
  Game.advance g1 b1 r1 = Ok (g', b') r' ->
  Inv (g', b')
  /\ length (Game.birds g') = length (Game.birds g1).
Proof.
  intros I. unfold Game.advance. rewrite PipeFacts.sweep_all. unfold bind.
  destruct ((if (Game.interval g1 =? 0)%Z then Game.spawn g1 else ret []) r1)
    as [pushed r2| |] eqn:Ep; try discriminate.
  cbv zeta. unfold ret. intros [= <- <- <-].
  split; [exact I | reflexivity].
Qed.

Lemma advance_returns g1 b1 r1 :
  exists g' r', Game.advance g1 b1 r1 = Ok (g', b1) r'.
Proof.
  unfold Game.advance. rewrite PipeFacts.sweep_all. unfold bind.
  destruct (Game.interval g1 =? 0)%Z.
  - unfold Game.spawn, bind, Math_random, ret. cbv zeta. eauto.
  - unfold ret. cbv zeta. eauto.
Qed.

Lemma update_inv fuel g b r g' b' r' :
  Inv (g, b) ->
  Game.update self opts fuel g b r = Ok (g', b') r' ->
  Inv (g', b').
Proof.
  intros I. unfold Game.update. cbv zeta. unfold bind at 1.
  destruct (foldM _ _ _ r) as [[g1 b1] r1| |] eqn:El; try discriminate.
  apply GenerationFacts.foldM_preserves with (P := Inv) in El.
  - intros E. now apply (@advance_inv g1 b1 r1 g' b' r' El) in E.
  - intros s x r0 s' r0'. apply bird_step_inv.
  - exact I.
Qed.

(** *** Rounds that never stall *)

Section Breeding.
Variables e k : nat.
Hypothesis He :
  round_iterations (elitism opts * of_Z (population opts)) = Finite e.
Hypothesis Hk :
  round_iterations (randomBehaviour opts * of_Z (population opts)) = Finite k.
Hypothesis Hsum : (Z.of_nat (e + k) < population opts)%Z.
Hypothesis Hthree : (3 <= population opts)%Z.
Variable fuel : nat.
Hypothesis Hfuel : (2 * Z.to_nat (population opts) + 2 <= fuel)%nat.

Definition Full (w : Game.t * BirdBrain.t) : Prop :=
  Inv w /\ Z.of_nat (length (Game.birds (fst w))) = population opts.

Lemma all_dead birds :
  existsb Bird.alive birds = false -> dead birds = length birds.
Proof.
  unfold dead. induction birds as [|b birds IH]; trivial.
  cbn [existsb filter]. intros H. apply orb_false_elim in H as [Hb H].
  rewrite Hb. cbn [negb length]. now rewrite IH.
Qed.

Lemma uniform_complete counts n this :
  Stage.uniform counts n this = true -> GenerationFacts.complete this.
Proof.
  intros U. unfold GenerationFacts.complete. apply Forall_forall. intros g Hg.
  destruct (@UniformFacts.uniform_In counts n this g U Hg) as (s & Es & _).
  now exists s.
Qed.

Lemma start_total g b r :
  Inv (g, b) ->
  Game.isItEnd g = true ->
  Z.of_nat (length (Game.birds g)) = population opts ->
  exists w' r', Game.start self opts fuel g b r = Ok w' r' /\ Full w'.
Proof.
  intros (_ & _ & _ & older & current & H & U & D) Hend L. cbn [fst snd] in *.
  unfold Game.isItEnd in Hend. apply negb_true_iff, all_dead in Hend.
  rewrite Hend in D.
  destruct (@GenerationFacts.generate_returns_population opts current
              (@uniform_complete _ _ _ U) ltac:(lia) e k fuel r He Hk ltac:(lia)
              Hsum Hfuel) as (saves & r1 & Eg & Ls).
  pose proof (@start_spec fuel g b r older current H U) as S.
  rewrite Eg in S. destruct S as (nns & r2 & b' & kept & E & Ln & F & Hk').
  exists (Game.started g nns, b'), r2. split; [exact E|]. split.
  - now apply started_inv with kept.
  - cbn [fst Game.started Game.birds]. rewrite length_map, Ln. exact Ls.
Qed.

Lemma bird_step_total hole w i r :
  Full w ->
  (i < length (Game.birds (fst w)))%nat ->
  exists w' r', Game.bird_step self opts fuel hole w i r = Ok w' r' /\ Full w'.
Proof.
  destruct w as [g b]. intros [I L] Hi. cbn [fst] in *.
  destruct (@bird_step_cases fuel hole g b i I Hi)
    as (g1 & b1 & I1 & L1 & [E|[Hend E]]); rewrite E.
  - exists (g1, b1), r. split; [reflexivity|]. split; trivial.
    cbn [fst]. now rewrite L1.
  - apply start_total; trivial. now rewrite L1.
Qed.

Lemma update_total g b r :
  Full (g, b) ->
  exists g' b' r',
    Game.update self opts fuel g b r = Ok (g', b') r' /\ Full (g', b').
Proof.
  intros F. unfold Game.update. cbv zeta. unfold bind at 1.
  set (g0 := Game.set_backgroundx g _).
  assert (F0 : Full (g0, b)) by exact F.
  destruct (@MonadFacts.foldM_invariant _ _ Full
              (Game.bird_step self opts fuel (Game.nextHole g0))
              (seq 0 (length (Game.birds g0))))
    with (s := (g0, b)) (r := r) as (w1 & r1 & El & F1); trivial.
  { intros s x r0 Hx Fs. apply bird_step_total; trivial.
    apply in_seq in Hx. destruct Fs as [_ Ls], F0 as [_ L0].
    cbn [fst] in L0. lia. }
  rewrite El. destruct w1 as [g1 b1].
  destruct (advance_returns g1 b1 r1) as (g' & r' & E).
  exists g', b1, r'. split; [exact E|].
  destruct F1 as [I1 L1].
  destruct (@advance_inv g1 b1 r1 g' b1 r' I1 E) as (I' & L').
  split; trivial. cbn [fst] in *. now rewrite L'.
Qed.

Lemma ticks_total n : forall w r,
  Full w ->
  exists w' r', ticks self opts fuel n w r = Ok w' r' /\ Full w'.
Proof.
  induction n as [|n IH]; intros [g b] r F.
  - exists (g, b), r. now split.
  - cbn [ticks fst snd]. unfold bind.
    destruct (@update_total g b r F) as (g' & b' & r' & E & F').
    rewrite E. apply IH, F'.
Qed.

Lemma play_total canvas_width canvas_height n r :
  exists w' r',
    play self opts fuel canvas_width canvas_height n r = Ok w' r' /\ Full w'.
Proof.
  unfold play, bind.
  destruct (@start_first fuel (Game.new canvas_width canvas_height)
              BirdBrain.new r eq_refl) as (nns & r1 & E & L & F).
  rewrite E. apply ticks_total. split.
  - now apply started_inv with (kept := []).
  - cbn [fst Game.started Game.birds]. rewrite length_map, L. lia.
Qed.

End Breeding.
End Round.

(** *** The pipes through a tick *)

Lemma bird_step_pipes self opts fuel hole w i r w' r' :
  Game.bird_step self opts fuel hole w i r = Ok w' r' ->
  Game.pipes (fst w') = Game.pipes (fst w) \/ Game.pipes (fst w') = [].
Proof.
  destruct w as [g b]. unfold Game.bird_step.
  destruct (nth_error (Game.birds g) i) as [bird|]; try discriminate.
  destruct (Bird.alive bird); [|intros [= <- _]; now left].
  destruct (nth_error (Game.gen g) i) as [n|]; try discriminate.
  destruct (Network.compute opts n _) as [[n' res]|]; try discriminate.
  cbv zeta.
  destruct (Bird.isDead _ _ _); [|intros [= <- _]; now left].
  destruct (Game.isItEnd _); [|intros [= <- _]; now left].
  unfold Game.start.
  destruct (BirdBrain.nextGeneration _ _ _ _ _) as [b' [nns r1| |]];
    try discriminate.
  intros [= <- _]. now right.
Qed.

Lemma update_paired self opts fuel g b r g' b' r' :
  paired (Game.pipes g) ->
  Game.update self opts fuel g b r = Ok (g', b') r' ->
  paired (Game.pipes g').
Proof.
  intros P. unfold Game.update. cbv zeta. unfold bind at 1.
  destruct (foldM _ _ _ r) as [[g1 b1] r1| |] eqn:El; try discriminate.
  apply GenerationFacts.foldM_preserves
    with (P := fun w => paired (Game.pipes (fst w))) in El; trivial.
  2:{ intros s x r0 s' r0' E Ps.
      destruct (bird_step_pipes _ _ _ _ _ _ _ E) as [-> | ->];
        [exact Ps | constructor]. }
  cbn [fst] in El. unfold Game.advance.
  rewrite PipeFacts.sweep_all. unfold bind.
  destruct ((if (Game.interval g1 =? 0)%Z then Game.spawn g1 else ret []) r1)
    as [pushed r2| |] eqn:Ep; try discriminate.
  cbv zeta. unfold ret. intros [= <- _ _]. cbn [Game.pipes].
  apply PipeFacts.paired_app; [now apply PipeFacts.paired_swept|].
  destruct (Game.interval g1 =? 0)%Z.
  - now apply PipeFacts.paired_spawn in Ep.
  - injection Ep as <- _. constructor.
Qed.

(** *** The counters through a tick *)

Definition counters (g : Game.t) : Z * Z * Z * Z * Z * Z :=
  (Game.score g, Game.maxScore g, Game.pipesPassed g, Game.maxPipesPassed g,
   Game.interval g, Game.spawnInterval g).

Lemma bird_step_counters self opts fuel hole w i r w' r' :
  Game.bird_step self opts fuel hole w i r = Ok w' r' ->
  counters (fst w') = counters (fst w)
  \/ counters (fst w')
     = (0%Z, Game.maxScore (fst w), 0%Z, Game.maxPipesPassed (fst w), 0%Z,
        Game.spawnInterval (fst w)).
Proof.
  destruct w as [g b]. unfold Game.bird_step.
  destruct (nth_error (Game.birds g) i) as [bird|]; try discriminate.
  destruct (Bird.alive bird); [|intros [= <- _]; now left].
  destruct (nth_error (Game.gen g) i) as [n|]; try discriminate.
  destruct (Network.compute opts n _) as [[n' res]|]; try discriminate.
  cbv zeta.
  destruct (Bird.isDead _ _ _); [|intros [= <- _]; now left].
  destruct (Game.isItEnd _); [|intros [= <- _]; now left].
  unfold Game.start.
  destruct (BirdBrain.nextGeneration _ _ _ _ _) as [b' [nns r1| |]];
    try discriminate.
  intros [= <- _]. now right.
Qed.

Definition in_order (g0 g : Game.t) : Prop :=
  (0 <= Game.score g <= Game.maxScore g)%Z
  /\ (0 <= Game.pipesPassed g <= Game.maxPipesPassed g)%Z
  /\ (0 <= Game.interval g < Game.spawnInterval g)%Z
  /\ (Game.maxScore g0 <= Game.maxScore g)%Z
  /\ (Game.maxPipesPassed g0 <= Game.maxPipesPassed g)%Z
  /\ Game.spawnInterval g = Game.spawnInterval g0.

Lemma recorded_spec g :
  recorded g = true <->
  (0 <= Game.score g <= Game.maxScore g)%Z
  /\ (0 <= Game.pipesPassed g <= Game.maxPipesPassed g)%Z
  /\ (0 <= Game.interval g < Game.spawnInterval g)%Z.
Proof.
  unfold recorded. rewrite !andb_true_iff, !Z.leb_le, Z.ltb_lt. tauto.
Qed.

Lemma update_in_order self opts fuel g b r g' b' r' :
  recorded g = true ->
  Game.update self opts fuel g b r = Ok (g', b') r' ->
  in_order g g'.
Proof.
  intros R. apply recorded_spec in R. unfold Game.update. cbv zeta.
  unfold bind at 1.
  destruct (foldM _ _ _ r) as [[g1 b1] r1| |] eqn:El; try discriminate.
  apply GenerationFacts.foldM_preserves
    with (P := fun w => in_order g (fst w)) in El.
  - cbn [fst] in El. unfold Game.advance.
    destruct (Game.sweep _ _ _); try discriminate. unfold bind.
    destruct ((if (Game.interval g1 =? 0)%Z then Game.spawn g1 else ret []) r1)
      as [pushed r2| |]; try discriminate.
    cbv zeta. unfold ret. intros [= <- _ _].
    destruct El as (S & P & I & MS & MP & SI).
    unfold in_order.
    cbn [Game.score Game.maxScore Game.pipesPassed Game.maxPipesPassed
         Game.interval Game.spawnInterval].
    destruct (Z.eqb_spec (Game.interval g1 + 1) (Game.spawnInterval g1));
      destruct (Z.ltb_spec (Game.maxScore g1) (Game.score g1 + 1));
      destruct (Z.ltb_spec (Game.maxPipesPassed g1) (Game.pipesPassed g1 + 1));
      repeat split; try lia; exact SI.
  - intros s x r0 s' r0' E Ps.
    destruct Ps as (S & P & I & MS & MP & SI).
    unfold in_order.
    destruct (bird_step_counters _ _ _ _ _ _ _ E) as [C|C];
      unfold counters in C; injection C as -> -> -> -> -> ->;
      repeat split; try lia; exact SI.
  - unfold in_order. cbn [fst Game.set_backgroundx Game.score Game.maxScore
      Game.pipesPassed Game.maxPipesPassed Game.interval Game.spawnInterval].
    repeat split; lia.
Qed.

End RoundFacts.

(** * The claims of the specification *)

(** C1, on the code.  With [population = 4], [elitism = 0.5] and
    [randomBehaviour = 0.5] (the rates sum to 1) and a Generation of four
    scored genomes, the elitism and random stages fill the population, and
    the breeding stage, which pushes a child before it tests the length,
    returns five networks. *)
Theorem saturated_population_overshoots :
  population Demo.saturated = 4%Z
  /\ length (Generation.genomes Demo.four) = 4%nat
  /\ exists nexts r',
       Generation.generateNextGeneration Demo.saturated 2 Demo.four
         (Demo.steady 0.75) = Ok nexts r'
       /\ length nexts = 5%nat.
Proof.
  split; [reflexivity|]. split; [reflexivity|].
  destruct (Generation.generateNextGeneration Demo.saturated 2 Demo.four
              (Demo.steady 0.75)) as [nexts r'| |] eqn:E;
    try (vm_compute in E; discriminate E).
  exists nexts, r'. split; [reflexivity|].
  assert (H : match Generation.generateNextGeneration Demo.saturated 2 Demo.four
                      (Demo.steady 0.75) with
              | Ok nexts _ => length nexts
              | _ => 0%nat
              end = 5%nat) by (vm_compute; reflexivity).
  now rewrite E in H.
Qed.

(** C2, on the code.  On a Generation of one genome (or of two) the call
    never returns, whatever the options, the random draws and the number of
    turns granted to the [while (true)] loop: the cursor [max] is reset to 0
    before a pair is ever bred.  On the single genome of the example the
    first two stages complete and the loop spins for ever. *)
Theorem single_genome_never_returns :
  (forall (opts : Options) (g : Genome.t) (fuel : nat) (r : rng) nexts r',
     Generation.generateNextGeneration opts fuel
       {| Generation.genomes := [g] |} r <> Ok nexts r')
  /\ (forall fuel : nat,
        Generation.generateNextGeneration Demo.options fuel Demo.single
          (Demo.steady 0.75) = Diverge).
Proof.
  split.
  - intros opts g fuel r nexts r'. apply GenerationFacts.generate_few. cbn. lia.
  - intros fuel. unfold Generation.generateNextGeneration, bind.
    destruct (Generation.rounded_loop Demo.options (elitism Demo.options)
                (Generation.elitism_step Demo.options Demo.single)
                (Z.to_nat (population Demo.options)) [] (Demo.steady 0.75))
      as [n1 r1| |] eqn:E1; try (vm_compute in E1; discriminate E1).
    destruct (Generation.rounded_loop Demo.options (randomBehaviour Demo.options)
                (Generation.random_step Demo.options Demo.single) 1 n1 r1)
      as [n2 r2| |] eqn:E2.
    + apply GenerationFacts.breeding_few. cbn. lia.
    + exfalso. vm_compute in E1. injection E1 as <- <-.
      vm_compute in E2. discriminate E2.
    + exfalso. vm_compute in E1. injection E1 as <- <-.
      vm_compute in E2. discriminate E2.
Qed.

(** C3. For every well-formed network [n] (every neuron has one weight per
    neuron of the previous layer, the input layer has none: the networks
    that [perceptronGeneration] and [setSave] build, whatever values their
    neurons hold), [setSave] of [getSave n] completes and yields a network
    with the same neuron count in every layer and the same weights in every
    neuron; hence both return the same array from [compute] on every input
    vector of the length of the input layer. *)
Theorem save_round_trip (n : Network.t) (r : rng) :
  Shape.well_formed n = true ->
  exists n' r',
    Network.setSave Network.new (Network.getSave n) r = Ok n' r'
    /\ Shape.sizes n' = Shape.sizes n
    /\ Shape.weights n' = Shape.weights n
    /\ forall opts inputs,
         Shape.dense inputs = true ->
         Some (length inputs) = hd_error (Shape.sizes n) ->
         Shape.outputs (Network.compute opts n' inputs)
         = Shape.outputs (Network.compute opts n inputs).
Proof.
  intros W.
  destruct (NetworkFacts.setSave_spec Network.new (Network.getSave n) r)
    as (r' & E).
  eexists _, r'. split; [exact E|].
  assert (Hs : Shape.sizes
                 {| Network.layers :=
                      Shape.rebuilt (Save.weights (Network.getSave n))
                        (Save.neurons (Network.getSave n)) 0 0 0 |}
               = Shape.sizes n)
    by apply NetworkFacts.rebuilt_sizes.
  assert (Hw : Shape.weights
                 {| Network.layers :=
                      Shape.rebuilt (Save.weights (Network.getSave n))
                        (Save.neurons (Network.getSave n)) 0 0 0 |}
               = Shape.weights n)
    by (apply NetworkFacts.round_trip_layers; exact W).
  split; [exact Hs|]. split; [exact Hw|].
  intros opts inputs D L.
  apply NetworkFacts.compute_same_weights; trivial. now rewrite Hs.
Qed.

(** The round trip of a network built by [perceptronGeneration]. *)
Lemma save_round_trip_witness :
  Shape.well_formed Demo.net = true
  /\ exists n' r',
       Network.setSave Network.new (Network.getSave Demo.net) (Demo.steady 0.25)
       = Ok n' r'
       /\ Shape.sizes n' = Shape.sizes Demo.net
       /\ Shape.weights n' = Shape.weights Demo.net
       /\ forall opts inputs,
            Shape.dense inputs = true ->
            Some (length inputs) = hd_error (Shape.sizes Demo.net) ->
            Shape.outputs (Network.compute opts n' inputs)
            = Shape.outputs (Network.compute opts Demo.net inputs).
Proof.
  split; [reflexivity|].
  apply (save_round_trip Demo.net (Demo.steady 0.25)). reflexivity.
Defined.

(** C4. After any sequence of [addGenome] calls on a fresh Generation (the
    genomes being built by [new Genome], as [networkScore] does), the genome
    list is sorted by score according to [scoreSort]: of two genomes, the one
    standing first has the score that is not smaller (descending mode) or not
    greater (ascending mode); the genome at index 0 is a best one; and one
    more insertion puts the new genome after every existing genome whose
    score is at least as good, in particular after all those of equal score:
    everything left behind it is strictly worse. *)
Theorem addGenome_sorted_stable (opts : Options)
    (reports : list (jsval * Save.t)) (score : jsval) (save : Save.t) :
  let gen := Ranking.after_reports opts reports in
  let genome := Genome.new score save in
  StronglySorted (Ranking.no_worse opts) (Generation.genomes gen)
  /\ (forall best x,
        nth_error (Generation.genomes gen) 0 = Some best ->
        In x (Generation.genomes gen) ->
        Ranking.no_worse opts best x)
  /\ exists before after,
        Generation.genomes gen = before ++ after
        /\ Generation.genomes (Generation.addGenome opts gen genome)
           = before ++ genome :: after
        /\ Forall (fun x => Ranking.no_worse opts x genome) before
        /\ Forall (fun x => Ranking.worse opts x genome) after.
Proof.
  intros gen genome.
  pose proof (AddGenomeFacts.after_reports_ranked opts reports) as Hr.
  fold gen in Hr. split; [exact (proj2 Hr)|]. split.
  - intros best x. now apply AddGenomeFacts.ranked_best.
  - apply AddGenomeFacts.addGenome_lands; trivial.
    apply AddGenomeFacts.new_scored.
Qed.

(** C5, on the code.  With [lowHistoric] set and a history of one scored
    Generation, [nextGeneration] breeds the next population and records the
    new Generation (the history now holds two), then reads
    [self.generations] where [this.generations] was meant: the global object
    has no such property and the call raises a [TypeError].  No network is
    stripped (the Generation at index [length - 2] is as it was) and the
    pruning of older Generations below is not reached. *)
Theorem lowHistoric_raises :
  lowHistoric Demo.low = true
  /\ BirdBrain.nextGeneration BirdBrain.window Demo.low 3 Demo.brain
       (Demo.steady 0.75)
     = ({| BirdBrain.generations :=
             {| Generations.generations := [Demo.four; Generation.new] |} |},
        Throw TypeError).
Proof. split; [reflexivity|]. vm_compute. reflexivity. Qed.

(** C6. For a history depth [d >= 0] (that is, other than the sentinel -1),
    after any number of rounds from a new engine, each a call of
    [nextGeneration] that returns a population followed by any reports of
    scores, the history holds at most [d + 1] Generations.  (Every single
    call that returns establishes the bound, whatever the engine held
    before: [BirdBrainFacts.nextGeneration_bound].) *)
Theorem history_is_bounded (self : BirdBrain.Global) (opts : Options)
    (plan : list (nat * list (Network.t * jsval))) (r : rng)
    (b : BirdBrain.t) (r' : rng) :
  (0 <= historic opts)%Z ->
  History.rounds self opts plan BirdBrain.new r = Some (b, r') ->
  (Z.of_nat (length (History.history b)) <= historic opts + 1)%Z.
Proof.
  intros H E.
  apply (@BirdBrainFacts.rounds_bound self opts plan H BirdBrain.new r b r');
    trivial.
  cbn. lia.
Qed.

(** Two rounds of the scenario. *)
Lemma history_is_bounded_witness :
  (0 <= historic Demo.options)%Z
  /\ History.rounds BirdBrain.window Demo.options Demo.plan BirdBrain.new
       (Demo.steady 0.75)
     = Some (fst Demo.two_rounds, snd Demo.two_rounds)
  /\ (Z.of_nat (length (History.history (fst Demo.two_rounds)))
      <= historic Demo.options + 1)%Z.
Proof.
  split; [cbn; lia|]. split; [vm_compute; reflexivity|].
  apply (@history_is_bounded BirdBrain.window Demo.options Demo.plan
           (Demo.steady 0.75) (fst Demo.two_rounds) (snd Demo.two_rounds));
    [cbn; lia | vm_compute; reflexivity].
Defined.

(** C7, as the claim states it, fails: [setSave] is given three flat weights
    where the topology calls for one and completes, keeping the first and
    dropping the other two; [compute] is given two inputs for an input layer
    of one neuron and completes, dropping the second.  Neither reports an
    error. *)
Lemma shape_mismatch_is_not_reported :
  length (Save.weights Demo.long_save)
    <> Shape.expected_weights (Save.neurons Demo.long_save)
  /\ Network.setSave Network.new Demo.long_save (Demo.steady 0.75)
     = Ok {| Network.layers :=
               [ {| Layer.id := 0;
                    Layer.neurons := [ {| Neuron.value := Num 0;
                                          Neuron.weights := [] |} ] |};
                 {| Layer.id := 1;
                    Layer.neurons := [ {| Neuron.value := Num 0;
                                          Neuron.weights := [Num 1] |} ] |} ] |}
          {| draws := fun _ => 0.75%float; cursor := 1 |}
  /\ length [Num 7; Num 8] <> 1%nat
  /\ Shape.outputs
       (Network.compute Demo.options
          {| Network.layers :=
               [ {| Layer.id := 0;
                    Layer.neurons := [ {| Neuron.value := Num 0;
                                          Neuron.weights := [] |} ] |};
                 {| Layer.id := 1;
                    Layer.neurons := [ {| Neuron.value := Num 0;
                                          Neuron.weights := [Num 1] |} ] |} ] |}
          [Num 7; Num 8])
     = Normal [Num 7].
Proof.
  split; [cbn; lia|]. split; [reflexivity|]. split; [cbn; lia|].
  vm_compute. reflexivity.
Qed.

(** C7, amended.  [setSave] and [compute] check no shape and report no
    shape error.  [setSave] completes on every save: it builds the layers
    that [neurons] lists and reads the flat weights in order, as many as the
    topology calls for; surplus entries are ignored and the entries missing
    from a list that is too short are read as [undefined].  [compute]
    completes on every network with at least one layer whatever the length
    of the input vector: inputs beyond the input layer are ignored, and the
    input neurons beyond the vector keep the value they had. *)
Theorem shapes_are_not_checked :
  (forall (save : Save.t) (r : rng),
     exists n r',
       Network.setSave Network.new save r = Ok n r'
       /\ Shape.sizes n = Save.neurons save
       /\ Save.weights (Network.getSave n)
          = map (array_get (Save.weights save))
                (seq 0 (Shape.expected_weights (Save.neurons save))))
  /\ (forall (opts : Options) (l0 : Layer.t) (rest : list Layer.t)
        (inputs : list jsval),
        let n := {| Network.layers := l0 :: rest |} in
        exists n' out,
          Network.compute opts n inputs = Normal (n', out)
          /\ (forall extra,
                (length (Layer.neurons l0) <= length inputs)%nat ->
                Network.compute opts n (inputs ++ extra)
                = Network.compute opts n inputs)
          /\ (forall l0' i,
                hd_error (Network.layers n') = Some l0' ->
                (length inputs <= i)%nat ->
                nth_error (Layer.neurons l0') i
                = nth_error (Layer.neurons l0) i)).
Proof.
  split.
  - intros save r.
    destruct (NetworkFacts.setSave_spec Network.new save r) as (r' & E).
    eexists _, r'. split; [exact E|]. split.
    + apply NetworkFacts.rebuilt_sizes.
    + apply NetworkFacts.rebuilt_flat.
  - intros opts l0 rest inputs n. unfold Network.compute. cbn [Network.layers n].
    eexists _, _. split; [reflexivity|]. split.
    + intros extra L. now rewrite NetworkFacts.set_inputs_surplus.
    + intros l0' i H L. injection H as <-. cbn.
      now apply NetworkFacts.set_inputs_keeps.
Qed.

(** C8, on the code.  With [mutationRate = 0] the test
    [Math.random() <= options.mutationRate] still succeeds when the draw is
    exactly 0.  Parent A's weights are all 0.5 and parent B's are 1 to 6; the
    six crossover draws are 0.75 (A's weight is kept), the mutation draw of
    index 0 is 0 and the next draw is 0.75: the child's first weight is
    0.5 + (0.75 * 0.5 * 2 - 0.5) = 0.75, which is neither parent's. *)
Theorem zero_rate_still_mutates :
  mutationRate Demo.unmutated = 0%float
  /\ Generation.breed Demo.unmutated
       (Demo.genome 40 Demo.save) (Demo.genome 20 Demo.save') 1
       (Demo.replay [0.75; 0.75; 0.75; 0.75; 0.75; 0.75; 0; 0.75] 0.75)%float
     = Ok [ {| Generation.child_score := Num 40;
               Generation.child_network :=
                 {| Save.neurons := [2; 2; 1]%nat;
                    Save.weights := [Num 0.75; Num 0.5; Num 0.5;
                                     Num 0.5; Num 0.5; Num 0.5] |} |} ]
          {| draws := fun i =>
               nth i [0.75; 0.75; 0.75; 0.75; 0.75; 0.75; 0; 0.75]%float
                   0.75%float;
             cursor := 13 |}
  /\ array_get (Save.weights Demo.save) 0 = Num 0.5
  /\ array_get (Save.weights Demo.save') 0 = Num 1.
Proof.
  split; [reflexivity|]. split; [vm_compute; reflexivity|].
  split; reflexivity.
Qed.

(** C9. With no Generation in the history, [Generations.nextGeneration] and
    [Generations.addGenome] each return [false] to the caller and leave the
    history as it was: no Generation is created, no genome is stored (and no
    random number is drawn). *)
Theorem empty_history_reports_failure (opts : Options) (fuel : nat) (r : rng)
    (genome : Genome.t) :
  Generations.nextGeneration opts fuel Generations.new r
  = Ok (Generations.new, Generations.NoGeneration) r
  /\ Generations.addGenome opts Generations.new genome
     = (Generations.new, Generations.NotAdded).
Proof. split; reflexivity. Qed.

(** C10. When both parents carry a serialized network, with the same
    [neurons] descriptor and flat weight arrays of the same length, [breed]
    returns the requested number of children, and every child has parent A's
    [neurons] descriptor and a flat weight array of parent A's length. *)
Theorem breed_preserves_shape (opts : Options) (g1 g2 : Genome.t)
    (n1 n2 : Save.t) (nbchildren : Z) (r : rng) :
  Genome.network g1 = Some n1 ->
  Genome.network g2 = Some n2 ->
  Save.neurons n1 = Save.neurons n2 ->
  length (Save.weights n1) = length (Save.weights n2) ->
  exists children r',
    Generation.breed opts g1 g2 nbchildren r = Ok children r'
    /\ length children = Z.to_nat nbchildren
    /\ Forall (fun c =>
         Save.neurons (Generation.child_network c) = Save.neurons n1
         /\ length (Save.weights (Generation.child_network c))
            = length (Save.weights n1)) children.
Proof.
  intros E1 E2 _ Hlen. unfold Generation.breed.
  now apply BreedFacts.breed_children_shape with n2.
Qed.

(** Two children of two genomes of the scenario. *)
Lemma breed_preserves_shape_witness :
  Genome.network (Demo.genome 40 Demo.save) = Some Demo.save
  /\ Genome.network (Demo.genome 20 Demo.save') = Some Demo.save'
  /\ Save.neurons Demo.save = Save.neurons Demo.save'
  /\ length (Save.weights Demo.save) = length (Save.weights Demo.save')
  /\ exists children r',
       Generation.breed Demo.options (Demo.genome 40 Demo.save)
         (Demo.genome 20 Demo.save') 2 (Demo.steady 0.25) = Ok children r'
       /\ length children = Z.to_nat 2
       /\ Forall (fun c =>
            Save.neurons (Generation.child_network c) = Save.neurons Demo.save
            /\ length (Save.weights (Generation.child_network c))
               = length (Save.weights Demo.save)) children.
Proof.
  repeat (split; [reflexivity|]).
  apply (breed_preserves_shape Demo.options (Demo.genome 40 Demo.save)
           (Demo.genome 20 Demo.save') (n1 := Demo.save) (n2 := Demo.save')
           2 (Demo.steady 0.25)); reflexivity.
Defined.

(** * Further properties of the engine *)

(** X1. [perceptronGeneration] on a new network always completes: it builds
    the layers [input], [hidden ...], [output] in that order, every neuron
    with one weight per neuron of the layer before it (none in the input
    layer), and draws exactly one random number per weight. *)
Theorem perceptronGeneration_builds (input : nat) (hidden : list nat)
    (output : nat) (r : rng) :
  exists n,
    Network.perceptronGeneration Network.new input hidden output r
    = Ok n (Draws.advance r
              (Shape.expected_weights (input :: hidden ++ [output])))
    /\ Shape.well_formed n = true
    /\ Shape.sizes n = input :: hidden ++ [output].
Proof.
  destruct (NetworkFacts.perceptronGeneration_spec input hidden output r)
    as (n & r' & E & W & S).
  exists n. split; [|now split].
  rewrite E. f_equal.
  exact (@DrawFacts.exactly_perceptronGeneration Network.new input hidden
           output r n r' E).
Qed.

(** X2. Whatever the save, [setSave] completes and the network it builds
    satisfies the invariant of a network (one weight per neuron of the
    previous layer), even when the flat weight list does not fit; it draws
    one random number per weight it then overwrites. *)
Theorem setSave_builds_well_formed (this : Network.t) (save : Save.t)
    (r : rng) :
  exists n,
    Network.setSave this save r
    = Ok n (Draws.advance r (Shape.expected_weights (Save.neurons save)))
    /\ Shape.well_formed n = true.
Proof.
  destruct (NetworkFacts.setSave_spec this save r) as (r' & E).
  eexists. split.
  - rewrite E. f_equal.
    exact (@DrawFacts.exactly_setSave this save r _ r' E).
  - apply NetworkMore.rebuilt_shaped.
Qed.

(** X3. Deserializing then serializing gives the save back: when the flat
    weight list has no missing index and exactly the length the topology
    calls for, [getSave] of the network built by [setSave] is the save
    itself. *)
Theorem setSave_getSave (this : Network.t) (save : Save.t) (r : rng) :
  Shape.dense (Save.weights save) = true ->
  length (Save.weights save) = Shape.expected_weights (Save.neurons save) ->
  exists n r',
    Network.setSave this save r = Ok n r' /\ Network.getSave n = save.
Proof.
  intros D L.
  destruct (NetworkFacts.setSave_spec this save r) as (r' & E).
  eexists _, r'. split; [exact E|].
  unfold Network.getSave. cbn [Network.layers].
  rewrite NetworkFacts.rebuilt_sizes, NetworkFacts.rebuilt_flat.
  unfold Shape.expected_weights in L. rewrite <- L, NetworkMore.reads_all by trivial.
  now destruct save.
Qed.

(** A save of the scenario. *)
Lemma setSave_getSave_witness :
  Shape.dense (Save.weights Demo.save') = true
  /\ length (Save.weights Demo.save')
     = Shape.expected_weights (Save.neurons Demo.save')
  /\ exists n r',
       Network.setSave Network.new Demo.save' (Demo.steady 0.75) = Ok n r'
       /\ Network.getSave n = Demo.save'.
Proof.
  split; [reflexivity|]. split; [reflexivity|].
  apply (@setSave_getSave Network.new Demo.save' (Demo.steady 0.75));
    reflexivity.
Defined.

(** X4. [compute] raises exactly on a network without layers.  Otherwise it
    only overwrites neuron values: the layers keep their ids, sizes and
    weights, and the returned array has one entry per neuron of the last
    layer. *)
Theorem compute_keeps_weights (opts : Options) (n : Network.t)
    (inputs : list jsval) :
  match Network.compute opts n inputs with
  | Abrupt e => e = TypeError /\ Network.layers n = []
  | Normal (n', out) =>
      Network.layers n <> []
      /\ Shape.weights n' = Shape.weights n
      /\ map Layer.id (Network.layers n') = map Layer.id (Network.layers n)
      /\ length out = last (Shape.sizes n) 0%nat
  end.
Proof.
  destruct n as [[|l0 rest]]; [now split|].
  rewrite NetworkMore.compute_computed.
  split; [discriminate|]. split; [apply NetworkMore.computed_weights|].
  split.
  - unfold NetworkMore.computed. cbn. now rewrite NetworkMore.propagate_ids.
  - rewrite length_map.
    pose proof (NetworkMore.computed_weights opts l0 rest inputs) as W.
    apply NetworkMore.weights_of_sizes in W.
    unfold Shape.sizes. cbn [Network.layers]. rewrite <- W.
    change 0%nat with (length (Layer.neurons (Layer.new 0))).
    rewrite (NetworkMore.last_map (fun l => length (Layer.neurons l))).
    unfold NetworkMore.computed. rewrite !NetworkFacts.last_cons.
    reflexivity.
Qed.

(** X5. [compute] is repeatable although it writes to the receiver: on a
    network with at least one layer, a second call with the same inputs
    returns the same array as the first and leaves the network as the first
    call left it (also when the input vector has the wrong length). *)
Theorem compute_twice (opts : Options) (l0 : Layer.t) (rest : list Layer.t)
    (inputs : list jsval) :
  exists n' out,
    Network.compute opts {| Network.layers := l0 :: rest |} inputs
    = Normal (n', out)
    /\ Network.compute opts n' inputs = Normal (n', out).
Proof.
  rewrite NetworkMore.compute_computed. eexists _, _. split; [reflexivity|].
  pose proof (NetworkMore.computed_idem opts l0 rest inputs) as H.
  destruct (NetworkMore.computed opts l0 rest inputs) as [|a b] eqn:E;
    [contradiction|].
  rewrite NetworkMore.compute_computed, H, !NetworkFacts.last_cons.
  reflexivity.
Qed.

(** X6. Whenever [generateNextGeneration] returns, the Generation held at
    least three genomes, and the result holds [options.population] networks
    or one more, never fewer. *)
Theorem generateNextGeneration_returns_only (opts : Options) (fuel : nat)
    (this : Generation.t) (r : rng) (nexts : list Save.t) (r' : rng) :
  Generation.generateNextGeneration opts fuel this r = Ok nexts r' ->
  (3 <= length (Generation.genomes this))%nat
  /\ (population opts <= Z.of_nat (length nexts)
      <= Z.max 0 (population opts) + 1)%Z.
Proof.
  intros H. split.
  - destruct (le_lt_dec 3 (length (Generation.genomes this))) as [L|L]; trivial.
    exfalso. revert H. apply GenerationFacts.generate_few. lia.
  - exact (@GenerationFacts.generate_length opts this fuel r nexts r' H).
Qed.

(** The scenario: four genomes, four networks wanted. *)
Lemma generateNextGeneration_returns_only_witness :
  Generation.generateNextGeneration Demo.options 3 Demo.four (Demo.steady 0.75)
  = Ok (fst Demo.bred) (snd Demo.bred)
  /\ (3 <= length (Generation.genomes Demo.four))%nat
  /\ (population Demo.options <= Z.of_nat (length (fst Demo.bred))
      <= Z.max 0 (population Demo.options) + 1)%Z.
Proof.
  split; [vm_compute; reflexivity|].
  apply (@generateNextGeneration_returns_only Demo.options 3 Demo.four
           (Demo.steady 0.75) (fst Demo.bred) (snd Demo.bred)).
  vm_compute. reflexivity.
Defined.

(** X7. Population conservation where the code provides it: when every
    genome has its network, there are at least three genomes and no fewer
    genomes than elites, and the elites and the random networks together are
    fewer than [options.population], then [2 * population + 2] turns of the
    breeding loop suffice and the call returns exactly [options.population]
    networks. *)
Theorem generateNextGeneration_conserves_population (opts : Options)
    (this : Generation.t) (e k fuel : nat) (r : rng) :
  Stage.complete this = true ->
  (3 <= length (Generation.genomes this))%nat ->
  round_iterations (elitism opts * of_Z (population opts)) = Finite e ->
  round_iterations (randomBehaviour opts * of_Z (population opts)) = Finite k ->
  (e <= length (Generation.genomes this))%nat ->
  (Z.of_nat (e + k) < population opts)%Z ->
  (2 * Z.to_nat (population opts) + 2 <= fuel)%nat ->
  exists nexts r',
    Generation.generateNextGeneration opts fuel this r = Ok nexts r'
    /\ Z.of_nat (length nexts) = population opts.
Proof.
  intros Hc H3 He Hk Hle Hlt Hf.
  apply UniformFacts.complete_spec in Hc.
  exact (@GenerationFacts.generate_returns_population opts this Hc H3 e k fuel r
           He Hk Hle Hlt Hf).
Qed.

(** The scenario: one elite, one random network, two children. *)
Lemma generateNextGeneration_conserves_population_witness :
  Stage.complete Demo.four = true
  /\ (3 <= length (Generation.genomes Demo.four))%nat
  /\ round_iterations (elitism Demo.options * of_Z (population Demo.options))
     = Finite 1
  /\ round_iterations
       (randomBehaviour Demo.options * of_Z (population Demo.options))
     = Finite 1
  /\ (1 <= length (Generation.genomes Demo.four))%nat
  /\ (Z.of_nat (1 + 1) < population Demo.options)%Z
  /\ (2 * Z.to_nat (population Demo.options) + 2 <= 10)%nat
  /\ exists nexts r',
       Generation.generateNextGeneration Demo.options 10 Demo.four
         (Demo.steady 0.75) = Ok nexts r'
       /\ Z.of_nat (length nexts) = population Demo.options.
Proof.
  split; [reflexivity|]. split; [cbn; lia|]. split; [vm_compute; reflexivity|].
  split; [vm_compute; reflexivity|]. split; [cbn; lia|]. split; [cbn; lia|].
  split; [cbn; lia|].
  apply (@generateNextGeneration_conserves_population Demo.options Demo.four
           1 1 10 (Demo.steady 0.75));
    try reflexivity; try (vm_compute; reflexivity); cbn; lia.
Defined.

(** X8. Elitism: when the call returns, the first
    [Math.round(elitism * population)] networks of the result (as many of
    them as the population admits) are the JSON copies of the networks of
    the genomes at the same indices, the best genome first. *)
Theorem elites_are_copied (opts : Options) (fuel : nat) (this : Generation.t)
    (r : rng) (nexts : list Save.t) (r' : rng) (e : nat) :
  Generation.generateNextGeneration opts fuel this r = Ok nexts r' ->
  round_iterations (elitism opts * of_Z (population opts)) = Finite e ->
  forall i, (i < e)%nat -> (Z.of_nat i < population opts)%Z ->
    exists g s,
      nth_error (Generation.genomes this) i = Some g
      /\ Genome.network g = Some s
      /\ nth_error nexts i = Some (Save.json_copy s).
Proof.
  intros H He i Hi Hp.
  exact (@UniformFacts.generate_elites opts this fuel r nexts r' e H He i Hi Hp).
Qed.

(** The scenario: the single elite is the copy of the best genome. *)
Lemma elites_are_copied_witness :
  Generation.generateNextGeneration Demo.options 3 Demo.four (Demo.steady 0.75)
  = Ok (fst Demo.bred) (snd Demo.bred)
  /\ round_iterations (elitism Demo.options * of_Z (population Demo.options))
     = Finite 1
  /\ forall i, (i < 1)%nat -> (Z.of_nat i < population Demo.options)%Z ->
       exists g s,
         nth_error (Generation.genomes Demo.four) i = Some g
         /\ Genome.network g = Some s
         /\ nth_error (fst Demo.bred) i = Some (Save.json_copy s).
Proof.
  split; [vm_compute; reflexivity|]. split; [vm_compute; reflexivity|].
  apply (@elites_are_copied Demo.options 3 Demo.four (Demo.steady 0.75)
           (fst Demo.bred) (snd Demo.bred) 1); vm_compute; reflexivity.
Defined.

(** X9. The topology is inherited: when every genome of the Generation
    carries a network with the same [neurons] descriptor and the same
    number of flat weights, every network of the next population (elite,
    random or bred) has that descriptor and that number of weights. *)
Theorem next_population_keeps_topology (opts : Options) (fuel : nat)
    (this : Generation.t) (counts : list nat) (n : nat) (r : rng)
    (nexts : list Save.t) (r' : rng) :
  Stage.uniform counts n this = true ->
  Generation.generateNextGeneration opts fuel this r = Ok nexts r' ->
  Forall (fun s => Save.neurons s = counts /\ length (Save.weights s) = n) nexts.
Proof.
  intros Hu H.
  pose proof (@UniformFacts.generate_shaped opts this counts n Hu fuel r nexts r' H)
    as F.
  eapply Forall_impl; [|exact F]. intros s. apply UniformFacts.shape_spec.
Qed.

(** The scenario: topology [2, 2, 1], six weights. *)
Lemma next_population_keeps_topology_witness :
  Stage.uniform [2; 2; 1]%nat 6 Demo.four = true
  /\ Generation.generateNextGeneration Demo.options 3 Demo.four
       (Demo.steady 0.75) = Ok (fst Demo.bred) (snd Demo.bred)
  /\ Forall (fun s => Save.neurons s = [2; 2; 1]%nat
                      /\ length (Save.weights s) = 6%nat) (fst Demo.bred).
Proof.
  split; [reflexivity|]. split; [vm_compute; reflexivity|].
  apply (@next_population_keeps_topology Demo.options 3 Demo.four
           [2; 2; 1]%nat 6 (Demo.steady 0.75) (fst Demo.bred) (snd Demo.bred));
    [reflexivity | vm_compute; reflexivity].
Defined.

(** X10. Every weight [breed] produces: for parents whose flat weight arrays
    have the same length, each weight of each child is the JSON copy of
    parent A's weight or parent B's weight at that index, either as it
    stands or plus [d * mutationRange * 2 - mutationRange] for one draw [d]
    of the random source. *)
Theorem breed_weights (opts : Options) (g1 g2 : Genome.t) (n1 n2 : Save.t)
    (nbchildren : Z) (r : rng) :
  Genome.network g1 = Some n1 ->
  Genome.network g2 = Some n2 ->
  length (Save.weights n1) = length (Save.weights n2) ->
  exists children r',
    Generation.breed opts g1 g2 nbchildren r = Ok children r'
    /\ Forall (fun c =>
         forall j, (j < length (Save.weights n1))%nat ->
           exists v,
             (v = array_get (map json_val (Save.weights n1)) j
              \/ v = array_get (Save.weights n2) j)
             /\ (array_get (Save.weights (Generation.child_network c)) j = v
                 \/ exists i,
                      array_get (Save.weights (Generation.child_network c)) j
                      = Num (to_number v
                             + (draws r i * mutationRange opts * 2
                                - mutationRange opts))%float))
         children.
Proof.
  intros E1 E2 L. unfold Generation.breed.
  destruct (@BreedMore.breed_children_all opts g1 g2
              (fun d => d = draws r)
              (fun c =>
                 forall j, (j < length (Save.weights n1))%nat ->
                   exists v,
                     (v = array_get (map json_val (Save.weights n1)) j
                      \/ v = array_get (Save.weights n2) j)
                     /\ BreedFacts.perturbed opts r v
                          (array_get (Save.weights (Generation.child_network c)) j)))
    with (nb := Z.to_nat nbchildren) (r := r) as (cs & r' & E & _ & F);
    trivial.
  - intros r0 D.
    destruct (@BreedFacts.breed_one_weights opts g1 g2 n1 n2 r0 E1 E2 L)
      as (c & r1 & Ec & Hc).
    exists c, r1. split; trivial. intros j Hj.
    destruct (Hc j Hj) as (v & Hv & P). exists v. split; trivial.
    unfold BreedFacts.perturbed in *. now rewrite <- D.
  - exists cs, r'. split; trivial.
Qed.

(** Two genomes of the scenario. *)
Lemma breed_weights_witness :
  Genome.network (Demo.genome 40 Demo.save) = Some Demo.save
  /\ Genome.network (Demo.genome 20 Demo.save') = Some Demo.save'
  /\ length (Save.weights Demo.save) = length (Save.weights Demo.save')
  /\ exists children r',
       Generation.breed Demo.options (Demo.genome 40 Demo.save)
         (Demo.genome 20 Demo.save') 2 (Demo.steady 0.25) = Ok children r'
       /\ Forall (fun c =>
            forall j, (j < length (Save.weights Demo.save))%nat ->
              exists v,
                (v = array_get (map json_val (Save.weights Demo.save)) j
                 \/ v = array_get (Save.weights Demo.save') j)
                /\ (array_get (Save.weights (Generation.child_network c)) j = v
                    \/ exists i,
                         array_get (Save.weights (Generation.child_network c)) j
                         = Num (to_number v
                                + (draws (Demo.steady 0.25) i
                                   * mutationRange Demo.options * 2
                                   - mutationRange Demo.options))%float))
            children.
Proof.
  split; [reflexivity|]. split; [reflexivity|]. split; [reflexivity|].
  apply (@breed_weights Demo.options (Demo.genome 40 Demo.save)
           (Demo.genome 20 Demo.save') Demo.save Demo.save' 2
           (Demo.steady 0.25)); reflexivity.
Defined.

(** X11. A random source whose draws are all above 0.5 and above
    [mutationRate] never crosses and never mutates: every child [breed]
    returns is the JSON copy of parent A, score and network, whatever
    parent B's weights are. *)
Theorem breed_copies_first_parent (opts : Options) (g1 g2 : Genome.t)
    (n1 n2 : Save.t) (nbchildren : Z) (r : rng) :
  Genome.network g1 = Some n1 ->
  Genome.network g2 = Some n2 ->
  (forall i, (draws r i <=? 0.5)%float = false) ->
  (forall i, (draws r i <=? mutationRate opts)%float = false) ->
  exists children r',
    Generation.breed opts g1 g2 nbchildren r = Ok children r'
    /\ children
       = repeat {| Generation.child_score := json_val (Genome.score g1);
                   Generation.child_network := Save.json_copy n1 |}
                (Z.to_nat nbchildren).
Proof.
  intros E1 E2 Hc Hm. unfold Generation.breed.
  destruct (@BreedMore.breed_children_all opts g1 g2
              (fun d => d = draws r)
              (fun c => c = {| Generation.child_score := json_val (Genome.score g1);
                               Generation.child_network := Save.json_copy n1 |}))
    with (nb := Z.to_nat nbchildren) (r := r) as (cs & r' & E & Ln & F);
    trivial.
  - intros r0 D.
    destruct (@BreedMore.breed_one_copy opts g1 g2 n1 n2 r0 E1 E2) as (r1 & Ec).
    + intros i. rewrite D. apply Hc.
    + intros i. rewrite D. apply Hm.
    + eexists _, r1. split; [exact Ec | reflexivity].
  - exists cs, r'. split; trivial. rewrite <- Ln.
    clear E Ln. induction F as [|c cs -> F IH]; cbn; [reflexivity|].
    now rewrite <- IH.
Qed.

(** Every draw is 0.75, the rate is 0.1. *)
Lemma breed_copies_first_parent_witness :
  Genome.network (Demo.genome 40 Demo.save) = Some Demo.save
  /\ Genome.network (Demo.genome 20 Demo.save') = Some Demo.save'
  /\ (forall i, (draws (Demo.steady 0.75) i <=? 0.5)%float = false)
  /\ (forall i, (draws (Demo.steady 0.75) i
                 <=? mutationRate Demo.options)%float = false)
  /\ exists children r',
       Generation.breed Demo.options (Demo.genome 40 Demo.save)
         (Demo.genome 20 Demo.save') 2 (Demo.steady 0.75) = Ok children r'
       /\ children
          = repeat {| Generation.child_score :=
                        json_val (Genome.score (Demo.genome 40 Demo.save));
                      Generation.child_network := Save.json_copy Demo.save |}
                   (Z.to_nat 2).
Proof.
  split; [reflexivity|]. split; [reflexivity|].
  split; [intros i; reflexivity|]. split; [intros i; reflexivity|].
  apply (@breed_copies_first_parent Demo.options (Demo.genome 40 Demo.save)
           (Demo.genome 20 Demo.save') Demo.save Demo.save' 2
           (Demo.steady 0.75));
    try reflexivity; intros i; reflexivity.
Defined.

(** X12. A random source whose draws are all at most 0.5 and above
    [mutationRate] always crosses and never mutates: when parent B's flat
    weights have no missing index and as many entries as parent A's, every
    child has parent A's [neurons] descriptor and exactly parent B's flat
    weights. *)
Theorem breed_takes_second_parent (opts : Options) (g1 g2 : Genome.t)
    (n1 n2 : Save.t) (nbchildren : Z) (r : rng) :
  Genome.network g1 = Some n1 ->
  Genome.network g2 = Some n2 ->
  Shape.dense (Save.weights n2) = true ->
  length (Save.weights n1) = length (Save.weights n2) ->
  (forall i, (draws r i <=? 0.5)%float = true) ->
  (forall i, (draws r i <=? mutationRate opts)%float = false) ->
  exists children r',
    Generation.breed opts g1 g2 nbchildren r = Ok children r'
    /\ length children = Z.to_nat nbchildren
    /\ Forall (fun c =>
         Generation.child_network c
         = {| Save.neurons := Save.neurons n1;
              Save.weights := Save.weights n2 |}) children.
Proof.
  intros E1 E2 D L Hc Hm. unfold Generation.breed.
  apply (@BreedMore.breed_children_all opts g1 g2 (fun d => d = draws r));
    trivial.
  intros r0 Dr.
  destruct (@BreedMore.breed_one_other opts g1 g2 n1 n2 r0 E1 E2 D L)
    as (r1 & Ec).
  - intros i. rewrite Dr. apply Hc.
  - intros i. rewrite Dr. apply Hm.
  - eexists _, r1. split; [exact Ec | reflexivity].
Qed.

(** Every draw is 0.25, the rate is 0.1. *)
Lemma breed_takes_second_parent_witness :
  Genome.network (Demo.genome 40 Demo.save) = Some Demo.save
  /\ Genome.network (Demo.genome 20 Demo.save') = Some Demo.save'
  /\ Shape.dense (Save.weights Demo.save') = true
  /\ length (Save.weights Demo.save) = length (Save.weights Demo.save')
  /\ (forall i, (draws (Demo.steady 0.25) i <=? 0.5)%float = true)
  /\ (forall i, (draws (Demo.steady 0.25) i
                 <=? mutationRate Demo.options)%float = false)
  /\ exists children r',
       Generation.breed Demo.options (Demo.genome 40 Demo.save)
         (Demo.genome 20 Demo.save') 2 (Demo.steady 0.25) = Ok children r'
       /\ length children = Z.to_nat 2
       /\ Forall (fun c =>
            Generation.child_network c
            = {| Save.neurons := Save.neurons Demo.save;
                 Save.weights := Save.weights Demo.save' |}) children.
Proof.
  split; [reflexivity|]. split; [reflexivity|]. split; [reflexivity|].
  split; [reflexivity|].
  split; [intros i; reflexivity|]. split; [intros i; reflexivity|].
  apply (@breed_takes_second_parent Demo.options (Demo.genome 40 Demo.save)
           (Demo.genome 20 Demo.save') Demo.save Demo.save' 2
           (Demo.steady 0.25));
    try reflexivity; intros i; reflexivity.
Defined.

(** X13. [set] accumulates: the options are one object shared by every
    engine, a call overwrites the keys it is given and leaves the others as
    the calls before left them (it never restores a default), so two calls
    amount to one call with the second object laid over the first, and the
    empty object changes nothing. *)
Theorem set_accumulates (opts : Options) (a b : BirdBrain.Overrides) :
  BirdBrain.set (BirdBrain.set opts a) b
  = BirdBrain.set opts (Settings.overlay a b)
  /\ BirdBrain.set opts Settings.no_override = opts.
Proof.
  split; [|now destruct opts].
  destruct a as [a1 a2 a3 a4 a5 a6 a7 a8 a9 a10 a11],
           b as [b1 b2 b3 b4 b5 b6 b7 b8 b9 b10 b11].
  unfold BirdBrain.set, Settings.overlay, BirdBrain.override. cbn.
  destruct b1, b2, b3, b4, b5, b6, b7, b8, b9, b10, b11; reflexivity.
Qed.

(** X14. [firstGeneration] always completes: it returns [population] saves,
    each with the topology of [options.network] and one flat weight per
    synapse of it, appends exactly one empty Generation to the history, and
    draws one random number per weight. *)
Theorem firstGeneration_builds (opts : Options) (this : Generations.t)
    (r : rng) :
  exists out,
    Generations.firstGeneration opts this r
    = Ok ({| Generations.generations :=
               Generations.generations this ++ [Generation.new] |}, out)
         (Draws.advance r
            (Z.to_nat (population opts)
             * Shape.expected_weights (Stage.topology opts)))
    /\ length out = Z.to_nat (population opts)
    /\ Forall (fun s => Save.neurons s = Stage.topology opts
                        /\ length (Save.weights s)
                           = Shape.expected_weights (Stage.topology opts))
              out.
Proof.
  destruct (EngineFacts.firstGeneration_spec opts this r) as (out & E & L & F).
  exists out. split; [exact E|]. split; [exact L|].
  eapply Forall_impl; [|exact F]. intros s. apply UniformFacts.shape_spec.
Qed.

(** X15. The first call of [BirdBrain.nextGeneration] (no Generation yet,
    history depth -1 or more) returns [population] networks, each well
    formed and of the configured topology; the history then holds the one
    empty Generation that awaits their scores.  Every weight is drawn twice:
    once for the save, once more by the fresh network [setSave] then
    overwrites. *)
Theorem first_call_builds_population (self : BirdBrain.Global)
    (opts : Options) (fuel : nat) (this : BirdBrain.t) (r : rng) :
  History.history this = [] ->
  (-1 <= historic opts)%Z ->
  exists nns,
    BirdBrain.nextGeneration self opts fuel this r
    = ({| BirdBrain.generations :=
            {| Generations.generations := [Generation.new] |} |},
       Ok nns
          (Draws.advance r
             (2 * (Z.to_nat (population opts)
                   * Shape.expected_weights (Stage.topology opts)))))
    /\ length nns = Z.to_nat (population opts)
    /\ Forall (fun n => Shape.well_formed n = true
                        /\ Shape.sizes n = Stage.topology opts) nns.
Proof.
  intros H Hh.
  exact (@EngineFacts.first_call self opts fuel this r H Hh).
Qed.

(** A new engine under the options of the scenario. *)
Lemma first_call_builds_population_witness :
  History.history BirdBrain.new = []
  /\ (-1 <= historic Demo.options)%Z
  /\ exists nns,
       BirdBrain.nextGeneration BirdBrain.window Demo.options 0 BirdBrain.new
         (Demo.steady 0.75)
       = ({| BirdBrain.generations :=
               {| Generations.generations := [Generation.new] |} |},
          Ok nns
             (Draws.advance (Demo.steady 0.75)
                (2 * (Z.to_nat (population Demo.options)
                      * Shape.expected_weights (Stage.topology Demo.options)))))
       /\ length nns = Z.to_nat (population Demo.options)
       /\ Forall (fun n => Shape.well_formed n = true
                           /\ Shape.sizes n = Stage.topology Demo.options) nns.
Proof.
  split; [reflexivity|]. split; [cbn; lia|].
  apply (@first_call_builds_population BirdBrain.window Demo.options 0
           BirdBrain.new (Demo.steady 0.75)); [reflexivity | cbn; lia].
Defined.

(** X16. A call of [BirdBrain.nextGeneration] that returns (in the page,
    with a history depth of -1 or more) has appended one empty Generation,
    the one the scores of the returned networks will enter, and has dropped
    Generations from the old end only: with depth -1 none, otherwise all
    but the [historic] latest of those it held. *)
Theorem returning_call_history (opts : Options) (fuel : nat)
    (this : BirdBrain.t) (r : rng) (this' : BirdBrain.t)
    (nns : list Network.t) (r' : rng) :
  (-1 <= historic opts)%Z ->
  BirdBrain.nextGeneration BirdBrain.window opts fuel this r
  = (this', Ok nns r') ->
  exists dropped kept,
    History.history this = dropped ++ kept
    /\ History.history this' = kept ++ [Generation.new]
    /\ length kept
       = (if (historic opts =? -1)%Z then length (History.history this)
          else Nat.min (length (History.history this))
                 (Z.to_nat (historic opts))).
Proof.
  intros Hh H.
  exact (@EngineFacts.nextGeneration_history opts fuel this r this' nns r' Hh H).
Qed.

(** The scenario: depth 0, the scored Generation is dropped. *)
Lemma returning_call_history_witness :
  (-1 <= historic Demo.options)%Z
  /\ BirdBrain.nextGeneration BirdBrain.window Demo.options 3 Demo.brain
       (Demo.steady 0.75)
     = (fst (fst Demo.returning), Ok (snd (fst Demo.returning))
                                     (snd Demo.returning))
  /\ exists dropped kept,
       History.history Demo.brain = dropped ++ kept
       /\ History.history (fst (fst Demo.returning)) = kept ++ [Generation.new]
       /\ length kept
          = (if (historic Demo.options =? -1)%Z
             then length (History.history Demo.brain)
             else Nat.min (length (History.history Demo.brain))
                    (Z.to_nat (historic Demo.options))).
Proof.
  split; [cbn; lia|]. split; [vm_compute; reflexivity|].
  apply (@returning_call_history Demo.options 3 Demo.brain (Demo.steady 0.75)
           (fst (fst Demo.returning)) (snd (fst Demo.returning))
           (snd Demo.returning));
    [cbn; lia | vm_compute; reflexivity].
Defined.

(** X17. Every network [BirdBrain.nextGeneration] returns is well formed
    (each neuron has one weight per neuron of the layer before it), whatever
    the saves of the history looked like: [setSave] rebuilds the layers from
    the [neurons] descriptor alone. *)
Theorem returned_networks_are_well_formed (self : BirdBrain.Global)
    (opts : Options) (fuel : nat) (this : BirdBrain.t) (r : rng)
    (this' : BirdBrain.t) (nns : list Network.t) (r' : rng) :
  BirdBrain.nextGeneration self opts fuel this r = (this', Ok nns r') ->
  Forall (fun n => Shape.well_formed n = true) nns.
Proof.
  intros H.
  exact (@EngineFacts.nextGeneration_networks self opts fuel this r this' nns
           r' H).
Qed.

(** The scenario. *)
Lemma returned_networks_are_well_formed_witness :
  BirdBrain.nextGeneration BirdBrain.window Demo.options 3 Demo.brain
    (Demo.steady 0.75)
  = (fst (fst Demo.returning), Ok (snd (fst Demo.returning))
                                  (snd Demo.returning))
  /\ Forall (fun n => Shape.well_formed n = true) (snd (fst Demo.returning)).
Proof.
  split; [vm_compute; reflexivity|].
  apply (@returned_networks_are_well_formed BirdBrain.window Demo.options 3
           Demo.brain (Demo.steady 0.75) (fst (fst Demo.returning))
           (snd (fst Demo.returning)) (snd Demo.returning)).
  vm_compute; reflexivity.
Defined.

(** X18. With [lowHistoric] set, in the page, only the first call of
    [nextGeneration] can return: on any engine that already holds a
    Generation the call raises or does not terminate, whatever the other
    options and the random source. *)
Theorem lowHistoric_only_first_call_returns (opts : Options) (fuel : nat)
    (this : BirdBrain.t) (r : rng) :
  lowHistoric opts = true ->
  History.history this <> [] ->
  History.produced
    (snd (BirdBrain.nextGeneration BirdBrain.window opts fuel this r))
  = false.
Proof.
  intros L H.
  exact (@BirdBrainFacts.lowHistoric_never_returns opts fuel this r L H).
Qed.

(** The scenario with [lowHistoric] set. *)
Lemma lowHistoric_only_first_call_returns_witness :
  lowHistoric Demo.low = true
  /\ History.history Demo.brain <> []
  /\ History.produced
       (snd (BirdBrain.nextGeneration BirdBrain.window Demo.low 3 Demo.brain
               (Demo.steady 0.75)))
     = false.
Proof.
  split; [reflexivity|]. split; [discriminate|].
  apply (@lowHistoric_only_first_call_returns Demo.low 3 Demo.brain
           (Demo.steady 0.75)); [reflexivity | discriminate].
Defined.

(** X19. [networkScore] touches the current Generation only: the older
    Generations stay as they are, and the current one receives exactly one
    genome, made of the score and the save of the network, between two
    parts of its list of genomes that keep their order. *)
Theorem networkScore_enters_current_generation (opts : Options)
    (this : BirdBrain.t) (older : list Generation.t) (current : Generation.t)
    (network : Network.t) (score : jsval) :
  History.history this = older ++ [current] ->
  exists before after,
    Generation.genomes current = before ++ after
    /\ History.history (BirdBrain.networkScore opts this network score)
       = older ++ [ {| Generation.genomes :=
                         before ++ Genome.new score (Network.getSave network)
                                :: after |} ].
Proof.
  intros H.
  exact (@EngineFacts.networkScore_snoc opts this older current network score H).
Qed.

(** A score of 15 told to the engine of the scenario. *)
Lemma networkScore_enters_current_generation_witness :
  History.history Demo.brain = [] ++ [Demo.four]
  /\ exists before after,
       Generation.genomes Demo.four = before ++ after
       /\ History.history
            (BirdBrain.networkScore Demo.options Demo.brain Demo.net (Num 15))
          = [] ++ [ {| Generation.genomes :=
                         before ++ Genome.new (Num 15)
                                     (Network.getSave Demo.net) :: after |} ].
Proof.
  split; [reflexivity|].
  apply (@networkScore_enters_current_generation Demo.options Demo.brain []
           Demo.four Demo.net (Num 15)).
  reflexivity.
Defined.

(** X20. The JSON copy that elitism and breeding take of a save
    ([JSON.parse(JSON.stringify(...))]) is idempotent, and it gives the save
    back exactly when every weight is [null] or a finite number other than
    the negative zero; a NaN, an infinity, an [undefined] or a -0 among the
    weights does not survive it. *)
Theorem json_copy_fixed_points (s : Save.t) :
  Save.json_copy (Save.json_copy s) = Save.json_copy s
  /\ (Save.json_copy s = s
      <-> forallb Json.plain (Save.weights s) = true).
Proof.
  split; [apply EngineFacts.json_copy_idem | apply EngineFacts.json_copy_fixed].
Qed.

(** * Properties of the game *)

(** X21. The pipe loop of [update], which removes a pipe with [splice] and
    steps its index back, visits every pipe exactly once: given one turn
    per pipe it ends, and the pipes it leaves are the pipes it found, each
    moved once, without those that are out of the screen after the move,
    in their order. *)
Theorem pipe_loop_moves_and_filters (pipes : list Pipe.t) :
  Game.sweep (length pipes) pipes 0
  = Some (filter (fun p => negb (Pipe.isOut p)) (map Pipe.update pipes)).
Proof. exact (PipeFacts.sweep_all pipes). Qed.

(** X22. The pipes stay in pairs through a tick: if the pipes go two by
    two, a top pipe at an even index and its bottom pipe next to it with
    the same abscissa, width and speed and a hole of 120 between them, then
    so they do after [update], whether pipes left the screen, a pair was
    pushed or the round was restarted. *)
Theorem pipes_stay_paired (self : BirdBrain.Global) (opts : Options)
    (fuel : nat) (this : Game.t) (Brain : BirdBrain.t) (r : rng)
    (this' : Game.t) (Brain' : BirdBrain.t) (r' : rng) :
  Play.paired (Game.pipes this) ->
  Game.update self opts fuel this Brain r = Ok (this', Brain') r' ->
  Play.paired (Game.pipes this').
Proof.
  intros P E.
  exact (@RoundFacts.update_paired self opts fuel this Brain r this' Brain' r'
           P E).
Qed.

(** The second tick of the scenario: the first pair moves on. *)
Lemma pipes_stay_paired_witness :
  Play.paired (Game.pipes (fst (fst Demo.first_tick)))
  /\ Game.update BirdBrain.window Demo.options 10 (fst (fst Demo.first_tick))
       (snd (fst Demo.first_tick)) (snd Demo.first_tick)
     = Ok (fst (fst Demo.second_tick), snd (fst Demo.second_tick))
          (snd Demo.second_tick)
  /\ Play.paired (Game.pipes (fst (fst Demo.second_tick))).
Proof.
  split; [repeat constructor|]. split; [vm_compute; reflexivity|].
  apply (@pipes_stay_paired BirdBrain.window Demo.options 10
           (fst (fst Demo.first_tick)) (snd (fst Demo.first_tick))
           (snd Demo.first_tick) (fst (fst Demo.second_tick))
           (snd (fst Demo.second_tick)) (snd Demo.second_tick));
    [repeat constructor | vm_compute; reflexivity].
Defined.

(** X23. [start] on an engine without history (depth -1 or more) returns:
    the game holds one network and one living bird per member of the
    population, and the books of the round agree. *)
Theorem start_opens_the_books (self : BirdBrain.Global) (opts : Options)
    (fuel : nat) (this : Game.t) (Brain : BirdBrain.t) (r : rng) :
  History.history Brain = [] ->
  (-1 <= historic opts)%Z ->
  exists networks Brain' r',
    Game.start self opts fuel this Brain r
    = Ok (Game.started this networks, Brain') r'
    /\ length networks = Z.to_nat (population opts)
    /\ Play.consistent opts (Game.started this networks) Brain' = true.
Proof.
  intros H Hd.
  destruct (@RoundFacts.start_first self opts Hd fuel this Brain r H)
    as (nns & r' & E & L & F).
  eexists nns, _, r'. split; [exact E|]. split; [exact L|].
  apply RoundFacts.consistent_spec.
  now apply RoundFacts.started_inv with (kept := []).
Qed.

(** The scenario. *)
Lemma start_opens_the_books_witness :
  History.history BirdBrain.new = []
  /\ (-1 <= historic Demo.options)%Z
  /\ exists networks Brain' r',
       Game.start BirdBrain.window Demo.options 10 (Game.new 500 512)
         BirdBrain.new (Demo.steady 0.75)
       = Ok (Game.started (Game.new 500 512) networks, Brain') r'
       /\ length networks = Z.to_nat (population Demo.options)
       /\ Play.consistent Demo.options
            (Game.started (Game.new 500 512) networks) Brain' = true.
Proof.
  split; [reflexivity|]. split; [cbn; lia|].
  apply (@start_opens_the_books BirdBrain.window Demo.options 10
           (Game.new 500 512) BirdBrain.new (Demo.steady 0.75));
    [reflexivity | cbn; lia].
Defined.

(** X24. A tick keeps the books (without [lowHistoric], depth -1 or more):
    if there is one network per bird, [alives] counts the living birds,
    every network has the configured topology and the current Generation
    holds one genome per dead bird, then the same holds after any call of
    [update] that returns, also when the last bird died and the round was
    restarted in mid-loop. *)
Theorem tick_keeps_the_books (self : BirdBrain.Global) (opts : Options)
    (fuel : nat) (this : Game.t) (Brain : BirdBrain.t) (r : rng)
    (this' : Game.t) (Brain' : BirdBrain.t) (r' : rng) :
  lowHistoric opts = false ->
  (-1 <= historic opts)%Z ->
  Play.consistent opts this Brain = true ->
  Game.update self opts fuel this Brain r = Ok (this', Brain') r' ->
  Play.consistent opts this' Brain' = true.
Proof.
  intros Hl Hd C E. apply RoundFacts.consistent_spec.
  apply RoundFacts.consistent_spec in C.
  exact (@RoundFacts.update_inv self opts Hl Hd fuel this Brain r this' Brain'
           r' C E).
Qed.

(** On the low canvas the four birds die in the first tick and the round
    is restarted within it. *)
Lemma tick_keeps_the_books_witness :
  lowHistoric Demo.options = false
  /\ (-1 <= historic Demo.options)%Z
  /\ Play.consistent Demo.options (fst (fst Demo.low_opening))
       (snd (fst Demo.low_opening)) = true
  /\ Game.update BirdBrain.window Demo.options 10 (fst (fst Demo.low_opening))
       (snd (fst Demo.low_opening)) (snd Demo.low_opening)
     = Ok (fst (fst Demo.low_tick), snd (fst Demo.low_tick))
          (snd Demo.low_tick)
  /\ Game.generation (fst (fst Demo.low_tick)) = 2%Z
  /\ Play.consistent Demo.options (fst (fst Demo.low_tick))
       (snd (fst Demo.low_tick)) = true.
Proof.
  split; [reflexivity|]. split; [cbn; lia|]. split; [vm_compute; reflexivity|].
  split; [vm_compute; reflexivity|]. split; [reflexivity|].
  apply (@tick_keeps_the_books BirdBrain.window Demo.options 10
           (fst (fst Demo.low_opening)) (snd (fst Demo.low_opening))
           (snd Demo.low_opening) (fst (fst Demo.low_tick))
           (snd (fst Demo.low_tick)) (snd Demo.low_tick));
    [reflexivity | cbn; lia | vm_compute; reflexivity
     | vm_compute; reflexivity].
Defined.

(** X25. A tick completes.  Without [lowHistoric], with a history depth of
    -1 or more, a population of at least three that exceeds the elites and
    the random networks together, and [2 * population + 2] turns for the
    breeding loop: from a game whose books agree and that holds
    [population] birds, [update] neither raises nor hangs, and it leaves
    such a game. *)
Theorem tick_completes (self : BirdBrain.Global) (opts : Options)
    (e k fuel : nat) (this : Game.t) (Brain : BirdBrain.t) (r : rng) :
  lowHistoric opts = false ->
  (-1 <= historic opts)%Z ->
  round_iterations (elitism opts * of_Z (population opts)) = Finite e ->
  round_iterations (randomBehaviour opts * of_Z (population opts)) = Finite k ->
  (Z.of_nat (e + k) < population opts)%Z ->
  (3 <= population opts)%Z ->
  (2 * Z.to_nat (population opts) + 2 <= fuel)%nat ->
  Play.consistent opts this Brain = true ->
  Z.of_nat (length (Game.birds this)) = population opts ->
  exists this' Brain' r',
    Game.update self opts fuel this Brain r = Ok (this', Brain') r'
    /\ Play.consistent opts this' Brain' = true
    /\ Z.of_nat (length (Game.birds this')) = population opts.
Proof.
  intros Hl Hd He Hk Hs H3 Hf C L.
  apply RoundFacts.consistent_spec in C.
  destruct (@RoundFacts.update_total self opts Hl Hd e k He Hk Hs H3 fuel Hf
              this Brain r (conj C L))
    as (this' & Brain' & r' & E & C' & L').
  exists this', Brain', r'. split; [exact E|].
  split; [now apply RoundFacts.consistent_spec | exact L'].
Qed.

(** The first tick on the low canvas. *)
Lemma tick_completes_witness :
  lowHistoric Demo.options = false
  /\ (-1 <= historic Demo.options)%Z
  /\ round_iterations (elitism Demo.options * of_Z (population Demo.options))
     = Finite 1
  /\ round_iterations
       (randomBehaviour Demo.options * of_Z (population Demo.options))
     = Finite 1
  /\ (Z.of_nat (1 + 1) < population Demo.options)%Z
  /\ (3 <= population Demo.options)%Z
  /\ (2 * Z.to_nat (population Demo.options) + 2 <= 10)%nat
  /\ Play.consistent Demo.options (fst (fst Demo.low_opening))
       (snd (fst Demo.low_opening)) = true
  /\ Z.of_nat (length (Game.birds (fst (fst Demo.low_opening))))
     = population Demo.options
  /\ exists this' Brain' r',
       Game.update BirdBrain.window Demo.options 10
         (fst (fst Demo.low_opening)) (snd (fst Demo.low_opening))
         (snd Demo.low_opening) = Ok (this', Brain') r'
       /\ Play.consistent Demo.options this' Brain' = true
       /\ Z.of_nat (length (Game.birds this')) = population Demo.options.
Proof.
  split; [reflexivity|]. split; [cbn; lia|]. split; [vm_compute; reflexivity|].
  split; [vm_compute; reflexivity|]. split; [cbn; lia|]. split; [cbn; lia|].
  split; [cbn; lia|]. split; [vm_compute; reflexivity|].
  split; [reflexivity|].
  apply (@tick_completes BirdBrain.window Demo.options 1 1 10
           (fst (fst Demo.low_opening)) (snd (fst Demo.low_opening))
           (snd Demo.low_opening));
    try (vm_compute; reflexivity); cbn; lia.
Defined.

(** X26. The game never stalls.  Under the same conditions on the options,
    on any canvas and with any random source, [start] on the new game and
    the new engine followed by any number of ticks runs to its end without
    an exception, and leaves a game of [population] birds whose books
    agree. *)
Theorem game_never_stalls (self : BirdBrain.Global) (opts : Options)
    (e k fuel : nat) (canvas_width canvas_height : float) (n : nat) (r : rng) :
  lowHistoric opts = false ->
  (-1 <= historic opts)%Z ->
  round_iterations (elitism opts * of_Z (population opts)) = Finite e ->
  round_iterations (randomBehaviour opts * of_Z (population opts)) = Finite k ->
  (Z.of_nat (e + k) < population opts)%Z ->
  (3 <= population opts)%Z ->
  (2 * Z.to_nat (population opts) + 2 <= fuel)%nat ->
  exists this' Brain' r',
    Play.play self opts fuel canvas_width canvas_height n r
    = Ok (this', Brain') r'
    /\ Play.consistent opts this' Brain' = true
    /\ Z.of_nat (length (Game.birds this')) = population opts.
Proof.
  intros Hl Hd He Hk Hs H3 Hf.
  destruct (@RoundFacts.play_total self opts Hl Hd e k He Hk Hs H3 fuel Hf
              canvas_width canvas_height n r)
    as ([this' Brain'] & r' & E & C & L).
  exists this', Brain', r'. split; [exact E|].
  split; [now apply RoundFacts.consistent_spec | exact L].
Qed.

(** The options of the page (population 50, ten elites, ten random
    networks; the identity stands for the logistic activation), a thousand
    ticks. *)
Lemma game_never_stalls_witness :
  lowHistoric (Game.options (fun a => a)) = false
  /\ (-1 <= historic (Game.options (fun a => a)))%Z
  /\ round_iterations (elitism (Game.options (fun a => a))
                       * of_Z (population (Game.options (fun a => a))))
     = Finite 10
  /\ round_iterations (randomBehaviour (Game.options (fun a => a))
                       * of_Z (population (Game.options (fun a => a))))
     = Finite 10
  /\ (Z.of_nat (10 + 10) < population (Game.options (fun a => a)))%Z
  /\ (3 <= population (Game.options (fun a => a)))%Z
  /\ (2 * Z.to_nat (population (Game.options (fun a => a))) + 2 <= 102)%nat
  /\ exists this' Brain' r',
       Play.play BirdBrain.window (Game.options (fun a => a)) 102 500 512 1000
         (Demo.steady 0.75)
       = Ok (this', Brain') r'
       /\ Play.consistent (Game.options (fun a => a)) this' Brain' = true
       /\ Z.of_nat (length (Game.birds this'))
          = population (Game.options (fun a => a)).
Proof.
  split; [reflexivity|]. split; [cbn; lia|]. split; [vm_compute; reflexivity|].
  split; [vm_compute; reflexivity|]. split; [cbn; lia|]. split; [cbn; lia|].
  split; [cbn; lia|].
  apply (@game_never_stalls BirdBrain.window (Game.options (fun a => a))
           10 10 102 500 512 1000 (Demo.steady 0.75));
    try (vm_compute; reflexivity); cbn; lia.
Defined.

(** X27. Only a network with a single output can make its bird flap: the
    game compares the array [compute] returns with 0.5; an array of two
    entries or more reads as NaN and the empty array as 0, so the test
    holds only when the last layer has one neuron and its value is a number
    above 0.5. *)
Theorem only_single_output_flaps (opts : Options) (n : Network.t)
    (inputs : list jsval) (n' : Network.t) (res : list jsval) :
  Network.compute opts n inputs = Normal (n', res) ->
  (0.5 <? array_to_number res)%float = true ->
  last (Shape.sizes n) 0%nat = 1%nat
  /\ exists f, res = [Num f] /\ (0.5 <? f)%float = true.
Proof.
  destruct n as [[|l0 rest]]; [discriminate|].
  rewrite NetworkMore.compute_computed. intros [= <- <-] H.
  rewrite <- NetworkMore.computed_out with (opts := opts) (inputs := inputs).
  rewrite <- (length_map Neuron.value).
  destruct (map Neuron.value _) as [|v [|v' out]];
    [vm_compute in H; discriminate | |
     destruct v; vm_compute in H; discriminate].
  split; [reflexivity|].
  destruct v as [f| | |]; try (vm_compute in H; discriminate).
  exists f. split; [reflexivity|]. cbn [array_to_number] in H.
  destruct (PrimFloat.is_zero f); [vm_compute in H; discriminate | exact H].
Qed.

(** The network of the scenario on the inputs [1, 1]: its output is 1. *)
Lemma only_single_output_flaps_witness :
  Network.compute Demo.options Demo.net [Num 1; Num 1]
  = Normal (fst Demo.flapping, snd Demo.flapping)
  /\ (0.5 <? array_to_number (snd Demo.flapping))%float = true
  /\ last (Shape.sizes Demo.net) 0%nat = 1%nat
  /\ exists f, snd Demo.flapping = [Num f] /\ (0.5 <? f)%float = true.
Proof.
  split; [vm_compute; reflexivity|]. split; [vm_compute; reflexivity|].
  apply (@only_single_output_flaps Demo.options Demo.net [Num 1; Num 1]
           (fst Demo.flapping) (snd Demo.flapping));
    vm_compute; reflexivity.
Defined.

(** X28. The counters stay in order through a tick: if the score and the
    pipes passed are counted from 0 and do not exceed their records and
    [interval] is between 0 and [spawnInterval] (excluded), then so it is
    after [update], also across a restart; the two records never decrease
    and [spawnInterval] stays as it is. *)
Theorem counters_stay_in_order (self : BirdBrain.Global) (opts : Options)
    (fuel : nat) (this : Game.t) (Brain : BirdBrain.t) (r : rng)
    (this' : Game.t) (Brain' : BirdBrain.t) (r' : rng) :
  Play.recorded this = true ->
  Game.update self opts fuel this Brain r = Ok (this', Brain') r' ->
  Play.recorded this' = true
  /\ (Game.maxScore this <= Game.maxScore this')%Z
  /\ (Game.maxPipesPassed this <= Game.maxPipesPassed this')%Z
  /\ Game.spawnInterval this' = Game.spawnInterval this.
Proof.
  intros R E.
  destruct (@RoundFacts.update_in_order self opts fuel this Brain r this'
              Brain' r' R E) as (S & P & I & MS & MP & SI).
  split; [now apply RoundFacts.recorded_spec|]. now repeat split.
Qed.

(** The first tick on the low canvas, with its restart. *)
Lemma counters_stay_in_order_witness :
  Play.recorded (fst (fst Demo.low_opening)) = true
  /\ Game.update BirdBrain.window Demo.options 10 (fst (fst Demo.low_opening))
       (snd (fst Demo.low_opening)) (snd Demo.low_opening)
     = Ok (fst (fst Demo.low_tick), snd (fst Demo.low_tick))
          (snd Demo.low_tick)
  /\ Play.recorded (fst (fst Demo.low_tick)) = true
  /\ (Game.maxScore (fst (fst Demo.low_opening))
      <= Game.maxScore (fst (fst Demo.low_tick)))%Z
  /\ (Game.maxPipesPassed (fst (fst Demo.low_opening))
      <= Game.maxPipesPassed (fst (fst Demo.low_tick)))%Z
  /\ Game.spawnInterval (fst (fst Demo.low_tick))
     = Game.spawnInterval (fst (fst Demo.low_opening)).
Proof.
  split; [reflexivity|]. split; [vm_compute; reflexivity|].
  apply (@counters_stay_in_order BirdBrain.window Demo.options 10
           (fst (fst Demo.low_opening)) (snd (fst Demo.low_opening))
           (snd Demo.low_opening) (fst (fst Demo.low_tick))
           (snd (fst Demo.low_tick)) (snd Demo.low_tick));
    [reflexivity | vm_compute; reflexivity].
Defined.
